(** * Noisemaker: image-space effects and point clouds

    A shallow embedding of [noisemaker/effects.py] and
    [noisemaker/points.py], with the properties stated for them.

    Numeric model.  Samples are 32-bit floats in the source; here they are
    exact rationals in lowest terms ([Qc]), so every arithmetic step is the
    real-number operation the float operation rounds.  Rounding, infinities
    and NaN are outside the model: a division by zero yields [0] here (IEEE
    gives NaN or an infinity), so every statement about sample values
    carries the hypothesis that keeps [normalize]'s denominator non-zero,
    while statements about shapes need none.  Transcendental functions and
    the random generators are taken from an environment ([Env]). *)

From Corelib Require SpecFloat.
From Stdlib Require Import String Ascii.
From Stdlib Require Import List ZArith QArith Qcanon Qround Lia Lqa Bool Sorted.
Import ListNotations.

Set Implicit Arguments.

Close Scope Qc_scope.
Close Scope Q_scope.
Open Scope nat_scope.

(* ================================================================== *)
(** * Exact arithmetic on samples *)
(* ================================================================== *)

Module Num.

  (** An integer as a sample (Python's int-to-float promotion). *)
Definition ofZ (z : Z) : Qc := Q2Qc (inject_Z z).

  (** [int(x)] and [tf.cast(x, tf.int32)]: truncation toward zero. *)
Definition trunc (q : Qc) : Z := Z.quot (Qnum q) (Zpos (Qden q)).

Definition floor (q : Qc) : Z := Qfloor q.

  (** Floored modulus, the [%] of Python and of TensorFlow on floats:
      the result has the sign of the divisor. *)
Definition fmod (x m : Qc) : Qc := (x - m * ofZ (floor (x / m)))%Qc.

Definition leb (x y : Qc) : bool := Qle_bool x y.
Definition eqb (x y : Qc) : bool := Qeq_bool x y.

Definition min (x y : Qc) : Qc := if leb x y then x else y.
Definition max (x y : Qc) : Qc := if leb x y then y else x.
Definition abs (x : Qc) : Qc := if leb 0%Qc x then x else (- x)%Qc.

  (** Dyadic literals of the source. *)
Definition half : Qc := Q2Qc (1 # 2).
Definition two : Qc := ofZ 2.

End Num.

(* ================================================================== *)
(** * Python results: a value or a raised exception *)
(* ================================================================== *)

Inductive exn : Type :=
| ZeroDivisionError
| ValueError            (* bad enum value, bad argument of a library call *)
| KeyError              (* enum member looked up by an unknown name *)
| InvalidArgumentError  (* TensorFlow shape or index error *)
| IOError.              (* colour lookup table could not be read *)

Inductive result (A : Type) : Type :=
| Ok (a : A)
| Raise (e : exn).

Arguments Ok {A} a.
Arguments Raise {A} e.

Definition rbind {A B} (r : result A) (k : A -> result B) : result B :=
  match r with
  | Ok a => k a
  | Raise e => Raise e
  end.

(** [traverse] for [result]: the first exception wins, left to right. *)
Fixpoint rmapM {A B} (f : A -> result B) (l : list A) : result (list B) :=
  match l with
  | [] => Ok []
  | a :: l' =>
      rbind (f a) (fun b => rbind (rmapM f l') (fun bs => Ok (b :: bs)))
  end.

(* ================================================================== *)
(** * Tensors as nested lists *)
(* ================================================================== *)

(** The source's operations are rank-polymorphic ([normalize] is applied
    to [h,w,c] images and to [h,w] value maps alike).  [Tensorial]
    captures what they need: the samples in row-major order and an
    elementwise map. *)
Class Tensorial (T : Type) : Type := {
  flat : T -> list Qc;
  tmap : (Qc -> Qc) -> T -> T;
  flat_tmap : forall f t, flat (tmap f t) = map f (flat t);
  tmap_tmap : forall f g t, tmap f (tmap g t) = tmap (fun v => f (g v)) t;
  tmap_ext_in : forall f g t,
      (forall v, In v (flat t) -> f v = g v) -> tmap f t = tmap g t
}.

#[export, refine] Instance Tensorial_sample : Tensorial Qc := {
  flat := fun v => [v];
  tmap := fun f v => f v
}.
Proof.
  - reflexivity.
  - reflexivity.
  - intros f g t H. apply H. now left.
Defined.

#[export, refine] Instance Tensorial_list (T : Type) `{Tensorial T}
  : Tensorial (list T) := {
  flat := fun l => concat (map flat l);
  tmap := fun f l => map (tmap f) l
}.
Proof.
  - intros f t. induction t as [|a t IH]; simpl; [reflexivity|].
    now rewrite map_app, flat_tmap, IH.
  - intros f g t. rewrite map_map. apply map_ext. intro a. apply tmap_tmap.
  - intros f g t Hfg. apply map_ext_in. intros a Ha. apply tmap_ext_in.
    intros v Hv. apply Hfg. apply in_concat. exists (flat a). split; [|exact Hv].
    now apply in_map.
Defined.

Definition pixel : Type := list Qc.          (* [channels]                *)
Definition field : Type := list (list Qc).   (* [height, width]           *)
Definition tensor : Type := list (list pixel). (* [height, width, channels] *)

(** [tf.reduce_min] and [tf.reduce_max] over every axis.  On a tensor with
    no sample TensorFlow returns an infinity; the value is never used then
    (there is nothing to rescale), so the model returns [0]. *)
Definition reduce_min {T} `{Tensorial T} (t : T) : Qc :=
  match flat t with
  | [] => 0%Qc
  | v :: vs => fold_left Num.min vs v
  end.

Definition reduce_max {T} `{Tensorial T} (t : T) : Qc :=
  match flat t with
  | [] => 0%Qc
  | v :: vs => fold_left Num.max vs v
  end.

(* ================================================================== *)
(** * effects.py *)
(* ================================================================== *)

(** [normalize] (effects.py, 208-216):
    [(tensor - reduce_min(tensor)) / (reduce_max(tensor) - reduce_min(tensor))]. *)
Definition normalize {T} `{Tensorial T} (t : T) : T :=
  tmap (fun v => ((v - reduce_min t) / (reduce_max t - reduce_min t))%Qc) t.

(* ================================================================== *)
(** * The environment: library functions and generators *)
(* ================================================================== *)

Inductive ResizeMethod : Type := NEAREST_NEIGHBOR | BILINEAR | BICUBIC.

(** What the code takes from outside itself.  Theorems hold for every
    environment; where one needs a property of a component (a uniform
    draw lies in [0,1), a resize yields the size it was asked for), the
    property is a hypothesis of that theorem. *)
Class Env : Type := {
  sqrtf : Qc -> Qc;                 (* math.sqrt, tf.sqrt *)
  round64 : Qc -> Qc;               (* the binary64 float nearest to a real:
                                       Python rounds every float result *)
  cosf : Qc -> Qc;                  (* math.cos, tf.cos *)
  sinf : Qc -> Qc;                  (* math.sin, tf.sin *)
  radians1 : Qc;                    (* math.radians(1) *)
  py_random : nat -> Qc;            (* n-th value of random.random() *)
  tf_uniform : nat -> Qc;           (* n-th sample of tf.random_uniform *)
  tf_normal : nat -> Qc;            (* n-th standard-normal sample of tf.random_normal *)
  np_normal : nat -> Qc;            (* n-th standard-normal sample of np.random.normal *)
  file_opens : string -> bool;      (* open(name, "rb") succeeds *)
  decode_png : string -> result tensor;   (* tf.image.decode_png of the file *)
  decode_jpeg : string -> result tensor;  (* tf.image.decode_jpeg of the file *)
  resize_images : ResizeMethod -> tensor -> Z -> Z -> result tensor;
  set_pop : list (Qc * Qc * Z) -> nat     (* which element set.pop() removes *)
}.

(** State of the generators: how many values each has handed out. *)
Record rng : Type := { py_i : nat; uni_i : nat; nrm_i : nat }.

Definition rng0 : rng := {| py_i := 0; uni_i := 0; nrm_i := 0 |}.

(** Computations that draw random numbers and may raise. *)
Definition M (A : Type) : Type := rng -> result (A * rng).

Definition ret {A} (a : A) : M A := fun s => Ok (a, s).

Definition bind {A B} (m : M A) (k : A -> M B) : M B :=
  fun s => match m s with
           | Ok (a, s') => k a s'
           | Raise e => Raise e
           end.

Definition lift {A} (r : result A) : M A :=
  fun s => match r with
           | Ok a => Ok (a, s)
           | Raise e => Raise e
           end.

Definition raise {A} (e : exn) : M A := fun _ => Raise e.

(** The value a computation returns from the initial generator state. *)
Definition run {A} (m : M A) : result A :=
  match m rng0 with
  | Ok (a, _) => Ok a
  | Raise e => Raise e
  end.

Declare Scope eff_scope.
Delimit Scope eff_scope with eff.
Notation "x <- m ;; k" := (bind m (fun x => k))
  (at level 61, m at next level, right associativity) : eff_scope.
Notation "' pat <- m ;; k" := (bind m (fun x => match x with pat => k end))
  (at level 61, pat pattern, m at next level, right associativity) : eff_scope.
Notation "x <~ r ;; k" := (rbind r (fun x => k))
  (at level 61, r at next level, right associativity) : eff_scope.

Section Generators.
Context {E : Env}.

  (** [random.random()] *)
Definition random_random : M Qc :=
    fun s => Ok (py_random (py_i s),
                 {| py_i := S (py_i s); uni_i := uni_i s; nrm_i := nrm_i s |}).

  (** [tf.random_uniform([count])]; a negative extent is refused. *)
Definition random_uniform (count : Z) : M (list Qc) :=
    fun s =>
      if (count <? 0)%Z then Raise ValueError
      else
        let n := Z.to_nat count in
        Ok (map tf_uniform (seq (uni_i s) n),
            {| py_i := py_i s; uni_i := uni_i s + n; nrm_i := nrm_i s |}).

  (** [tf.random_normal([count], mean, stddev)]: a standard-normal sample
      scaled by [stddev] and shifted by [mean]. *)
Definition random_normal (count : Z) (mean stddev : Qc) : M (list Qc) :=
    fun s =>
      if (count <? 0)%Z then Raise ValueError
      else
        let n := Z.to_nat count in
        Ok (map (fun i => (tf_normal i * stddev + mean)%Qc) (seq (nrm_i s) n),
            {| py_i := py_i s; uni_i := uni_i s; nrm_i := nrm_i s + n |}).
End Generators.

(* ================================================================== *)
(** * Tensor operations used by the effects *)
(* ================================================================== *)

Definition shape3 : Type := (Z * Z * Z)%type.   (* (height, width, channels) *)

(** [tf.shape] of a tensor: extents read off the first row and pixel. *)
Definition dims (t : tensor) : nat * nat * nat :=
  (length t, length (hd [] t), length (hd [] (hd [] t))).

(** A tensor whose every row has [w] pixels of [c] channels. *)
Definition has_shape (t : tensor) (h w c : nat) : Prop :=
  length t = h /\
  Forall (fun row => length row = w /\ Forall (fun px => length px = c) row) t.

Definition field_shape {A} (f : list (list A)) (h w : nat) : Prop :=
  length f = h /\ Forall (fun row => length row = w) f.

(** [f(y, x)] for [y < h], [x < w], row by row. *)
Definition tabulate {A} (h w : nat) (f : nat -> nat -> A) : list (list A) :=
  map (fun y => map (fun x => f y x) (seq 0 w)) (seq 0 h).

(** ** Slicing and tiling *)

(** A slice bound as Python and [tf.strided_slice] read it: a negative
    bound counts from the end, and bounds are clamped to the extent. *)
Definition clamp_index (n : nat) (i : Z) : nat :=
  Z.to_nat (Z.min (Z.of_nat n)
                  (if (i <? 0)%Z then Z.max 0 (i + Z.of_nat n) else i)).

(** [l[a:b]] *)
Definition slice {A} (a b : Z) (l : list A) : list A :=
  let lo := clamp_index (length l) a in
  let hi := clamp_index (length l) b in
  firstn (hi - lo) (skipn lo l).

(** [t[a:b, c:d]] *)
Definition slice2 {A} (a b c d : Z) (t : list (list A)) : list (list A) :=
  map (slice c d) (slice a b t).

Definition tile_axis {A} (n : nat) (l : list A) : list A :=
  concat (repeat l n).

(** [tf.tile(t, [3, 3, 1])] *)
Definition tile33 {A} (t : list (list A)) : list (list A) :=
  tile_axis 3 (map (tile_axis 3) t).

(** [tf.cast(n / 2, tf.int32)] for an integer [n]: true division, then
    truncation. *)
Definition half_of (n : Z) : Z := Num.trunc (Num.ofZ n / Num.two)%Qc.

(** ** Elementwise arithmetic *)

Fixpoint zip_with {A B C} (f : A -> B -> C) (l : list A) (m : list B)
  : result (list C) :=
  match l, m with
  | [], [] => Ok []
  | a :: l', b :: m' =>
      rbind (zip_with f l' m') (fun r => Ok (f a b :: r))
  | _, _ => Raise InvalidArgumentError      (* extents differ *)
  end.

(** A binary operator on two grids of one shape.  (TensorFlow would also
    broadcast an axis of extent one; the effects never rely on it.) *)
Fixpoint zip_with2 {A B C} (f : A -> B -> C)
         (l : list (list A)) (m : list (list B)) : result (list (list C)) :=
  match l, m with
  | [], [] => Ok []
  | a :: l', b :: m' =>
      rbind (zip_with f a b) (fun r =>
      rbind (zip_with2 f l' m') (fun rs => Ok (r :: rs)))
  | _, _ => Raise InvalidArgumentError
  end.

(** Pointwise operator on vectors of one length by construction. *)
Fixpoint map2 {A B C} (f : A -> B -> C) (l : list A) (m : list B) : list C :=
  match l, m with
  | a :: l', b :: m' => f a b :: map2 f l' m'
  | _, _ => []
  end.

Definition map_grid {A B} (f : A -> B) (g : list (list A)) : list (list B) :=
  map (map f) g.

(** 32-bit two's-complement wrap-around of an integer sum. *)
Definition wrap32 (z : Z) : Z := ((z + 2 ^ 31) mod 2 ^ 32 - 2 ^ 31)%Z.

(** [tensor % n] on an [int32] tensor: floored modulus; a zero divisor is
    an error of the kernel. *)
Definition int_mod_grid (g : list (list Z)) (n : Z) : result (list (list Z)) :=
  if (n =? 0)%Z then
    match g with
    | [] => Ok []
    | _ => Raise InvalidArgumentError
    end
  else Ok (map_grid (fun z => (z mod n)%Z) g).

(** ** Gather and scatter *)

Definition nth_result {A} (l : list A) (i : Z) : result A :=
  if (i <? 0)%Z then Raise InvalidArgumentError
  else match nth_error l (Z.to_nat i) with
       | Some a => Ok a
       | None => Raise InvalidArgumentError
       end.

(** One lookup of [tf.gather_nd] with a two-component index. *)
Definition gather_point {A} (t : list (list A)) (yx : Z * Z) : result A :=
  rbind (nth_result t (fst yx)) (fun row => nth_result row (snd yx)).

(** [tf.gather_nd(t, index)] for an index grid of shape [h, w, 2]. *)
Definition gather_nd {A} (t : list (list A)) (index : list (list (Z * Z)))
  : result (list (list A)) :=
  rmapM (rmapM (gather_point t)) index.

(** [tf.gather_nd(t, index)] for an index list of shape [count, 2]. *)
Definition gather_list {A} (t : list (list A)) (index : list (Z * Z))
  : result (list A) :=
  rmapM (gather_point t) index.

(** [tf.stack([a, b], 2)] of two grids. *)
Definition stack2 {A} (a b : list (list A)) : result (list (list (A * A))) :=
  zip_with2 pair a b.

Definition padd (p q : pixel) : pixel := map2 Qcplus p q.

Fixpoint update_nth {A} (n : nat) (f : A -> A) (l : list A) : list A :=
  match l, n with
  | [], _ => []
  | a :: l', O => f a :: l'
  | a :: l', S n' => a :: update_nth n' f l'
  end.

Definition zeros (h w c : nat) : tensor :=
  repeat (repeat (repeat 0%Qc c) w) h.

(** [tf.scatter_nd(index, updates, shape)]: updates that land on one cell
    are added up; an index outside the shape is an error. *)
Fixpoint scatter_into (acc : tensor) (h w : nat)
         (index : list (Z * Z)) (updates : list pixel) : result tensor :=
  match index, updates with
  | (y, x) :: index', u :: updates' =>
      if ((0 <=? y) && (y <? Z.of_nat h) && (0 <=? x) && (x <? Z.of_nat w))%Z
      then scatter_into
             (update_nth (Z.to_nat y) (update_nth (Z.to_nat x) (padd u)) acc)
             h w index' updates'
      else Raise InvalidArgumentError
  | _, _ => Ok acc
  end.

Definition scatter_nd (index : list (Z * Z)) (updates : list pixel)
           (shape : nat * nat * nat) : result tensor :=
  let '(h, w, c) := shape in
  scatter_into (zeros h w c) h w index updates.

(** ** Tensor-by-scalar arithmetic, through [tmap] *)

Definition scale {T} `{Tensorial T} (k : Qc) (t : T) : T :=
  tmap (fun v => (v * k)%Qc) t.

(** [tf.image.convert_image_dtype(t, tf.float32, saturate=True)] of a
    tensor that is [float32] already: TensorFlow returns it as it is (the
    conversion, and with it the saturation, applies between different
    types only). *)
Definition convert_image_dtype_float32 {T} (t : T) : T := t.

(** [tf.reduce_sum(t, 2)] and the same with [keep_dims=True]. *)
Definition psum (p : pixel) : Qc := fold_left Qcplus p 0%Qc.

Definition reduce_sum_channels (t : tensor) : field := map_grid psum t.

Definition reduce_sum_channels_keep (t : tensor) : tensor :=
  map_grid (fun p => [psum p]) t.

(** ** Convolution kernels *)

Inductive ConvKernel : Type :=
| emboss | rand_kernel | shadow | edges | sharpen | unsharp_mask | invert
| sobel_x | sobel_y.

(** The value of an enum member: a matrix of Python ints, or (for [rand])
    of floats. *)
Inductive kernel_value : Type :=
| IntKernel (m : list (list Z))
| FloatKernel (m : list (list Qc)).

Section Kernels.
Context {E : Env}.

  (** [np.random.normal(.5, .5, (5, 5)).tolist()], drawn once. *)
Definition rand_matrix : list (list Qc) :=
    tabulate 5 5 (fun i j => (Num.half + Num.half * np_normal (5 * i + j))%Qc).

Definition kernel_of (k : ConvKernel) : kernel_value :=
    match k with
    | emboss => IntKernel [[0; 2; 4]; [-2; 1; 2]; [-4; -2; 0]]%Z
    | rand_kernel => FloatKernel rand_matrix
    | shadow => IntKernel [[0; 1; 1; 1; 0];
                           [-1; -2; 4; 2; 1];
                           [-1; -4; 2; 4; 1];
                           [-1; -2; -4; 2; 1];
                           [0; -1; -1; -1; 0]]%Z
    | edges => IntKernel [[1; 2; 1]; [2; -12; 2]; [1; 2; 1]]%Z
    | sharpen => IntKernel [[0; -1; 0]; [-1; 5; -1]; [0; -1; 0]]%Z
    | unsharp_mask => IntKernel [[1; 4; 6; 4; 1];
                                 [4; 16; 24; 16; 4];
                                 [6; 24; -476; 24; 6];
                                 [4; 16; 24; 16; 4];
                                 [1; 4; 6; 4; 1]]%Z
    | invert => IntKernel [[0; 0; 0]; [0; -1; 0]; [0; 0; 0]]%Z
    | sobel_x => IntKernel [[1; 0; -1]; [2; 0; -2]; [1; 0; -1]]%Z
    | sobel_y => IntKernel [[1; 2; 1]; [0; 0; 0]; [-1; -2; -1]]%Z
    end.
End Kernels.

Definition kernel_eqb (a b : ConvKernel) : bool :=
  match a, b with
  | emboss, emboss | rand_kernel, rand_kernel | shadow, shadow
  | edges, edges | sharpen, sharpen | unsharp_mask, unsharp_mask
  | invert, invert | sobel_x, sobel_x | sobel_y, sobel_y => true
  | _, _ => false
  end.

(** [len(kernel)] *)
Definition kernel_len (k : kernel_value) : nat :=
  match k with
  | IntKernel m => length m
  | FloatKernel m => length m
  end.

(** The weights as [float32].  [tf.image.convert_image_dtype] scales an
    integer tensor by the reciprocal of the largest value of its type
    ([int64] for an array NumPy builds from Python ints) and leaves a float
    tensor as it is. *)
Definition int64_max : Z := (2 ^ 63 - 1)%Z.

Definition kernel_weights (k : kernel_value) : list (list Qc) :=
  match k with
  | IntKernel m => map_grid (fun z => (Num.ofZ z / Num.ofZ int64_max)%Qc) m
  | FloatKernel m => m
  end.

(** [_conform_kernel_to_tensor] (effects.py, 163-176): every weight is
    repeated [channels] times and the result reshaped to
    [l, l, channels, 1].  [np.repeat] refuses a negative count. *)
Definition conform_kernel_to_tensor (k : kernel_value) (shape : shape3)
  : result (list (list (list Qc))) :=
  let '(_, _, channels) := shape in
  if (channels <? 0)%Z then Raise ValueError
  else Ok (map_grid (fun v => repeat v (Z.to_nat channels)) (kernel_weights k)).

(** Sample [c] of the pixel at [(y, x)]. *)
Definition sample (t : tensor) (y x c : nat) : Qc :=
  nth c (nth x (nth y t []) []) 0%Qc.

Definition sumq (l : list Qc) : Qc := fold_left Qcplus l 0%Qc.

(** [tf.nn.depthwise_conv2d([t], filter, [1,1,1,1], "VALID")[0]]: each
    channel is correlated with its own [l x l] filter, with no padding, so
    the output loses [l - 1] rows and columns.  An input smaller than the
    filter, or with another number of channels, is refused. *)
Definition depthwise_conv2d_valid (t : tensor) (filter : list (list (list Qc)))
  : result tensor :=
  let '(h, w, c) := dims t in
  let l := length filter in
  let fc := length (hd [] (hd [] filter)) in
  if negb (Nat.eqb c fc) then Raise InvalidArgumentError
  else if (Nat.ltb h l || Nat.ltb w l)%bool then Raise InvalidArgumentError
  else
    Ok (tabulate (h - l + 1) (w - l + 1) (fun y x =>
          map (fun ch =>
                 sumq (concat (tabulate l l (fun dy dx =>
                   (sample t (y + dy) (x + dx) ch
                    * nth ch (nth dx (nth dy filter []) []) 0)%Qc))))
              (seq 0 c))).

(** [convolve] (effects.py, 179-205). *)
Definition convolve {E : Env} (kernel : ConvKernel) (t : tensor) (shape : shape3)
  : result tensor :=
  let '(height, width, channels) := shape in
  rbind (conform_kernel_to_tensor (kernel_of kernel) shape) (fun kernel_values =>
  let half_height := half_of height in
  let half_width := half_of width in
  let t := tile33 t in
  let t := slice2 half_height (height * 2 + half_height)
                  half_width (width * 2 + half_width) t in
  rbind (depthwise_conv2d_valid t kernel_values) (fun t =>
  let t := slice2 half_height (height + half_height)
                  half_width (width + half_width) t in
  let t := normalize t in
  if kernel_eqb kernel edges
  then Ok (tmap (fun v => (Num.abs (v - Num.half) * Num.two)%Qc) t)
  else Ok t)).

(** [resample] (effects.py, 219-249); [shape] holds the spatial extents. *)
Definition resample {E : Env} (t : tensor) (shape : Z * Z) (spline_order : Z)
  : result tensor :=
  let resize_method :=
    if (spline_order =? 0)%Z then NEAREST_NEIGHBOR
    else if (spline_order =? 1)%Z then BILINEAR
    else BICUBIC in
  let '(input_height, input_width, _) := dims t in
  let input_height := Z.of_nat input_height in
  let input_width := Z.of_nat input_width in
  let half_input_height := half_of input_height in
  let half_input_width := half_of input_width in
  let '(height, width) := shape in
  let half_height := half_of height in
  let half_width := half_of width in
  let t := tile33 t in
  let t := slice2 half_input_height (input_height * 2 + half_input_height)
                  half_input_width (input_width * 2 + half_input_width) t in
  rbind (resize_images resize_method t (height * 2) (width * 2)) (fun t =>
  let t := slice2 half_height (height + half_height)
                  half_width (width + half_width) t in
  Ok (convert_image_dtype_float32 t)).

(** [value_map] (effects.py, 517-523), without and with [keep_dims]. *)
Definition value_map (t : tensor) (shape : shape3) : field :=
  normalize (reduce_sum_channels t).

Definition value_map_keep (t : tensor) (shape : shape3) : tensor :=
  normalize (reduce_sum_channels_keep t).

(** ** Index grids *)

(** [tf.ones(n, dtype=tf.int32)] *)
Definition ones (n : Z) : result (list Z) :=
  if (n <? 0)%Z then Raise ValueError else Ok (repeat 1%Z (Z.to_nat n)).

(** [tf.cumsum(l, exclusive=True)] *)
Fixpoint cumsum_from (acc : Z) (l : list Z) : list Z :=
  match l with
  | [] => []
  | a :: l' => acc :: cumsum_from (acc + a)%Z l'
  end.

Definition cumsum_exclusive (l : list Z) : list Z := cumsum_from 0%Z l.

(** [tf.cumsum(rows, exclusive=True)] of a matrix, along axis 0. *)
Fixpoint cumsum_rows_from (acc : list Z) (rows : list (list Z))
  : list (list Z) :=
  match rows with
  | [] => []
  | r :: rows' => acc :: cumsum_rows_from (map2 Z.add acc r) rows'
  end.

Definition cumsum_rows_exclusive (rows : list (list Z)) : list (list Z) :=
  cumsum_rows_from (map (fun _ => 0%Z) (hd [] rows)) rows.

(** [tf.tile(l, [n])] *)
Definition tile1 {A} (l : list A) (n : Z) : result (list A) :=
  if (n <? 0)%Z then Raise ValueError else Ok (tile_axis (Z.to_nat n) l).

Fixpoint chunks {A} (rows w : nat) (l : list A) : list (list A) :=
  match rows with
  | O => []
  | S rows' => firstn w l :: chunks rows' w (skipn w l)
  end.

(** [tf.reshape(l, [h, w])] of a vector. *)
Definition reshape2 {A} (l : list A) (h w : Z) : result (list (list A)) :=
  if ((h <? 0) || (w <? 0))%Z%bool then Raise ValueError
  else if negb (Z.of_nat (length l) =? h * w)%Z then Raise ValueError
  else Ok (chunks (Z.to_nat h) (Z.to_nat w) l).

(** [row_index] (effects.py, 558-580): the X index of every cell. *)
Definition row_index (shape : shape3) : result (list (list Z)) :=
  let '(height, width, channels) := shape in
  rbind (ones width) (fun o =>
  let row_identity := cumsum_exclusive o in
  rbind (tile1 row_identity height) (fun tiled =>
  reshape2 tiled height width)).

(** [column_index] (effects.py, 583-609): the Y index of every cell. *)
Definition column_index (shape : shape3) : result (list (list Z)) :=
  let '(height, width, channels) := shape in
  rbind (ones width) (fun column_identity =>
  rbind (tile1 column_identity height) (fun column_identity =>
  rbind (reshape2 column_identity height width) (fun column_identity =>
  Ok (cumsum_rows_exclusive column_identity)))).

(** [tf.cast(x, tf.int32)] of a float. *)
Definition cast_int32 (q : Qc) : Z := wrap32 (Num.trunc q).

(** [grid + k] on [int32]. *)
Definition add_int32 (k : Z) (g : list (list Z)) : list (list Z) :=
  map_grid (fun z => wrap32 (z + k)) g.

Local Open Scope eff_scope.

Section Displacement.
Context {E : Env}.

  (** [offset_index] (effects.py, 612-630).  The Y offset is drawn and
      applied before the X offset is drawn. *)
Definition offset_index (y_index : list (list Z)) (height : Z)
             (x_index : list (list Z)) (width : Z)
    : M (list (list (Z * Z))) :=
    r1 <- random_random ;;
    let dy := Num.trunc (Num.ofZ height * Num.half
                         + r1 * Num.ofZ height * Num.half)%Qc in
    ys <- lift (int_mod_grid (add_int32 dy y_index) height) ;;
    r2 <- random_random ;;
    let dx := Num.trunc (r2 * Num.ofZ width * Num.half)%Qc in
    xs <- lift (int_mod_grid (add_int32 dx x_index) width) ;;
    lift (stack2 ys xs).

  (** [reindex] (effects.py, 286-310). *)
Definition reindex (t : tensor) (shape : shape3) (displacement : Qc)
    : result tensor :=
    let '(height, width, channels) := shape in
    let reference := value_map t shape in
    let md := Num.ofZ (Z.min height width) in
    let offset :=
      map_grid (fun r => cast_int32 (Num.fmod (r * displacement * md + r) md)%Qc)
               reference in
    rbind (stack2 offset offset) (fun index => gather_nd t index).

  (** [refract] (effects.py, 313-338). *)
Definition refract (t : tensor) (shape : shape3) (displacement : Qc)
    : M tensor :=
    let '(height, width, channels) := shape in
    let reference_x := scale displacement (value_map t shape) in
    x_index <- lift (row_index shape) ;;
    y_index <- lift (column_index shape) ;;
    index_y <- offset_index y_index height x_index width ;;
    reference_y <- lift (gather_nd reference_x index_y) ;;
    ys <- lift (zip_with2 (fun y r => wrap32 (y + cast_int32 (r * Num.ofZ height)%Qc))
                          y_index reference_y) ;;
    xs <- lift (zip_with2 (fun x r => wrap32 (x + cast_int32 (r * Num.ofZ width)%Qc))
                          x_index reference_x) ;;
    index <- offset_index ys height xs width ;;
    lift (gather_nd t index).

  (** The colour lookup table handed to [color_map]: a file name or an
      image tensor. *)
Inductive clut_arg : Type :=
  | ClutFile (name : string)
  | ClutTensor (t : tensor).

  (** [name.endswith(suffix)] *)
Definition endswith (name suffix : string) : bool :=
    let n := String.length name in
    let k := String.length suffix in
    (Nat.leb k n && String.eqb (String.substring (n - k) k name) suffix)%bool.

  (** The first lines of [color_map] (effects.py, 359-365): a file name
      is opened and decoded by its extension; with another extension the
      name itself goes on and [resample] refuses it. *)
Definition load_clut (clut : clut_arg) : result tensor :=
    match clut with
    | ClutTensor t => Ok t
    | ClutFile name =>
        if negb (file_opens name) then Raise IOError
        else if endswith name ".png" then decode_png name
        else if endswith name ".jpg" then decode_jpeg name
        else Raise ValueError
    end.

  (** [color_map] (effects.py, 341-386). *)
Definition color_map (t : tensor) (clut : clut_arg) (shape : shape3)
             (horizontal : bool) (displacement : Qc) : result tensor :=
    clut <~ load_clut clut ;;
    let '(height, width, channels) := shape in
    let reference := scale displacement (value_map t shape) in
    rows <~ row_index shape ;;
    xs <~ zip_with2 (fun x r => wrap32 (x + cast_int32 (r * Num.ofZ (width - 1))%Qc))
                    rows reference ;;
    x_index <~ int_mod_grid xs width ;;
    y_index <~ (if horizontal then column_index shape
                else
                  cols <~ column_index shape ;;
                  ys <~ zip_with2
                          (fun y r => wrap32 (y + cast_int32 (r * Num.ofZ (height - 1))%Qc))
                          cols reference ;;
                  int_mod_grid ys height) ;;
    index <~ stack2 y_index x_index ;;
    clut <~ resample clut (height, width) 3 ;;
    output <~ gather_nd clut index ;;
    Ok (convert_image_dtype_float32 output).
End Displacement.

(** ** Worms *)

Inductive WormBehavior : Type := obedient | crosshatch | unruly | chaotic.

(** What a caller may pass as [behavior]: a Python int, an enum member, or
    any other object ([None], a string, a float). *)
Inductive behavior_arg : Type :=
| BehaviorInt (z : Z)
| BehaviorEnum (b : WormBehavior)
| BehaviorOther.

(** [WormBehavior(z)]: lookup of an enum member by value. *)
Definition WormBehavior_of_int (z : Z) : result WormBehavior :=
  if (z =? 0)%Z then Ok obedient
  else if (z =? 1)%Z then Ok crosshatch
  else if (z =? 2)%Z then Ok unruly
  else if (z =? 3)%Z then Ok chaotic
  else Raise ValueError.

Fixpoint zip_with3 {A B C} (f : A -> B -> C)
         (l : list (list (list A))) (m : list (list (list B)))
  : result (list (list (list C))) :=
  match l, m with
  | [], [] => Ok []
  | a :: l', b :: m' =>
      rbind (zip_with2 f a b) (fun r =>
      rbind (zip_with3 f l' m') (fun rs => Ok (r :: rs)))
  | _, _ => Raise InvalidArgumentError
  end.

(** [tf.zeros([n])] *)
Definition tf_zeros (n : Z) : result (list Qc) :=
  if (n <? 0)%Z then Raise ValueError else Ok (repeat 0%Qc (Z.to_nat n)).

(** [range(n)] *)
Definition range (n : Z) : list Z := map Z.of_nat (seq 0 (Z.to_nat n)).

(** A loop body run over a list, threading its state; the first exception
    ends the loop. *)
Fixpoint for_each {A S} (l : list A) (body : A -> S -> result S) (s : S)
  : result S :=
  match l with
  | [] => Ok s
  | a :: l' => rbind (body a s) (for_each l' body)
  end.

Section Worms.
Context {E : Env}.

  (** Lines 419-432 of [worms]: the heading bias of every agent. *)
Definition worms_rot (behavior : behavior_arg) (count : Z) : M (list Qc) :=
    behavior <- lift (match behavior with
                      | BehaviorInt z =>
                          rbind (WormBehavior_of_int z) (fun b => Ok (BehaviorEnum b))
                      | other => Ok other
                      end) ;;
    match behavior with
    | BehaviorEnum obedient =>
        lift (tf_zeros count)
    | BehaviorEnum crosshatch =>
        r <- random_normal count 0%Qc 1%Qc ;;
        ret (map (fun v => (Num.fmod (Num.ofZ (Num.floor (v * Num.ofZ 100)))
                                     Num.two * Num.ofZ 90)%Qc) r)
    | BehaviorEnum chaotic =>
        r <- random_normal count 0%Qc 1%Qc ;;
        ret (map (fun v => (v * Num.ofZ 360)%Qc) r)
    | _ => random_normal count 0%Qc 1%Qc
    end.

  (** [int(math.sqrt(min(width, height)) * duration)]; [math.sqrt]
      refuses a negative argument. *)
Definition worm_iterations (shape : shape3) (duration : Qc) : result Z :=
    let '(height, width, channels) := shape in
    let m := Z.min width height in
    if (m <? 0)%Z then Raise ValueError
    else Ok (Num.trunc (round64 (sqrtf (Num.ofZ m) * duration)%Qc)).

  (** [1 - abs(1 - i / (iterations - 1) * 2)], with Python's true
      division. *)
Definition exposure (i iterations : Z) : result Qc :=
    if (iterations - 1 =? 0)%Z then Raise ZeroDivisionError
    else Ok (1 - Num.abs (1 - Num.ofZ i / Num.ofZ (iterations - 1) * Num.two))%Qc.

  (** [tf.cast(tf.stack([ys, xs], 1), tf.int32)] *)
Definition worm_positions (ys xs : list Qc) : list (Z * Z) :=
    map2 (fun y x => (cast_int32 y, cast_int32 x)) ys xs.

Record worm_state : Type := {
    ws_out : tensor;
    ws_y : list Qc;
    ws_x : list Qc
  }.

  (** One turn of the loop of [worms] (effects.py, 443-453). *)
Definition worms_step (height width iterations : Z)
             (colors : list pixel) (index : field) (rot stride : list Qc)
             (scatter_shape : nat * nat * nat) (i : Z) (s : worm_state)
    : result worm_state :=
    let positions := worm_positions (ws_y s) (ws_x s) in
    e <~ exposure i iterations ;;
    sc <~ scatter_nd positions (map (scale e) colors) scatter_shape ;;
    out <~ zip_with3 Qcplus (ws_out s) sc ;;
    g <~ gather_list index positions ;;
    let next_position := map2 Qcplus g rot in
    Ok {| ws_out := out;
          ws_y := map2 (fun y d => Num.fmod (y + d) (Num.ofZ height))%Qc (ws_y s)
                       (map2 Qcmult (map cosf next_position) stride);
          ws_x := map2 (fun x d => Num.fmod (x + d) (Num.ofZ width))%Qc (ws_x s)
                       (map2 Qcmult (map sinf next_position) stride) |}.

  (** [worms] (effects.py, 389-457). *)
Definition worms (t : tensor) (shape : shape3) (behavior : behavior_arg)
             (density duration stride stride_deviation bg : Qc) : M tensor :=
    let '(height, width, channels) := shape in
    let count := Num.trunc (round64 (Num.ofZ (Z.max width height) * density)%Qc) in
    u_y <- random_uniform count ;;
    let worms_y := map (fun v => (v * Num.ofZ height)%Qc) u_y in
    u_x <- random_uniform count ;;
    let worms_x := map (fun v => (v * Num.ofZ width)%Qc) u_x in
    worms_stride <- random_normal count stride stride_deviation ;;
    colors <- lift (gather_list t (worm_positions worms_y worms_x)) ;;
    rot <- worms_rot behavior count ;;
    let index := scale radians1 (scale (Num.ofZ 360) (value_map t shape)) in
    iterations <- lift (worm_iterations shape duration) ;;
    let out := scale bg t in
    let scatter_shape := dims t in
    s <- lift (for_each (range iterations)
                        (worms_step height width iterations colors index rot
                                    worms_stride scatter_shape)
                        {| ws_out := out; ws_y := worms_y; ws_x := worms_x |}) ;;
    let out := convert_image_dtype_float32 (ws_out s) in
    ret (normalize out).
End Worms.

(** ** Derived features *)

(** [np.gradient] along one axis of at least two entries: one-sided
    differences at both ends, central differences between. *)
Definition gradient_axis {A} (sub : A -> A -> A) (halve : A -> A) (d : A)
           (l : list A) : result (list A) :=
  let n := length l in
  if Nat.ltb n 2 then Raise ValueError
  else Ok (map (fun i =>
                  if Nat.eqb i 0 then sub (nth 1 l d) (nth 0 l d)
                  else if Nat.eqb i (n - 1)
                       then sub (nth (n - 1) l d) (nth (n - 2) l d)
                       else halve (sub (nth (i + 1) l d) (nth (i - 1) l d)))
               (seq 0 n)).

Definition psub (p q : pixel) : pixel := map2 Qcminus p q.
Definition phalve (p : pixel) : pixel := map (fun v => (v / Num.two)%Qc) p.

Section Features.
Context {E : Env}.

  (** [tf.sqrt(a * a + b * b)] on two tensors of one shape. *)
Definition magnitude (a b : tensor) : result tensor :=
    zip_with3 (fun u v => sqrtf (u * u + v * v)%Qc) a b.

  (** [derivative] (effects.py, 268-283). *)
Definition derivative (t : tensor) : result tensor :=
    y <~ gradient_axis (map2 psub) (map phalve) [] t ;;
    x <~ rmapM (gradient_axis psub phalve []) t ;;
    m <~ magnitude y x ;;
    Ok (normalize m).

  (** [sobel] (effects.py, 481-493). *)
Definition sobel (t : tensor) (shape : shape3) : result tensor :=
    x <~ convolve sobel_x t shape ;;
    y <~ convolve sobel_y t shape ;;
    m <~ magnitude x y ;;
    Ok (tmap (fun v => Num.abs (v * Num.two - 1)%Qc) (normalize m)).

  (** [t[:, :, 0]] *)
Definition channel0 (t : tensor) : result field :=
    rmapM (rmapM (fun p : pixel => nth_result p 0%Z)) t.

  (** [normal_map] (effects.py, 496-514). *)
Definition normal_map (t : tensor) (shape : shape3) : result tensor :=
    let '(height, width, channels) := shape in
    let reference := value_map_keep t shape in
    cx <~ convolve sobel_x reference (height, width, 1%Z) ;;
    let x := normalize (tmap (fun v => (1 - v)%Qc) cx) in
    cy <~ convolve sobel_y reference (height, width, 1%Z) ;;
    let y := normalize cy in
    m <~ magnitude x y ;;
    let z := tmap (fun v => (1 - Num.abs (v * Num.two - 1) * Num.half + Num.half)%Qc)
                  (normalize m) in
    x0 <~ channel0 x ;;
    y0 <~ channel0 y ;;
    z0 <~ channel0 z ;;
    xy <~ zip_with2 (fun a b => [a; b]) x0 y0 ;;
    zip_with2 (fun ab c => ab ++ [c]) xy z0.
End Features.

(** ** The pipeline *)

Record options : Type := {
  refract_range : Qc;
  reindex_range : Qc;
  clut : option string;
  clut_horizontal : bool;
  clut_range : Qc;
  with_worms : bool;
  worm_behavior : behavior_arg;
  worm_density : Qc;
  worm_duration : Qc;
  worm_stride : Qc;
  worm_stride_deviation : Qc;
  worm_bg : Qc;
  with_sobel : bool;
  with_normal_map : bool;
  deriv : bool
}.


(** Python's truth value of [clut]: [None] and the empty string are false. *)
Definition clut_given (c : option string) : option string :=
  match c with
  | Some EmptyString => None
  | other => other
  end.

Section Pipeline.
Context {E : Env}.

  (** [post_process] (effects.py, 10-61). *)
Definition post_process (t : tensor) (shape : shape3) (o : options) : M tensor :=
    t <- (if negb (Num.eqb (refract_range o) 0%Qc)
          then refract t shape (refract_range o) else ret t) ;;
    t <- (if negb (Num.eqb (reindex_range o) 0%Qc)
          then lift (reindex t shape (reindex_range o)) else ret t) ;;
    t <- (match clut_given (clut o) with
          | Some name =>
              lift (color_map t (ClutFile name) shape (clut_horizontal o)
                              (clut_range o))
          | None => ret (normalize t)
          end) ;;
    t <- (if with_worms o
          then worms t shape (worm_behavior o) (worm_density o) (worm_duration o)
                     (worm_stride o) (worm_stride_deviation o) (worm_bg o)
          else ret t) ;;
    t <- (if deriv o then lift (derivative t) else ret t) ;;
    t <- (if with_sobel o then lift (sobel t shape) else ret t) ;;
    t <- (if with_normal_map o then lift (normal_map t shape) else ret t) ;;
    ret t.
End Pipeline.

(* ================================================================== *)
(** * points.py *)
(* ================================================================== *)

Module PointDistribution.
Inductive t : Type :=
  | random | square | waffle | chess | h_hex | v_hex | spiral | circular
  | concentric.

Definition eqb (a b : t) : bool :=
    match a, b with
    | random, random | square, square | waffle, waffle | chess, chess
    | h_hex, h_hex | v_hex, v_hex | spiral, spiral | circular, circular
    | concentric, concentric => true
    | _, _ => false
    end.

  (** [PointDistribution(z)] *)
Definition of_int (z : Z) : result t :=
    if (z =? 0)%Z then Ok random
    else if (z =? 1)%Z then Ok square
    else if (z =? 2)%Z then Ok waffle
    else if (z =? 3)%Z then Ok chess
    else if (z =? 10)%Z then Ok h_hex
    else if (z =? 11)%Z then Ok v_hex
    else if (z =? 50)%Z then Ok spiral
    else if (z =? 100)%Z then Ok circular
    else if (z =? 101)%Z then Ok concentric
    else Raise ValueError.

  (** [PointDistribution[name]] *)
Definition of_name (name : string) : result t :=
    if String.eqb name "random" then Ok random
    else if String.eqb name "square" then Ok square
    else if String.eqb name "waffle" then Ok waffle
    else if String.eqb name "chess" then Ok chess
    else if String.eqb name "h_hex" then Ok h_hex
    else if String.eqb name "v_hex" then Ok v_hex
    else if String.eqb name "spiral" then Ok spiral
    else if String.eqb name "circular" then Ok circular
    else if String.eqb name "concentric" then Ok concentric
    else Raise KeyError.

  (** A value compared with the members: a member, or another object. *)
Definition is_grid (member : option t) : bool :=
    match member with
    | Some (square | waffle | chess | h_hex | v_hex) => true
    | _ => false
    end.

Definition is_circular (member : option t) : bool :=
    match member with
    | Some (circular | concentric) => true
    | _ => false
    end.

Definition equals (member : option t) (d : t) : bool :=
    match member with
    | Some m => eqb m d
    | None => false
    end.
End PointDistribution.

(** What a caller may pass as [distrib]. *)
Inductive distrib_arg : Type :=
| DistribInt (z : Z)
| DistribName (name : string)
| DistribEnum (d : PointDistribution.t)
| DistribOther.

(** Python's [a / b] and [a % b] on numbers. *)
Definition py_div (a b : Qc) : result Qc :=
  if Num.eqb b 0%Qc then Raise ZeroDivisionError else Ok (a / b)%Qc.

Definition py_mod (a b : Qc) : result Qc :=
  if Num.eqb b 0%Qc then Raise ZeroDivisionError else Ok (Num.fmod a b).

(** A loop body run over a list in [M]. *)
Fixpoint for_eachM {A S} (l : list A) (body : A -> S -> M S) (s : S) : M S :=
  match l with
  | [] => ret s
  | a :: l' => bind (body a s) (for_eachM l' body)
  end.

Definition points : Type := (list Qc * list Qc)%type.

Section PointFunctions.
Context {E : Env}.

  (** [rand] (points.py, 126-140). *)
Definition rand (freq : Z) (center_x center_y range_x range_y width height : Qc)
    : M points :=
    for_eachM (range (freq * freq))
      (fun _ (acc : points) =>
         r1 <- random_random ;;
         _x <- lift (py_mod (center_x + (r1 * (range_x * Num.two) - range_x))%Qc width) ;;
         r2 <- random_random ;;
         _y <- lift (py_mod (center_y + (r2 * (range_y * Num.two) - range_y))%Qc height) ;;
         ret (fst acc ++ [_x], snd acc ++ [_y]))
      ([], []).

  (** [square_grid] (points.py, 143-186). *)
Definition square_grid (freq : Z) (distrib : option PointDistribution.t)
             (center : bool)
             (center_x center_y range_x range_y width height : Qc)
    : result points :=
    drift_amount <~ py_div Num.half (Num.ofZ freq) ;;
    let drift :=
      if ((freq * freq) mod 2 =? 0)%Z
      then (if center then 0%Qc else drift_amount)
      else (if center then drift_amount else 0%Qc) in
    for_each (range freq)
      (fun a acc =>
         for_each (range freq)
           (fun b (acc : points) =>
              if (PointDistribution.equals distrib PointDistribution.waffle
                  && (b mod 2 =? 0)%Z && (a mod 2 =? 0)%Z)%bool
              then Ok acc
              else if (PointDistribution.equals distrib PointDistribution.chess
                       && (a mod 2 =? b mod 2)%Z)%bool
              then Ok acc
              else
                let x_drift :=
                  if PointDistribution.equals distrib PointDistribution.h_hex
                  then (if (b mod 2 =? 1)%Z then drift_amount else 0%Qc)
                  else 0%Qc in
                let y_drift :=
                  if PointDistribution.equals distrib PointDistribution.v_hex
                  then (if (a mod 2 =? 1)%Z then 0%Qc else drift_amount)
                  else 0%Qc in
                fa <~ py_div (Num.ofZ a) (Num.ofZ freq) ;;
                _x <~ py_mod (center_x + ((fa + drift + x_drift) * range_x * Num.two))%Qc
                             width ;;
                fb <~ py_div (Num.ofZ b) (Num.ofZ freq) ;;
                _y <~ py_mod (center_y + ((fb + drift + y_drift) * range_y * Num.two))%Qc
                             height ;;
                Ok (fst acc ++ [_x], snd acc ++ [_y]))
           acc)
      ([], []).

  (** [spiral] (points.py, 189-208). *)
Definition spiral (freq : Z) (center_x center_y range_x range_y width height : Qc)
    : M points :=
    r <- random_random ;;
    let kink := (r * Num.ofZ 100 - Num.ofZ 50)%Qc in
    let count := (freq * freq)%Z in
    lift (for_each (range count)
      (fun i (acc : points) =>
         fract <~ py_div (Num.ofZ i) (Num.ofZ count) ;;
         let degrees := (fract * Num.ofZ 360 * radians1 * kink)%Qc in
         _x <~ py_mod (center_x + sinf degrees * fract * range_x)%Qc width ;;
         _y <~ py_mod (center_y + cosf degrees * fract * range_y)%Qc height ;;
         Ok (fst acc ++ [_x], snd acc ++ [_y]))
      ([], [])).

  (** [range(1, n + 1)] *)
Definition range1 (n : Z) : list Z := map (fun i => (i + 1)%Z) (range n).

  (** [circular] (points.py, 211-241). *)
Definition circular (freq : Z) (distrib : option PointDistribution.t)
             (center_x center_y range_x range_y width height : Qc)
    : result points :=
    let ring_count := freq in
    let dot_count := freq in
    inv <~ py_div 1%Qc (Num.ofZ dot_count) ;;
    let rotation := (inv * Num.ofZ 360 * radians1)%Qc in
    for_each (range1 ring_count)
      (fun i acc =>
         dist_fract <~ py_div (Num.ofZ i) (Num.ofZ ring_count) ;;
         for_each (range1 dot_count)
           (fun j (acc : points) =>
              let rads := (Num.ofZ j * rotation)%Qc in
              let rads :=
                if PointDistribution.equals distrib PointDistribution.circular
                then (rads + rotation * Num.half * Num.ofZ i)%Qc
                else rads in
              let x_point := (center_x + sinf rads * dist_fract * range_x)%Qc in
              let y_point := (center_y + cosf rads * dist_fract * range_y)%Qc in
              mx <~ py_mod x_point width ;;
              my <~ py_mod y_point height ;;
              Ok (fst acc ++ [mx], snd acc ++ [my]))
           acc)
      ([center_x], [center_y]).
End PointFunctions.

(** ** The point cloud *)

(** An element of [active_set]: [(x, y, generation)]. *)
Definition triple : Type := (Qc * Qc * Z)%type.

Definition triple_eqb (a b : triple) : bool :=
  let '(ax, ay, ag) := a in
  let '(bx, by_, bg) := b in
  (Num.eqb ax bx && Num.eqb ay by_ && (ag =? bg)%Z)%bool.

(** An element of [seen]: the triple the set is seeded with, or a pair of
    pixel coordinates.  A tuple of three never equals a tuple of two. *)
Inductive seen_key : Type :=
| KeyTriple (p : triple)
| KeyPair (x y : Z).

Definition seen_key_eqb (a b : seen_key) : bool :=
  match a, b with
  | KeyTriple p, KeyTriple q => triple_eqb p q
  | KeyPair x y, KeyPair x' y' => ((x =? x') && (y =? y'))%Z%bool
  | _, _ => false
  end.

(** [s.add(a)] on a set kept as a list without repetition. *)
Definition set_add {A} (eqb : A -> A -> bool) (a : A) (s : list A) : list A :=
  if existsb (eqb a) s then s else s ++ [a].

Definition remove_nth {A} (i : nat) (l : list A) : list A :=
  firstn i l ++ skipn (S i) l.

Record cloud_state : Type := {
  cs_x : list Qc;
  cs_y : list Qc;
  cs_seen : list seen_key;
  cs_active : list triple
}.

(** The body of the inner loop of [point_cloud] (points.py, 105-121) for
    one produced point. *)
Definition cloud_add (shape_given : bool) (generation : Z)
           (st : cloud_state) (p : Qc * Qc) : cloud_state :=
  let '(x_point, y_point) := p in
  if shape_given then
    let xi := Num.trunc x_point in
    let yi := Num.trunc y_point in
    if existsb (seen_key_eqb (KeyPair xi yi)) (cs_seen st) then st
    else
      {| cs_x := cs_x st ++ [Num.ofZ xi];
         cs_y := cs_y st ++ [Num.ofZ yi];
         cs_seen := set_add seen_key_eqb (KeyPair xi yi) (cs_seen st);
         cs_active := set_add triple_eqb (Num.ofZ xi, Num.ofZ yi, generation + 1)%Z
                              (cs_active st) |}
  else
    {| cs_x := cs_x st ++ [x_point];
       cs_y := cs_y st ++ [y_point];
       cs_seen := cs_seen st;
       cs_active := set_add triple_eqb (x_point, y_point, generation + 1)%Z
                            (cs_active st) |}.

(** What a call of [point_cloud] comes to: it returns [None], it returns
    the two coordinate lists, or the loop budget of the model ran out. *)
Inductive cloud_result : Type :=
| OutOfFuel
| ReturnsNone
| Returns (xs ys : list Qc).

Section PointCloud.
Context {E : Env}.

  (** The [while active_set:] loop of [point_cloud] (points.py, 93-121);
      [fuel] bounds the number of turns. *)
Fixpoint cloud_loop (fuel : nat)
           (point_func : Qc -> Qc -> Qc -> Qc -> M points)
           (shape_given : bool) (range_x range_y : Qc) (generations : Z)
           (st : cloud_state) : M (option cloud_state) :=
    match cs_active st with
    | [] => ret (Some st)
    | first :: _ =>
        match fuel with
        | O => ret None
        | S fuel' =>
            let i := Nat.modulo (set_pop (cs_active st)) (length (cs_active st)) in
            let '(x_point, y_point, generation) := nth i (cs_active st) first in
            let st := {| cs_x := cs_x st; cs_y := cs_y st; cs_seen := cs_seen st;
                         cs_active := remove_nth i (cs_active st) |} in
            if (generation <=? generations)%Z then
              let multiplier := Z.max (2 * (generation - 1)) 1 in
              next <- point_func x_point y_point
                                 (range_x / Num.ofZ multiplier)%Qc
                                 (range_y / Num.ofZ multiplier)%Qc ;;
              let st := fold_left (cloud_add shape_given generation)
                                  (combine (fst next) (snd next)) st in
              cloud_loop fuel' point_func shape_given range_x range_y generations st
            else
              cloud_loop fuel' point_func shape_given range_x range_y generations st
        end
    end.

  (** [point_cloud] (points.py, 41-123). *)
Definition point_cloud (fuel : nat) (freq : Z) (distrib : distrib_arg)
             (shape : option (Z * Z)) (center : bool) (generations : Z)
    : M cloud_result :=
    if (freq =? 0)%Z then ret ReturnsNone
    else
      let '(width, height) :=
        match shape with
        | None => (1%Qc, 1%Qc)
        | Some (h, w) => (Num.ofZ w, Num.ofZ h)
        end in
      let range_x := (width * Num.half)%Qc in
      let range_y := (height * Num.half)%Qc in
      distrib <- lift (match distrib with
                       | DistribInt z =>
                           rbind (PointDistribution.of_int z) (fun d => Ok (Some d))
                       | DistribName name =>
                           rbind (PointDistribution.of_name name) (fun d => Ok (Some d))
                       | DistribEnum d => Ok (Some d)
                       | DistribOther => Ok None
                       end) ;;
      let point_func (center_x center_y rx ry : Qc) : M points :=
        if PointDistribution.is_grid distrib
        then lift (square_grid freq distrib center center_x center_y rx ry width height)
        else if PointDistribution.equals distrib PointDistribution.spiral
        then spiral freq center_x center_y rx ry width height
        else if PointDistribution.is_circular distrib
        then lift (circular freq distrib center_x center_y rx ry width height)
        else rand freq center_x center_y rx ry width height in
      let first : triple :=
        if PointDistribution.is_grid distrib then (0%Qc, 0%Qc, 1%Z)
        else (range_x, range_y, 1%Z) in
      let st := {| cs_x := []; cs_y := [];
                   cs_seen := [KeyTriple first];
                   cs_active := [first] |} in
      r <- cloud_loop fuel point_func
                      (match shape with Some _ => true | None => false end)
                      range_x range_y generations st ;;
      match r with
      | None => ret OutOfFuel
      | Some st => ret (Returns (cs_x st) (cs_y st))
      end.
End PointCloud.

(* ================================================================== *)
(** * Definitions used by the statements *)
(* ================================================================== *)

(** A grid that is not constant, used to illustrate [normalize]. *)
Definition sample_field : field :=
  [[0%Qc; Num.half]; [1%Qc; Q2Qc (1 # 4)]].

Definition row_shape (w c : nat) (row : list pixel) : Prop :=
  length row = w /\ Forall (fun px : pixel => length px = c) row.

(** The side of a kernel of the catalog. *)
Definition kernel_size {E : Env} (k : ConvKernel) : nat :=
  kernel_len (kernel_of k).

(** The extents of a result, when there is one. *)
Definition result_dims (r : result tensor) : option (nat * nat * nat) :=
  match r with
  | Ok t => Some (dims t)
  | Raise _ => None
  end.

(** A grid of [h x w] pixels of one channel whose samples count up row by
    row. *)
Definition ramp (h w : nat) : tensor :=
  tabulate h w (fun y x => [Num.ofZ (Z.of_nat (y * w + x))]).

(** What the effects need of [tf.image.resize_images]: from a grid that is
    not empty, and for positive extents, it yields a grid of the extents
    asked for, with the channels of its input. *)
Definition resize_total (E : Env) : Prop :=
  forall (m : ResizeMethod) (t : tensor) (ih iw c : nat) (H W : Z),
    has_shape t ih iw c -> 0 < ih -> 0 < iw -> (0 < H)%Z -> (0 < W)%Z ->
    exists r, resize_images m t H W = Ok r /\
              has_shape r (Z.to_nat H) (Z.to_nat W) c.

(** What the worm simulation needs of [tf.random_uniform]: samples in
    [0, 1). *)
Definition uniform_unit (E : Env) : Prop :=
  forall n : nat, (0 <= tf_uniform n)%Qc /\ (tf_uniform n < 1)%Qc.

(** ** An environment to run the code in *)

(** A square root that is exact on squares of rationals and rounded down
    on the numerator and denominator elsewhere. *)
Definition sqrt_floor (q : Qc) : Qc :=
  Q2Qc (Z.sqrt (Qnum q) # Z.to_pos (Z.sqrt (Zpos (Qden q)))).

(** Nearest-neighbour resizing: output cell [(y, x)] reads input cell
    [(y * ih / H, x * iw / W)]. *)
Definition resize_nearest (t : tensor) (H W : Z) : result tensor :=
  let '(ih, iw, _) := dims t in
  if ((H <=? 0) || (W <=? 0))%Z%bool then Raise InvalidArgumentError
  else if (Nat.eqb ih 0 || Nat.eqb iw 0)%bool then Raise InvalidArgumentError
  else Ok (tabulate (Z.to_nat H) (Z.to_nat W) (fun y x =>
             nth (Nat.min (x * iw / Z.to_nat W) (iw - 1))
                 (nth (Nat.min (y * ih / Z.to_nat H) (ih - 1)) t []) [])).

(** Stand-ins: square roots by [sqrt_floor], products of Python floats
    left unrounded, the trigonometric functions by the first terms of their
    series, pi by 355/113, every method of resizing by the nearest
    neighbour, uniform samples [1/2, 1/3, 1/4, ...], normal samples
    [0, 1, -1, 2, -2, ...] scaled by [1/2], no file to open, and
    [set.pop()] taking the oldest element. *)
Definition demo_env : Env := {|
  sqrtf := sqrt_floor;
  round64 := fun q => q;
  cosf := fun x => (1 - x * x * Num.half)%Qc;
  sinf := fun x => x;
  radians1 := Q2Qc (355 # (113 * 180));
  py_random := fun n => Q2Qc (1 # Pos.of_succ_nat (S n));
  tf_uniform := fun n => Q2Qc (1 # Pos.of_succ_nat (S n));
  tf_normal := fun n =>
    (Num.ofZ (if Nat.even n then - Z.of_nat (n / 2) else Z.of_nat (S n / 2))
     * Num.half)%Qc;
  np_normal := fun n =>
    (Num.ofZ (if Nat.even n then - Z.of_nat (n / 2) else Z.of_nat (S n / 2))
     * Num.half)%Qc;
  file_opens := fun _ => false;
  decode_png := fun _ => Raise IOError;
  decode_jpeg := fun _ => Raise IOError;
  resize_images := fun _ => resize_nearest;
  set_pop := fun _ => 0
|}.

(** ** The offsets [offset_index] draws *)

Section Offsets.
Context {E : Env}.

(** [int(height * .5 + random.random() * height * .5)] for the draw the
    state [s] is at. *)
Definition offset_dy (height : Z) (s : rng) : Z :=
  Num.trunc (Num.ofZ height * Num.half
             + py_random (py_i s) * Num.ofZ height * Num.half)%Qc.

(** [int(random.random() * width * .5)] for the draw after that. *)
Definition offset_dx (width : Z) (s : rng) : Z :=
  Num.trunc (py_random (S (py_i s)) * Num.ofZ width * Num.half)%Qc.

End Offsets.

(** The generator state after [n] calls of [random.random()]. *)
Definition after_random (n : nat) (s : rng) : rng :=
  {| py_i := n + py_i s; uni_i := uni_i s; nrm_i := nrm_i s |}.

(** A cell index within a grid of [height x width] cells. *)
Definition in_grid (height width : Z) (p : Z * Z) : Prop :=
  (0 <= fst p < height)%Z /\ (0 <= snd p < width)%Z.

(** ** What [refract] reads *)

(** The cell of a grid at an index pair. *)
Definition cell_at {A} (d : A) (g : list (list A)) (p : Z * Z) : A :=
  nth (Z.to_nat (snd p)) (nth (Z.to_nat (fst p)) g []) d.

Section RefractCells.
Context {E : Env}.

(** The warp field of [refract]: [value_map(tensor) * displacement]. *)
Definition refract_reference (t : tensor) (shape : shape3) (displacement : Qc)
  : field :=
  scale displacement (value_map t shape).

(** The cell [refract] copies to [(y, x)]: the first call of
    [offset_index] decorrelates the Y warp from the X warp, the second
    shifts the warped indices. *)
Definition refract_source (t : tensor) (shape : shape3) (displacement : Qc)
           (s : rng) (y x : nat) : Z * Z :=
  let '(height, width, _) := shape in
  let reference_x := refract_reference t shape displacement in
  let rx := cell_at 0%Qc reference_x (Z.of_nat y, Z.of_nat x) in
  let ry := cell_at 0%Qc reference_x
              ((wrap32 (Z.of_nat y + offset_dy height s) mod height)%Z,
               (wrap32 (Z.of_nat x + offset_dx width s) mod width)%Z) in
  let s2 := after_random 2 s in
  ((wrap32 (wrap32 (Z.of_nat y + cast_int32 (ry * Num.ofZ height)%Qc)
            + offset_dy height s2) mod height)%Z,
   (wrap32 (wrap32 (Z.of_nat x + cast_int32 (rx * Num.ofZ width)%Qc)
            + offset_dx width s2) mod width)%Z).

End RefractCells.




(** A [2x2] grid of one channel, brightest at [(0, 1)]. *)
Definition sample_grid : tensor :=
  [[[0%Qc]; [1%Qc]]; [[Num.half]; [Q2Qc (1 # 4)]]].


(** ** What the worm simulation keeps true *)

(** [n] agents, every one of them at a position within the grid. *)
Definition agents_in (height width : Z) (n : nat) (ys xs : list Qc) : Prop :=
  length ys = n /\ length xs = n /\
  Forall (fun y => (0 <= y)%Qc /\ (y < Num.ofZ height)%Qc) ys /\
  Forall (fun x => (0 <= x)%Qc /\ (x < Num.ofZ width)%Qc) xs.

(** A [behavior] that [worms] accepts: anything but an integer that is
    the value of no member. *)
Definition known_behavior (b : behavior_arg) : Prop :=
  match b with
  | BehaviorInt z => (0 <= z <= 3)%Z
  | _ => True
  end.

Section WormCounts.
Context {E : Env}.

(** [int(max(width, height) * density)] *)
Definition worm_count (shape : shape3) (density : Qc) : Z :=
  let '(height, width, _) := shape in
  Num.trunc (round64 (Num.ofZ (Z.max width height) * density)%Qc).

(** [int(math.sqrt(min(width, height)) * duration)] *)
Definition iteration_count (shape : shape3) (duration : Qc) : Z :=
  let '(height, width, _) := shape in
  Num.trunc (round64 (sqrtf (Num.ofZ (Z.min width height)) * duration)%Qc).

End WormCounts.

(** What holds of the loop state of [worms] before and after every turn,
    for a grid of shape [h, w, c] and [n] agents. *)
Definition worm_invariant (h w c n : nat) (s : worm_state) : Prop :=
  has_shape (ws_out s) h w c /\
  agents_in (Z.of_nat h) (Z.of_nat w) n (ws_y s) (ws_x s).


(** ** Effects outside the pipeline *)

(** [crease] (effects.py, 252-265): [1 - abs(n * 2 - 1)] on every
    sample. *)
Definition crease {T} `{Tensorial T} (t : T) : T :=
  tmap (fun v => (1 - Num.abs (v * Num.two - 1))%Qc) t.

(** [blend] (effects.py, 545-555): [a * (1 - g) + b * g], on three tensors
    of one shape. *)
Definition blend (a b g : tensor) : result tensor :=
  rbind (zip_with3 Qcmult a (tmap (fun k => (1 - k)%Qc) g)) (fun ag =>
  rbind (zip_with3 Qcmult b g) (fun bg =>
  zip_with3 Qcplus ag bg)).

(** [wavelet] (effects.py, 460-478): the grid minus itself resampled to
    half its extents and back. *)
Definition wavelet {E : Env} (t : tensor) (shape : shape3) : result tensor :=
  let '(height, width, channels) := shape in
  rbind (resample t (Num.trunc (Num.ofZ height * Num.half)%Qc,
                     Num.trunc (Num.ofZ width * Num.half)%Qc) 3%Z) (fun small =>
  rbind (resample small (height, width) 3%Z) (fun back =>
  rbind (zip_with3 Qcminus t back) (fun d =>
  Ok (normalize d)))).

(** A sample within the unit interval. *)
Definition unit_sample (v : Qc) : Prop := (0 <= v)%Qc /\ (v <= 1)%Qc.




(** ** Rounded arithmetic

    The tensors of the source hold 32-bit floats: every subtraction and
    division of [normalize] is rounded.  [normalize_with rnd] is
    [normalize] with each operation followed by the rounding [rnd] of its
    exact result; [rounding] lists what the statements use of rounding to
    nearest.  Overflow and NaN stay outside (a rounded result is a
    rational). *)

Definition normalize_with {T} `{Tensorial T} (rnd : Qc -> Qc) (t : T) : T :=
  tmap (fun v => rnd (rnd (v - reduce_min t)
                      / rnd (reduce_max t - reduce_min t))%Qc) t.

(** [tensor + c], the sums rounded. *)
Definition shift_with {T} `{Tensorial T} (rnd : Qc -> Qc) (c : Qc) (t : T) : T :=
  tmap (fun v => rnd (v + c)%Qc) t.

Record rounding (rnd : Qc -> Qc) : Prop := {
  rnd_monotone : forall x y : Qc, (x <= y)%Qc -> (rnd x <= rnd y)%Qc;
  rnd_zero : rnd 0%Qc = 0%Qc;
  rnd_one : rnd 1%Qc = 1%Qc
}.

(** Rounding to the nearest multiple of [2^-k], halves upwards: a
    rounding to run the rounded definitions with. *)
Definition round_to_bits (k : N) (q : Qc) : Qc :=
  Q2Qc (Qfloor (q * inject_Z (2 ^ Z.of_N k) + (1 # 2)) # Z.to_pos (2 ^ Z.of_N k)).

(** ** [normalize] on 32-bit floats

    The same function on IEEE 754 binary32 values (24 bits of precision,
    exponents below 128), with the operations of the specification of
    floating-point arithmetic of the Standard Library: round to nearest,
    ties to even, with infinities and NaN. *)
Module F32.

Definition prec : Z := 24.
Definition emax : Z := 128.

(** The float nearest to [m * 2^e]. *)
Definition of_dyadic (m e : Z) : SpecFloat.spec_float :=
  SpecFloat.binary_normalize prec emax m e false.

Definition add := SpecFloat.SFadd prec emax.
Definition sub := SpecFloat.SFsub prec emax.
Definition div := SpecFloat.SFdiv prec emax.

(** [tf.reduce_min] and [tf.reduce_max] of the samples in row-major
    order (on samples none of which is NaN). *)
Definition reduce_min (l : list SpecFloat.spec_float) : SpecFloat.spec_float :=
  match l with
  | [] => SpecFloat.S754_infinity false
  | v :: vs => fold_left (fun a b => if SpecFloat.SFltb b a then b else a) vs v
  end.

Definition reduce_max (l : list SpecFloat.spec_float) : SpecFloat.spec_float :=
  match l with
  | [] => SpecFloat.S754_infinity true
  | v :: vs => fold_left (fun a b => if SpecFloat.SFltb a b then b else a) vs v
  end.

(** [normalize] (effects.py, 208-216) on a [height x width] grid. *)
Definition normalize (t : list (list SpecFloat.spec_float))
  : list (list SpecFloat.spec_float) :=
  let lo := reduce_min (concat t) in
  let hi := reduce_max (concat t) in
  map (map (fun v => div (sub v lo) (sub hi lo))) t.

(** [tensor + c] *)
Definition add_scalar (c : SpecFloat.spec_float)
           (t : list (list SpecFloat.spec_float))
  : list (list SpecFloat.spec_float) :=
  map (map (fun v => add v c)) t.

(** The grid [[0, 1/2], [1, 1/4]]. *)
Definition sample_field : list (list SpecFloat.spec_float) :=
  [[of_dyadic 0 0; of_dyadic 1 (-1)]; [of_dyadic 1 0; of_dyadic 1 (-2)]].

End F32.


(** ** The pipeline as the specification words it

    The specification describes [post_process] as a fixed sequence of
    stages, each applied or skipped by its own option.  [spec_stage_plan]
    is that sequence for a set of options and [spec_post_process] runs it;
    the two are compared with [post_process] below. *)

Inductive stage : Type :=
| StageRefract
| StageReindex
| StageColorMap (name : string)
| StageNormalize
| StageWorms
| StageDerivative
| StageSobel
| StageNormalMap.

(** The place of a stage in the fixed order: refract, reindex, color map
    or plain normalize, worms, derivative, sobel, normal map. *)
Definition stage_rank (st : stage) : nat :=
  match st with
  | StageRefract => 0
  | StageReindex => 1
  | StageColorMap _ => 2
  | StageNormalize => 2
  | StageWorms => 3
  | StageDerivative => 4
  | StageSobel => 5
  | StageNormalMap => 6
  end.

Definition spec_stage_plan (o : options) : list stage :=
  (if negb (Num.eqb (refract_range o) 0%Qc) then [StageRefract] else [])
  ++ (if negb (Num.eqb (reindex_range o) 0%Qc) then [StageReindex] else [])
  ++ [match clut_given (clut o) with
      | Some name => StageColorMap name
      | None => StageNormalize
      end]
  ++ (if with_worms o then [StageWorms] else [])
  ++ (if deriv o then [StageDerivative] else [])
  ++ (if with_sobel o then [StageSobel] else [])
  ++ (if with_normal_map o then [StageNormalMap] else []).

Section SpecPipeline.
Context {E : Env}.

Definition spec_run_stage (shape : shape3) (o : options) (st : stage)
           (t : tensor) : M tensor :=
  match st with
  | StageRefract => refract t shape (refract_range o)
  | StageReindex => lift (reindex t shape (reindex_range o))
  | StageColorMap name =>
      lift (color_map t (ClutFile name) shape (clut_horizontal o) (clut_range o))
  | StageNormalize => ret (normalize t)
  | StageWorms =>
      worms t shape (worm_behavior o) (worm_density o) (worm_duration o)
            (worm_stride o) (worm_stride_deviation o) (worm_bg o)
  | StageDerivative => lift (derivative t)
  | StageSobel => lift (sobel t shape)
  | StageNormalMap => lift (normal_map t shape)
  end.

(** The stages one after the other, each on the result of the one before;
    the first exception ends the run. *)
Fixpoint spec_run_stages (shape : shape3) (o : options) (l : list stage)
         (t : tensor) : M tensor :=
  match l with
  | [] => ret t
  | st :: l' => bind (spec_run_stage shape o st t) (spec_run_stages shape o l')
  end.

Definition spec_post_process (t : tensor) (shape : shape3) (o : options)
  : M tensor :=
  spec_run_stages shape o (spec_stage_plan o) t.
End SpecPipeline.

(* ================================================================== *)
(** * Properties *)
(* ================================================================== *)

(** ** Arithmetic on samples *)

Lemma leb_le (x y : Qc) : Num.leb x y = true <-> (x <= y)%Qc.
Proof. unfold Num.leb, Qcle. apply Qle_bool_iff. Qed.

Lemma leb_gt (x y : Qc) : Num.leb x y = false <-> (y < x)%Qc.
Proof.
  split; intro H.
  - apply Qcnot_le_lt. intro L. apply leb_le in L. congruence.
  - destruct (Num.leb x y) eqn:L; [|reflexivity].
    apply leb_le in L. exfalso. exact (Qclt_not_le _ _ H L).
Qed.

Lemma eqb_eq (x y : Qc) : Num.eqb x y = true <-> x = y.
Proof.
  unfold Num.eqb. rewrite Qeq_bool_iff. split; intro H.
  - now apply Qc_is_canon.
  - now subst.
Qed.

Lemma eqb_neq (x y : Qc) : Num.eqb x y = false <-> x <> y.
Proof.
  split; intro H.
  - intro Heq. apply eqb_eq in Heq. congruence.
  - destruct (Num.eqb x y) eqn:B; [|reflexivity]. apply eqb_eq in B. contradiction.
Qed.

Lemma min_le_l (x y : Qc) : (Num.min x y <= x)%Qc.
Proof.
  unfold Num.min. destruct (Num.leb x y) eqn:L.
  - apply Qcle_refl.
  - apply Qclt_le_weak. now apply leb_gt.
Qed.

Lemma min_le_r (x y : Qc) : (Num.min x y <= y)%Qc.
Proof.
  unfold Num.min. destruct (Num.leb x y) eqn:L.
  - now apply leb_le.
  - apply Qcle_refl.
Qed.

Lemma max_ge_l (x y : Qc) : (x <= Num.max x y)%Qc.
Proof.
  unfold Num.max. destruct (Num.leb x y) eqn:L.
  - now apply leb_le.
  - apply Qcle_refl.
Qed.

Lemma max_ge_r (x y : Qc) : (y <= Num.max x y)%Qc.
Proof.
  unfold Num.max. destruct (Num.leb x y) eqn:L.
  - apply Qcle_refl.
  - apply Qclt_le_weak. now apply leb_gt.
Qed.

Lemma leb_plus_r (x y c : Qc) : Num.leb (x + c) (y + c) = Num.leb x y.
Proof.
  destruct (Num.leb x y) eqn:L.
  - apply leb_le. apply leb_le in L.
    apply Qcplus_le_compat; [exact L | apply Qcle_refl].
  - apply leb_gt. apply leb_gt in L.
    apply Qclt_minus_iff. apply Qclt_minus_iff in L.
    replace (x + c + - (y + c))%Qc with (x + - y)%Qc by ring. exact L.
Qed.

Lemma min_plus_r (x y c : Qc) : Num.min (x + c) (y + c) = (Num.min x y + c)%Qc.
Proof. unfold Num.min. rewrite leb_plus_r. now destruct (Num.leb x y). Qed.

Lemma max_plus_r (x y c : Qc) : Num.max (x + c) (y + c) = (Num.max x y + c)%Qc.
Proof. unfold Num.max. rewrite leb_plus_r. now destruct (Num.leb x y). Qed.

(** ** Minimum and maximum of a tensor *)

Lemma fold_min_le (vs : list Qc) (v : Qc) :
  (fold_left Num.min vs v <= v)%Qc /\
  forall u, In u vs -> (fold_left Num.min vs v <= u)%Qc.
Proof.
  revert v. induction vs as [|a vs IH]; intro v; simpl.
  - split; [apply Qcle_refl | contradiction].
  - destruct (IH (Num.min v a)) as [H1 H2]. split.
    + eapply Qcle_trans; [exact H1 | apply min_le_l].
    + intros u [<-|Hu].
      * eapply Qcle_trans; [exact H1 | apply min_le_r].
      * now apply H2.
Qed.

Lemma fold_max_ge (vs : list Qc) (v : Qc) :
  (v <= fold_left Num.max vs v)%Qc /\
  forall u, In u vs -> (u <= fold_left Num.max vs v)%Qc.
Proof.
  revert v. induction vs as [|a vs IH]; intro v; simpl.
  - split; [apply Qcle_refl | contradiction].
  - destruct (IH (Num.max v a)) as [H1 H2]. split.
    + eapply Qcle_trans; [apply max_ge_l | exact H1].
    + intros u [<-|Hu].
      * eapply Qcle_trans; [apply max_ge_r | exact H1].
      * now apply H2.
Qed.

Lemma fold_min_shift (c : Qc) (vs : list Qc) (v : Qc) :
  fold_left Num.min (map (fun u => u + c)%Qc vs) (v + c)%Qc
  = (fold_left Num.min vs v + c)%Qc.
Proof.
  revert v. induction vs as [|a vs IH]; intro v; simpl; [reflexivity|].
  now rewrite min_plus_r, IH.
Qed.

Lemma fold_max_shift (c : Qc) (vs : list Qc) (v : Qc) :
  fold_left Num.max (map (fun u => u + c)%Qc vs) (v + c)%Qc
  = (fold_left Num.max vs v + c)%Qc.
Proof.
  revert v. induction vs as [|a vs IH]; intro v; simpl; [reflexivity|].
  now rewrite max_plus_r, IH.
Qed.

Section Reduce.
Context {T : Type} `{Tensorial T}.

Lemma reduce_min_le (t : T) (v : Qc) :
    In v (flat t) -> (reduce_min t <= v)%Qc.
  Proof.
    unfold reduce_min. destruct (flat t) as [|a vs]; [contradiction|].
    intros [<-|Hv]; [exact (proj1 (fold_min_le vs a)) | exact (proj2 (fold_min_le vs a) v Hv)].
  Qed.

Lemma reduce_max_ge (t : T) (v : Qc) :
    In v (flat t) -> (v <= reduce_max t)%Qc.
  Proof.
    unfold reduce_max. destruct (flat t) as [|a vs]; [contradiction|].
    intros [<-|Hv]; [exact (proj1 (fold_max_ge vs a)) | exact (proj2 (fold_max_ge vs a) v Hv)].
  Qed.

Lemma reduce_min_shift (t : T) (c : Qc) :
    flat t <> [] ->
    reduce_min (tmap (fun v => v + c)%Qc t) = (reduce_min t + c)%Qc.
  Proof.
    unfold reduce_min. rewrite flat_tmap.
    destruct (flat t) as [|a vs]; [congruence|]. intros _. simpl.
    apply fold_min_shift.
  Qed.

Lemma reduce_max_shift (t : T) (c : Qc) :
    flat t <> [] ->
    reduce_max (tmap (fun v => v + c)%Qc t) = (reduce_max t + c)%Qc.
  Proof.
    unfold reduce_max. rewrite flat_tmap.
    destruct (flat t) as [|a vs]; [congruence|]. intros _. simpl.
    apply fold_max_shift.
  Qed.

Lemma reduce_min_le_max (t : T) : (reduce_min t <= reduce_max t)%Qc.
  Proof.
    destruct (flat t) as [|a vs] eqn:F.
    - unfold reduce_min, reduce_max. rewrite F. apply Qcle_refl.
    - apply Qcle_trans with a.
      + apply reduce_min_le. rewrite F. now left.
      + apply reduce_max_ge. rewrite F. now left.
  Qed.



Lemma normalize_shift (t : T) (c : Qc) :
    normalize (tmap (fun v => v + c)%Qc t) = normalize t.
  Proof.
    destruct (flat t) as [|a vs] eqn:F.
    - unfold normalize. rewrite tmap_tmap. apply tmap_ext_in.
      intros v Hv. rewrite F in Hv. contradiction.
    - assert (Hne : flat t <> []) by (rewrite F; discriminate).
      unfold normalize.
      rewrite (reduce_min_shift t c Hne), (reduce_max_shift t c Hne).
      rewrite tmap_tmap. apply tmap_ext_in. intros v _.
      replace (v + c - (reduce_min t + c))%Qc with (v - reduce_min t)%Qc by ring.
      replace (reduce_max t + c - (reduce_min t + c))%Qc
        with (reduce_max t - reduce_min t)%Qc by ring.
      reflexivity.
  Qed.
End Reduce.

(** ** The point cloud *)

Lemma remove_nth_length {A} (i : nat) (l : list A) :
  i < length l -> length (remove_nth i l) = length l - 1.
Proof.
  intro Hi. unfold remove_nth.
  rewrite length_app, length_firstn, length_skipn. lia.
Qed.

Lemma remove_nth_incl {A} (i : nat) (l : list A) (a : A) :
  In a (remove_nth i l) -> In a l.
Proof.
  unfold remove_nth. revert i.
  induction l as [|b l IH]; intros i H; destruct i; simpl in *;
    try contradiction.
  - now right.
  - destruct H as [H|H]; [now left | right; now apply (IH i)].
Qed.

Section PointCloudFacts.
Context {E : Env}.

  (** Once every active point is past the last generation, the loop only
      empties the set: whatever [set.pop()] picks, the coordinates
      collected so far are the result. *)
Lemma cloud_loop_drains (point_func : Qc -> Qc -> Qc -> Qc -> M points)
        (shape_given : bool) (range_x range_y : Qc) (generations : Z) :
    forall (fuel : nat) (st : cloud_state) (s : rng),
      Forall (fun t : triple => (generations < snd t)%Z) (cs_active st) ->
      length (cs_active st) <= fuel ->
      cloud_loop fuel point_func shape_given range_x range_y generations st s
      = Ok (Some {| cs_x := cs_x st; cs_y := cs_y st; cs_seen := cs_seen st;
                    cs_active := [] |}, s).
  Proof.
    induction fuel as [|fuel IH]; intros st s Hall Hlen.
    - destruct st as [xs ys seen active]. simpl in *.
      destruct active; [reflexivity | simpl in Hlen; lia].
    - destruct st as [xs ys seen active]. simpl in Hall, Hlen.
      destruct active as [|first rest]; [reflexivity|].
      cbn [cloud_loop cs_active cs_x cs_y cs_seen].
      set (active := first :: rest) in *.
      set (i := Nat.modulo (set_pop active) (length active)).
      assert (Hi : i < length active).
      { apply Nat.mod_upper_bound. subst active. simpl. lia. }
      destruct (nth i active first) as [[x y] g] eqn:Hn.
      assert (Hg : (generations < g)%Z).
      { assert (Hin : In (nth i active first) active) by now apply nth_In.
        rewrite Hn in Hin. rewrite Forall_forall in Hall.
        exact (Hall _ Hin). }
      replace (g <=? generations)%Z with false by (symmetry; apply Z.leb_gt; exact Hg).
      rewrite IH.
      + reflexivity.
      + simpl. apply Forall_forall. intros t Ht.
        rewrite Forall_forall in Hall. apply Hall.
        eapply remove_nth_incl. exact Ht.
      + simpl. rewrite remove_nth_length by exact Hi. lia.
  Qed.
End PointCloudFacts.

Section PointCloudRuns.
Context {E : Env}.

  (** One turn of the loop when a single point is active: [set.pop()] has
      no choice. *)
Lemma cloud_loop_single (fuel : nat)
        (point_func : Qc -> Qc -> Qc -> Qc -> M points)
        (shape_given : bool) (range_x range_y : Qc) (generations : Z)
        (xs ys : list Qc) (seen : list seen_key) (x y : Qc) (g : Z) (s : rng) :
    cloud_loop (S fuel) point_func shape_given range_x range_y generations
               {| cs_x := xs; cs_y := ys; cs_seen := seen;
                  cs_active := [(x, y, g)] |} s
    = (if (g <=? generations)%Z
       then bind (point_func x y
                    (range_x / Num.ofZ (Z.max (2 * (g - 1)) 1))%Qc
                    (range_y / Num.ofZ (Z.max (2 * (g - 1)) 1))%Qc)
                 (fun next =>
                    cloud_loop fuel point_func shape_given range_x range_y
                      generations
                      (fold_left (cloud_add shape_given g)
                                 (combine (fst next) (snd next))
                                 {| cs_x := xs; cs_y := ys; cs_seen := seen;
                                    cs_active := [] |}))
       else cloud_loop fuel point_func shape_given range_x range_y generations
              {| cs_x := xs; cs_y := ys; cs_seen := seen; cs_active := [] |}) s.
  Proof.
    cbn [cloud_loop cs_active cs_x cs_y cs_seen Datatypes.length].
    rewrite Nat.mod_1_r. cbn [nth remove_nth firstn skipn app].
    destruct (g <=? generations)%Z; reflexivity.
  Qed.
End PointCloudRuns.

(** Replace a closed subterm by its value. *)
Ltac evaluate t :=
  let v := eval vm_compute in t in
  replace t with v by (vm_compute; reflexivity).

(** A run of [point_cloud] with one generation on a grid distribution:
    the first turn calls [square_grid], every later turn only pops. *)
Ltac run_one_generation :=
  unfold run, point_cloud;
  cbn [Z.eqb bind lift rbind PointDistribution.is_grid];
  match goal with
  | |- context [cloud_loop (5 + ?k)] => change (5 + k) with (S (4 + k))
  end;
  unfold bind at 1; rewrite cloud_loop_single;
  cbn [Z.leb Z.compare Pos.compare Pos.compare_cont];
  unfold bind at 1; unfold lift at 1;
  match goal with
  | |- context [square_grid ?a ?b ?c ?d ?e ?f ?g ?h ?i] =>
      evaluate (square_grid a b c d e f g h i)
  end;
  cbn [fst snd];
  match goal with
  | |- context [fold_left ?f ?l ?st] => evaluate (fold_left f l st)
  end;
  rewrite cloud_loop_drains;
  [ reflexivity
  | cbn [cs_active]; repeat constructor
  | cbn [cs_active Datatypes.length]; lia ].

(** C3.  With [freq=2], one generation and a [4x4] pixel shape,
    [point_cloud] returns for [square] the four points (0,0), (0,2),
    (2,0), (2,2), and for [waffle] the three of them whose lattice indices
    are not both even; the order in which [set.pop()] empties the active
    set does not matter. *)
Theorem point_cloud_square_waffle_4x4 :
  forall (E : Env) (k : nat),
    run (point_cloud (5 + k) 2 (DistribEnum PointDistribution.square)
                     (Some (4, 4)%Z) true 1)
    = Ok (Returns (map Num.ofZ [0; 0; 2; 2]%Z) (map Num.ofZ [0; 2; 0; 2]%Z)) /\
    run (point_cloud (5 + k) 2 (DistribEnum PointDistribution.waffle)
                     (Some (4, 4)%Z) true 1)
    = Ok (Returns (map Num.ofZ [0; 2; 2]%Z) (map Num.ofZ [2; 0; 2]%Z)) /\
    combine [0; 2; 2]%Z [2; 0; 2]%Z
    = filter (fun p : Z * Z => (Z.odd (fst p / 2) || Z.odd (snd p / 2))%bool)
             (combine [0; 0; 2; 2]%Z [0; 2; 0; 2]%Z).
Proof.
  intros E k. split; [|split].
  - run_one_generation.
  - run_one_generation.
  - reflexivity.
Qed.

(** ** Truncation *)

Lemma quot_Qeq (p q : Q) :
  (p == q)%Q ->
  Z.quot (Qnum p) (Zpos (Qden p)) = Z.quot (Qnum q) (Zpos (Qden q)).
Proof.
  destruct p as [a b], q as [a' b']. unfold Qeq. simpl. intro H.
  rewrite <- (Z.quot_mul_cancel_r a (Zpos b) (Zpos b')) by discriminate.
  rewrite H.
  rewrite (Z.mul_comm (Zpos b) (Zpos b')).
  apply Z.quot_mul_cancel_r; discriminate.
Qed.

Lemma this_Q2Qc (q : Q) : (this (Q2Qc q) == q)%Q.
Proof. apply Qred_correct. Qed.

Lemma trunc_Q2Qc (q : Q) :
  Num.trunc (Q2Qc q) = Z.quot (Qnum q) (Zpos (Qden q)).
Proof. unfold Num.trunc. apply quot_Qeq. simpl. apply Qred_correct. Qed.

Lemma half_of_quot (n : Z) : half_of n = Z.quot n 2.
Proof.
  unfold half_of, Qcdiv, Qcmult. rewrite trunc_Q2Qc.
  rewrite (quot_Qeq (q := n # 2)).
  - reflexivity.
  - unfold Num.ofZ, Num.two, Num.ofZ, Qcinv.
    rewrite !this_Q2Qc. unfold Qeq, inject_Z. simpl. ring.
Qed.

(** ** Shapes *)


Lemma has_shape_rows (t : tensor) (h w c : nat) :
  has_shape t h w c <-> length t = h /\ Forall (row_shape w c) t.
Proof. reflexivity. Qed.

Lemma tile_axis_length {A} (n : nat) (l : list A) :
  length (tile_axis n l) = n * length l.
Proof.
  unfold tile_axis. induction n as [|n IH]; simpl; [reflexivity|].
  rewrite length_app, IH. reflexivity.
Qed.

Lemma tile_axis_Forall {A} (P : A -> Prop) (n : nat) (l : list A) :
  Forall P l -> Forall P (tile_axis n l).
Proof.
  intro H. unfold tile_axis. induction n as [|n IH]; simpl.
  - constructor.
  - apply Forall_app. split; assumption.
Qed.

Lemma tile33_shape (t : tensor) (h w c : nat) :
  has_shape t h w c -> has_shape (tile33 t) (3 * h) (3 * w) c.
Proof.
  intros [Hl Hr]. unfold tile33. split.
  - rewrite tile_axis_length, length_map, Hl. reflexivity.
  - apply tile_axis_Forall. apply Forall_map.
    eapply Forall_impl; [|exact Hr]. intros row [Hw Hc]. split.
    + rewrite tile_axis_length, Hw. reflexivity.
    + now apply tile_axis_Forall.
Qed.

Lemma clamp_index_in (n : nat) (i : Z) :
  (0 <= i <= Z.of_nat n)%Z -> clamp_index n i = Z.to_nat i.
Proof.
  intro H. unfold clamp_index.
  destruct (i <? 0)%Z eqn:L; [apply Z.ltb_lt in L; lia|].
  f_equal. lia.
Qed.

Lemma slice_length {A} (a b : Z) (l : list A) :
  (0 <= a <= b)%Z -> (b <= Z.of_nat (length l))%Z ->
  length (slice a b l) = Z.to_nat (b - a).
Proof.
  intros Hab Hb. unfold slice.
  rewrite !clamp_index_in by lia.
  rewrite length_firstn, length_skipn. lia.
Qed.

Lemma Forall_firstn' {A} (P : A -> Prop) (n : nat) (l : list A) :
  Forall P l -> Forall P (firstn n l).
Proof.
  intro H. revert n. induction H as [|a l Ha Hl IH]; intros [|n]; simpl;
    constructor; auto.
Qed.

Lemma Forall_skipn' {A} (P : A -> Prop) (n : nat) (l : list A) :
  Forall P l -> Forall P (skipn n l).
Proof.
  intro H. revert n. induction H as [|a l Ha Hl IH]; intros [|n]; simpl;
    try constructor; auto.
Qed.

Lemma slice_Forall {A} (P : A -> Prop) (a b : Z) (l : list A) :
  Forall P l -> Forall P (slice a b l).
Proof.
  intro H. unfold slice. apply Forall_firstn'. apply Forall_skipn'. exact H.
Qed.

Lemma slice2_shape (t : tensor) (h w c : nat) (a b a' b' : Z) :
  has_shape t h w c ->
  (0 <= a <= b)%Z -> (b <= Z.of_nat h)%Z ->
  (0 <= a' <= b')%Z -> (b' <= Z.of_nat w)%Z ->
  has_shape (slice2 a b a' b' t) (Z.to_nat (b - a)) (Z.to_nat (b' - a')) c.
Proof.
  intros [Hl Hr] Hab Hb Hab' Hb'. unfold slice2. split.
  - rewrite length_map. apply slice_length; [exact Hab | now rewrite Hl].
  - apply Forall_map. apply slice_Forall.
    eapply Forall_impl; [|exact Hr]. intros row [Hw Hc]. split.
    + apply slice_length; [exact Hab' | now rewrite Hw].
    + now apply slice_Forall.
Qed.

Lemma tabulate_shape (h w c : nat) (f : nat -> nat -> pixel) :
  (forall y x, length (f y x) = c) -> has_shape (tabulate h w f) h w c.
Proof.
  intro Hf. unfold tabulate. split.
  - now rewrite length_map, length_seq.
  - apply Forall_map. apply Forall_forall. intros y _. split.
    + now rewrite length_map, length_seq.
    + apply Forall_map. apply Forall_forall. intros x _. apply Hf.
Qed.

Lemma tmap_tensor (f : Qc -> Qc) (t : tensor) :
  tmap f t = map (map (map f)) t.
Proof. reflexivity. Qed.

Lemma tmap_shape (f : Qc -> Qc) (t : tensor) (h w c : nat) :
  has_shape t h w c -> has_shape (tmap f t) h w c.
Proof.
  intros [Hl Hr]. rewrite tmap_tensor. split.
  - now rewrite length_map.
  - apply Forall_map. eapply Forall_impl; [|exact Hr].
    intros row [Hw Hc]. split.
    + now rewrite length_map.
    + apply Forall_map. eapply Forall_impl; [|exact Hc].
      intros px Hpx. now rewrite length_map.
Qed.

Lemma normalize_shape (t : tensor) (h w c : nat) :
  has_shape t h w c -> has_shape (normalize t) h w c.
Proof. apply tmap_shape. Qed.

Lemma dims_shape (t : tensor) (h w c : nat) :
  has_shape t h w c -> 0 < h -> 0 < w -> dims t = (h, w, c).
Proof.
  intros [Hl Hr] Hh Hw. unfold dims.
  destruct t as [|row t]; [simpl in Hl; lia|].
  inversion Hr as [|? ? [Hrow Hpx] _]; subst.
  destruct row as [|px row]; [simpl in Hw; lia|].
  inversion Hpx; subst. reflexivity.
Qed.


Lemma half_of_nat (n : nat) : half_of (Z.of_nat n) = (Z.of_nat n / 2)%Z.
Proof. rewrite half_of_quot. apply Z.quot_div_nonneg; lia. Qed.

Section ConvolveShape.
Context {E : Env}.

Lemma kernel_size_cases (k : ConvKernel) :
    kernel_size k = 3 \/ kernel_size k = 5.
  Proof. destruct k; unfold kernel_size; simpl; auto. Qed.

Lemma conform_kernel_ok (k : ConvKernel) (h w : Z) (c : nat) :
    exists filter,
      conform_kernel_to_tensor (kernel_of k) (h, w, Z.of_nat c) = Ok filter /\
      length filter = kernel_size k /\
      length (hd [] (hd [] filter)) = c.
  Proof.
    unfold conform_kernel_to_tensor.
    destruct (Z.of_nat c <? 0)%Z eqn:L; [apply Z.ltb_lt in L; lia|].
    eexists. split; [reflexivity|]. rewrite Nat2Z.id. split.
    - unfold map_grid, kernel_size, kernel_weights, kernel_len.
      destruct (kernel_of k); unfold map_grid; now rewrite !length_map.
    - destruct k; simpl; apply repeat_length.
  Qed.

Lemma depthwise_conv2d_valid_shape (t : tensor) (filter : list (list (list Qc)))
        (h w c : nat) :
    has_shape t h w c -> 0 < h -> 0 < w ->
    length (hd [] (hd [] filter)) = c ->
    length filter <= h -> length filter <= w ->
    exists out,
      depthwise_conv2d_valid t filter = Ok out /\
      has_shape out (h - length filter + 1) (w - length filter + 1) c.
  Proof.
    intros Ht Hh Hw Hfc Hlh Hlw. unfold depthwise_conv2d_valid.
    rewrite (dims_shape Ht Hh Hw). rewrite Hfc, Nat.eqb_refl. simpl negb.
    cbv iota.
    replace (Nat.ltb h (length filter)) with false
      by (symmetry; apply Nat.ltb_ge; exact Hlh).
    replace (Nat.ltb w (length filter)) with false
      by (symmetry; apply Nat.ltb_ge; exact Hlw).
    simpl orb. cbv iota.
    eexists. split; [reflexivity|].
    apply tabulate_shape. intros y x. now rewrite length_map, length_seq.
  Qed.

Lemma convolve_shape (kernel : ConvKernel) (t : tensor) (h w c : nat) :
    has_shape t h w c ->
    2 * kernel_size kernel <= h + 3 ->
    2 * kernel_size kernel <= w + 3 ->
    exists out,
      convolve kernel t (Z.of_nat h, Z.of_nat w, Z.of_nat c) = Ok out /\
      has_shape out h w c.
  Proof.
    intros Ht Hh Hw. unfold convolve.
    destruct (conform_kernel_ok kernel (Z.of_nat h) (Z.of_nat w) c)
      as [filter [-> [Hlen Hfc]]].
    cbn [rbind]. rewrite !half_of_nat.
    assert (Hk : kernel_size kernel = 3 \/ kernel_size kernel = 5)
      by apply kernel_size_cases.
    set (hh := (Z.of_nat h / 2)%Z). set (hw := (Z.of_nat w / 2)%Z).
    assert (Hhh : (0 <= hh /\ 2 * hh <= Z.of_nat h /\ Z.of_nat h <= 2 * hh + 1)%Z).
    { subst hh. Z.div_mod_to_equations. lia. }
    assert (Hhw : (0 <= hw /\ 2 * hw <= Z.of_nat w /\ Z.of_nat w <= 2 * hw + 1)%Z).
    { subst hw. Z.div_mod_to_equations. lia. }
    pose proof (tile33_shape Ht) as H3.
    assert (H2 : has_shape
                   (slice2 hh (Z.of_nat h * 2 + hh) hw (Z.of_nat w * 2 + hw)
                           (tile33 t)) (2 * h) (2 * w) c).
    { replace (2 * h) with (Z.to_nat (Z.of_nat h * 2 + hh - hh)) by lia.
      replace (2 * w) with (Z.to_nat (Z.of_nat w * 2 + hw - hw)) by lia.
      apply slice2_shape with (h := 3 * h) (w := 3 * w); [exact H3| lia ..]. }
    destruct (depthwise_conv2d_valid_shape filter H2)
      as [conv [-> Hconv]]; [lia | lia | exact Hfc | lia | lia |].
    cbn [rbind]. rewrite Hlen in Hconv.
    assert (Hout : has_shape
                     (slice2 hh (Z.of_nat h + hh) hw (Z.of_nat w + hw) conv) h w c).
    { replace h with (Z.to_nat (Z.of_nat h + hh - hh)) at 2 by lia.
      replace w with (Z.to_nat (Z.of_nat w + hw - hw)) at 2 by lia.
      eapply slice2_shape; [exact Hconv | lia ..]. }
    destruct (kernel_eqb kernel edges); eexists; (split; [reflexivity|]).
    - apply tmap_shape. now apply normalize_shape.
    - now apply normalize_shape.
  Qed.
End ConvolveShape.

Lemma nth_row_shape (t : tensor) (h w c : nat) (i : nat) :
  has_shape t h w c -> i < h -> row_shape w c (nth i t []).
Proof.
  intros [Hl Hr] Hi. rewrite Forall_forall in Hr. apply Hr.
  apply nth_In. now rewrite Hl.
Qed.

Lemma nth_pixel_length (row : list pixel) (w c : nat) (j : nat) :
  row_shape w c row -> j < w -> length (nth j row []) = c.
Proof.
  intros [Hw Hc] Hj. rewrite Forall_forall in Hc. apply Hc.
  apply nth_In. now rewrite Hw.
Qed.

Lemma resize_nearest_total : resize_total demo_env.
Proof.
  intros m t ih iw c H W Ht Hih Hiw HH HW. cbn [resize_images demo_env].
  unfold resize_nearest. rewrite (dims_shape Ht Hih Hiw).
  replace (H <=? 0)%Z with false by (symmetry; apply Z.leb_gt; exact HH).
  replace (W <=? 0)%Z with false by (symmetry; apply Z.leb_gt; exact HW).
  replace (Nat.eqb ih 0) with false by (symmetry; apply Nat.eqb_neq; lia).
  replace (Nat.eqb iw 0) with false by (symmetry; apply Nat.eqb_neq; lia).
  cbn [orb]. eexists. split; [reflexivity|].
  apply tabulate_shape. intros y x.
  eapply nth_pixel_length.
  - eapply nth_row_shape; [exact Ht|]. lia.
  - lia.
Qed.

Section ResampleShape.
Context {E : Env}.

Lemma resample_shape (t : tensor) (ih iw c : nat) (H W order : Z) :
    resize_total E -> has_shape t ih iw c -> 0 < ih -> 0 < iw ->
    (0 < H)%Z -> (0 < W)%Z ->
    exists out,
      resample t (H, W) order = Ok out /\
      has_shape out (Z.to_nat H) (Z.to_nat W) c.
  Proof.
    intros Hres Ht Hih Hiw HH HW. unfold resample.
    rewrite (dims_shape Ht Hih Hiw). rewrite !half_of_nat.
    rewrite !half_of_quot, !Z.quot_div_nonneg by lia.
    set (hh := (Z.of_nat ih / 2)%Z). set (hw := (Z.of_nat iw / 2)%Z).
    assert (Hhh : (0 <= hh /\ 2 * hh <= Z.of_nat ih)%Z)
      by (subst hh; Z.div_mod_to_equations; lia).
    assert (Hhw : (0 <= hw /\ 2 * hw <= Z.of_nat iw)%Z)
      by (subst hw; Z.div_mod_to_equations; lia).
    assert (H2 : has_shape
                   (slice2 hh (Z.of_nat ih * 2 + hh) hw (Z.of_nat iw * 2 + hw)
                           (tile33 t)) (2 * ih) (2 * iw) c).
    { replace (2 * ih) with (Z.to_nat (Z.of_nat ih * 2 + hh - hh)) by lia.
      replace (2 * iw) with (Z.to_nat (Z.of_nat iw * 2 + hw - hw)) by lia.
      apply slice2_shape with (h := 3 * ih) (w := 3 * iw);
        [exact (tile33_shape Ht) | lia ..]. }
    destruct (Hres (if (order =? 0)%Z then NEAREST_NEIGHBOR
                    else if (order =? 1)%Z then BILINEAR else BICUBIC)
                   _ _ _ _ (H * 2)%Z (W * 2)%Z H2)
      as [r [-> Hr]]; [lia | lia | lia | lia |].
    cbn [rbind]. eexists. split; [reflexivity|].
    unfold convert_image_dtype_float32.
    set (mh := (H / 2)%Z). set (mw := (W / 2)%Z).
    assert (Hmh : (0 <= mh /\ 2 * mh <= H)%Z)
      by (subst mh; Z.div_mod_to_equations; lia).
    assert (Hmw : (0 <= mw /\ 2 * mw <= W)%Z)
      by (subst mw; Z.div_mod_to_equations; lia).
    replace (Z.to_nat H) with (Z.to_nat (H + mh - mh)) by lia.
    replace (Z.to_nat W) with (Z.to_nat (W + mw - mw)) by lia.
    eapply slice2_shape; [exact Hr | lia ..].
  Qed.
End ResampleShape.

(** Decide [has_shape] of a closed tensor. *)
Ltac shape_of_closed := unfold has_shape; vm_compute; repeat constructor.

(** X8.  [convolve] returns a grid of the shape of its input when each
    spatial extent is at least [2 * l - 3] for a kernel of side [l] (3
    for the 3x3 kernels, 7 for the 5x5 ones), and, where resizing succeeds
    on grids that are not empty, [resample] returns a grid of the spatial
    shape asked for when the input is not empty and the extents asked for
    are positive. *)
Theorem convolve_resample_shape :
  forall (E : Env) (kernel : ConvKernel) (t : tensor) (h w c : nat)
         (u : tensor) (ih iw ic : nat) (H W order : Z),
    has_shape t h w c ->
    2 * kernel_size kernel <= h + 3 ->
    2 * kernel_size kernel <= w + 3 ->
    resize_total E ->
    has_shape u ih iw ic -> 0 < ih -> 0 < iw -> (0 < H)%Z -> (0 < W)%Z ->
    (exists out,
        convolve kernel t (Z.of_nat h, Z.of_nat w, Z.of_nat c) = Ok out /\
        has_shape out h w c) /\
    (exists out,
        resample u (H, W) order = Ok out /\
        has_shape out (Z.to_nat H) (Z.to_nat W) ic).
Proof.
  intros E kernel t h w c u ih iw ic H W order Ht Hh Hw Hres Hu Hih Hiw HH HW.
  split.
  - now apply convolve_shape.
  - eapply resample_shape; eassumption.
Qed.

Lemma convolve_resample_shape_witness :
  has_shape (ramp 3 4) 3 4 1 /\
  2 * kernel_size (E := demo_env) emboss <= 3 + 3 /\
  2 * kernel_size (E := demo_env) emboss <= 4 + 3 /\
  resize_total demo_env /\
  has_shape (ramp 2 3) 2 3 1 /\ 0 < 2 /\ 0 < 3 /\ (0 < 5)%Z /\ (0 < 4)%Z /\
  ((exists out,
       convolve (E := demo_env) emboss (ramp 3 4)
                (Z.of_nat 3, Z.of_nat 4, Z.of_nat 1) = Ok out /\
       has_shape out 3 4 1) /\
   (exists out,
       resample (E := demo_env) (ramp 2 3) (5, 4)%Z 3%Z = Ok out /\
       has_shape out (Z.to_nat 5) (Z.to_nat 4) 1)).
Proof.
  assert (H1 : has_shape (ramp 3 4) 3 4 1) by shape_of_closed.
  assert (H2 : has_shape (ramp 2 3) 2 3 1) by shape_of_closed.
  assert (K1 : 2 * kernel_size (E := demo_env) emboss <= 3 + 3)
    by (vm_compute; repeat constructor).
  assert (K2 : 2 * kernel_size (E := demo_env) emboss <= 4 + 3)
    by (vm_compute; repeat constructor).
  split; [exact H1|]. split; [exact K1|]. split; [exact K2|].
  split; [exact resize_nearest_total|]. split; [exact H2|].
  split; [exact (Nat.lt_0_succ 1)|]. split; [exact (Nat.lt_0_succ 2)|].
  split; [reflexivity|]. split; [reflexivity|].
  exact (@convolve_resample_shape demo_env emboss (ramp 3 4) 3 4 1
           (ramp 2 3) 2 3 1 5%Z 4%Z 3%Z H1 K1 K2 resize_nearest_total
           H2 (Nat.lt_0_succ 1) (Nat.lt_0_succ 2) eq_refl eq_refl).
Defined.

(** C2, at an input where the code breaks it.  The [5x5] grid is at least
    as large as the [5x5] kernel [shadow], and [convolve] returns [4x4]
    cells for it, not [5x5]: the second crop starts at [half_height]
    although the convolution without padding has already taken [l - 1]
    rows and columns off the [2h x 2w] crop. *)
Lemma convolve_shadow_5x5_shrinks :
  has_shape (ramp 5 5) 5 5 1 /\
  kernel_size (E := demo_env) shadow = 5 /\
  result_dims (convolve (E := demo_env) shadow (ramp 5 5) (5, 5, 1)%Z)
  = Some (4, 4, 1).
Proof.
  split; [shape_of_closed|]. split; vm_compute; reflexivity.
Qed.

(** ** Grids as tables *)

Lemma rmapM_ok {A B} (f : A -> result B) (g : A -> B) (l : list A) :
  (forall a, In a l -> f a = Ok (g a)) -> rmapM f l = Ok (map g l).
Proof.
  induction l as [|a l IH]; intro H; simpl; [reflexivity|].
  rewrite (H a) by now left. cbn [rbind].
  rewrite IH by (intros b Hb; apply H; now right). reflexivity.
Qed.

Lemma tabulate_ext {A} (h w : nat) (f g : nat -> nat -> A) :
  (forall y x, y < h -> x < w -> f y x = g y x) ->
  tabulate h w f = tabulate h w g.
Proof.
  intro H. unfold tabulate. apply map_ext_in. intros y Hy.
  apply in_seq in Hy. apply map_ext_in. intros x Hx. apply in_seq in Hx.
  apply H; lia.
Qed.

Lemma map_grid_tabulate {A B} (f : A -> B) (h w : nat) (g : nat -> nat -> A) :
  map_grid f (tabulate h w g) = tabulate h w (fun y x => f (g y x)).
Proof.
  unfold map_grid, tabulate. rewrite map_map. apply map_ext. intro y.
  now rewrite map_map.
Qed.

Lemma list_as_map {A} (d : A) (l : list A) :
  l = map (fun i => nth i l d) (seq 0 (length l)).
Proof.
  induction l as [|a l IH]; simpl; [reflexivity|].
  f_equal. rewrite <- seq_shift, map_map. exact IH.
Qed.

(** Every grid of [h] rows of [w] cells is the table of its cells. *)
Lemma grid_as_tabulate {A} (d : A) (g : list (list A)) (h w : nat) :
  field_shape g h w ->
  g = tabulate h w (fun y x => nth x (nth y g []) d).
Proof.
  intros [Hl Hr]. unfold tabulate.
  rewrite (list_as_map [] g) at 1. rewrite Hl.
  apply map_ext_in. intros y Hy. apply in_seq in Hy.
  assert (Hw : length (nth y g []) = w).
  { rewrite Forall_forall in Hr. apply Hr. apply nth_In. lia. }
  rewrite (list_as_map d (nth y g [])) at 1. now rewrite Hw.
Qed.

Lemma tabulate_field_shape {A} (h w : nat) (f : nat -> nat -> A) :
  field_shape (tabulate h w f) h w.
Proof.
  unfold tabulate. split.
  - now rewrite length_map, length_seq.
  - apply Forall_map. apply Forall_forall. intros y _.
    now rewrite length_map, length_seq.
Qed.



Lemma zip_with_map {A B C} (f : A -> B -> C) {I} (a : I -> A) (b : I -> B)
      (l : list I) :
  zip_with f (map a l) (map b l) = Ok (map (fun i => f (a i) (b i)) l).
Proof.
  induction l as [|i l IH]; simpl; [reflexivity|]. now rewrite IH.
Qed.

Lemma zip_with2_tabulate {A B C} (f : A -> B -> C) (h w : nat)
      (a : nat -> nat -> A) (b : nat -> nat -> B) :
  zip_with2 f (tabulate h w a) (tabulate h w b)
  = Ok (tabulate h w (fun y x => f (a y x) (b y x))).
Proof.
  unfold tabulate. induction (seq 0 h) as [|y l IH]; simpl; [reflexivity|].
  rewrite zip_with_map. cbn [rbind]. now rewrite IH.
Qed.

Lemma gather_nd_tabulate {A} (t : list (list A)) (h w : nat)
      (f : nat -> nat -> Z * Z) (g : nat -> nat -> A) :
  (forall y x, y < h -> x < w -> gather_point t (f y x) = Ok (g y x)) ->
  gather_nd t (tabulate h w f) = Ok (tabulate h w g).
Proof.
  intro H. unfold gather_nd, tabulate.
  rewrite (rmapM_ok _ (fun row => map (fun p => match gather_point t p with
                                                | Ok v => v
                                                | Raise _ => g 0 0
                                                end) row)).
  - f_equal. rewrite map_map. apply map_ext_in. intros y Hy.
    apply in_seq in Hy. rewrite map_map. apply map_ext_in. intros x Hx.
    apply in_seq in Hx. rewrite H by lia. reflexivity.
  - intros row Hrow. apply in_map_iff in Hrow. destruct Hrow as [y [<- Hy]].
    apply in_seq in Hy. apply rmapM_ok. intros p Hp.
    apply in_map_iff in Hp. destruct Hp as [x [<- Hx]]. apply in_seq in Hx.
    rewrite H by lia. reflexivity.
Qed.

Lemma nth_result_nth {A} (d : A) (l : list A) (i : Z) :
  (0 <= i < Z.of_nat (length l))%Z ->
  nth_result l i = Ok (nth (Z.to_nat i) l d).
Proof.
  intro H. unfold nth_result.
  destruct (i <? 0)%Z eqn:L; [apply Z.ltb_lt in L; lia|].
  rewrite (nth_error_nth' l d) by lia. reflexivity.
Qed.

Lemma gather_point_in {A} (d : A) (t : list (list A)) (h w : nat) (y x : Z) :
  field_shape t h w ->
  (0 <= y < Z.of_nat h)%Z -> (0 <= x < Z.of_nat w)%Z ->
  gather_point t (y, x) = Ok (nth (Z.to_nat x) (nth (Z.to_nat y) t []) d).
Proof.
  intros [Hl Hr] Hy Hx. unfold gather_point. cbn [fst snd].
  rewrite (nth_result_nth []) by lia. cbn [rbind].
  apply nth_result_nth.
  assert (Hw : length (nth (Z.to_nat y) t []) = w).
  { rewrite Forall_forall in Hr. apply Hr. apply nth_In. lia. }
  lia.
Qed.

(** ** The index grids *)

Lemma cumsum_from_ones (n : nat) (acc : Z) :
  cumsum_from acc (repeat 1%Z n)
  = map (fun i => (acc + Z.of_nat i)%Z) (seq 0 n).
Proof.
  revert acc. induction n as [|n IH]; intro acc; simpl; [reflexivity|].
  f_equal; [lia|]. rewrite IH, <- seq_shift, map_map.
  apply map_ext. intro i. lia.
Qed.

Lemma chunks_tile {A} (l : list A) (n : nat) :
  chunks n (length l) (tile_axis n l) = repeat l n.
Proof.
  unfold tile_axis. induction n as [|n IH]; simpl; [reflexivity|].
  rewrite firstn_app, Nat.sub_diag, firstn_all. simpl. rewrite app_nil_r.
  f_equal. rewrite skipn_app, Nat.sub_diag, skipn_all. simpl. exact IH.
Qed.

Lemma repeat_as_map {A} (a : A) (n : nat) :
  repeat a n = map (fun _ => a) (seq 0 n).
Proof.
  induction n as [|n IH]; simpl; [reflexivity|].
  f_equal. now rewrite <- seq_shift, map_map.
Qed.

(** A vector tiled [h] times and cut into rows of its own length. *)
Lemma tile_reshape {A} (l : list A) (h w : nat) :
  length l = w ->
  rbind (tile1 l (Z.of_nat h)) (fun tiled =>
           reshape2 tiled (Z.of_nat h) (Z.of_nat w))
  = Ok (repeat l h).
Proof.
  intro Hl. unfold tile1.
  destruct (Z.of_nat h <? 0)%Z eqn:L; [apply Z.ltb_lt in L; lia|].
  cbn [rbind]. unfold reshape2.
  destruct (Z.of_nat h <? 0)%Z; [discriminate|].
  destruct (Z.of_nat w <? 0)%Z eqn:L2; [apply Z.ltb_lt in L2; lia|].
  cbn [orb]. rewrite !Nat2Z.id, tile_axis_length, Hl.
  replace (Z.of_nat (h * w) =? Z.of_nat h * Z.of_nat w)%Z with true
    by (symmetry; apply Z.eqb_eq; lia).
  cbn [negb]. rewrite <- Hl. now rewrite chunks_tile.
Qed.

Lemma ones_nat (n : nat) : ones (Z.of_nat n) = Ok (repeat 1%Z n).
Proof.
  unfold ones. destruct (Z.of_nat n <? 0)%Z eqn:L; [apply Z.ltb_lt in L; lia|].
  now rewrite Nat2Z.id.
Qed.

(** [row_index] holds [x] at [(y, x)], as its docstring draws it. *)
Lemma row_index_table (h w : nat) (c : Z) :
  row_index (Z.of_nat h, Z.of_nat w, c)
  = Ok (tabulate h w (fun _ x => Z.of_nat x)).
Proof.
  unfold row_index. rewrite ones_nat. cbn [rbind].
  unfold cumsum_exclusive. rewrite cumsum_from_ones.
  rewrite tile_reshape by now rewrite length_map, length_seq.
  unfold tabulate. now rewrite repeat_as_map.
Qed.

Lemma map2_repeat (a b : Z) (n : nat) :
  map2 Z.add (repeat a n) (repeat b n) = repeat (a + b)%Z n.
Proof. induction n as [|n IH]; simpl; [reflexivity|]. now rewrite IH. Qed.

Lemma cumsum_rows_ones (w n : nat) (a : Z) :
  cumsum_rows_from (repeat a w) (repeat (repeat 1%Z w) n)
  = map (fun y => repeat (a + Z.of_nat y)%Z w) (seq 0 n).
Proof.
  revert a. induction n as [|n IH]; intro a; simpl; [reflexivity|].
  f_equal; [f_equal; lia|].
  rewrite map2_repeat, IH, <- seq_shift, map_map.
  apply map_ext. intro y. f_equal. lia.
Qed.

(** [column_index] holds [y] at [(y, x)], as its docstring draws it. *)
Lemma column_index_table (h w : nat) (c : Z) :
  column_index (Z.of_nat h, Z.of_nat w, c)
  = Ok (tabulate h w (fun y _ => Z.of_nat y)).
Proof.
  unfold column_index. rewrite ones_nat. cbn [rbind].
  pose proof (tile_reshape (repeat 1%Z w) h (repeat_length 1%Z w)) as Htr.
  unfold rbind in Htr.
  destruct (tile1 (repeat 1%Z w) (Z.of_nat h)) as [tiled|e]; [|discriminate].
  cbn [rbind]. rewrite Htr. cbn [rbind]. f_equal.
  unfold cumsum_rows_exclusive.
  destruct h as [|h].
  - reflexivity.
  - cbn [repeat hd].
    replace (map (fun _ : Z => 0%Z) (repeat 1%Z w)) with (repeat 0%Z w)
      by (clear; induction w; simpl; congruence).
    change (repeat 1%Z w :: repeat (repeat 1%Z w) h)
      with (repeat (repeat 1%Z w) (S h)).
    rewrite cumsum_rows_ones. unfold tabulate.
    apply map_ext. intro y. now rewrite repeat_as_map.
Qed.

(** ** [offset_index] *)

Section OffsetIndex.
Context {E : Env}.

  (** On two index tables of one shape, [offset_index] is the table of
      the shifted indices reduced modulo the extents. *)
Lemma offset_index_table (h w : nat) (fy fx : nat -> nat -> Z)
        (height width : Z) (s : rng) :
    height <> 0%Z -> width <> 0%Z ->
    offset_index (tabulate h w fy) height (tabulate h w fx) width s
    = Ok (tabulate h w (fun y x =>
            ((wrap32 (fy y x + offset_dy height s) mod height)%Z,
             (wrap32 (fx y x + offset_dx width s) mod width)%Z)),
          after_random 2 s).
  Proof.
    intros Hh Hw. unfold offset_index, bind, lift, random_random.
    unfold int_mod_grid.
    replace (height =? 0)%Z with false by (symmetry; now apply Z.eqb_neq).
    replace (width =? 0)%Z with false by (symmetry; now apply Z.eqb_neq).
    unfold add_int32. rewrite !map_grid_tabulate. cbn [py_i].
    unfold stack2. rewrite zip_with2_tabulate.
    reflexivity.
  Qed.

Lemma offset_index_in_grid (a b : Z) (height width : Z) (s : rng) :
    (0 < height)%Z -> (0 < width)%Z ->
    in_grid height width
            ((wrap32 (a + offset_dy height s) mod height)%Z,
             (wrap32 (b + offset_dx width s) mod width)%Z).
  Proof.
    intros Hh Hw. split; cbn [fst snd]; apply Z.mod_pos_bound; assumption.
  Qed.
End OffsetIndex.


(** A gather through indices that lie in the grid succeeds, cell by cell. *)
Lemma gather_nd_in_grid {A} (d : A) (t : list (list A)) (th tw : nat)
      (h w : nat) (f : nat -> nat -> Z * Z) :
  field_shape t th tw ->
  (forall y x, y < h -> x < w -> in_grid (Z.of_nat th) (Z.of_nat tw) (f y x)) ->
  gather_nd t (tabulate h w f)
  = Ok (tabulate h w (fun y x =>
          nth (Z.to_nat (snd (f y x))) (nth (Z.to_nat (fst (f y x))) t []) d)).
Proof.
  intros Ht Hf. apply gather_nd_tabulate. intros y x Hy Hx.
  destruct (Hf y x Hy Hx) as [H1 H2]. destruct (f y x) as [a b].
  cbn [fst snd] in *. now apply (gather_point_in d Ht).
Qed.

(** ** [refract] *)

Lemma tmap_field (f : Qc -> Qc) (g : field) : tmap f g = map_grid f g.
Proof. reflexivity. Qed.

Lemma map_grid_field_shape {A B} (f : A -> B) (g : list (list A)) (h w : nat) :
  field_shape g h w -> field_shape (map_grid f g) h w.
Proof.
  intros [Hl Hr]. unfold map_grid. split.
  - now rewrite length_map.
  - apply Forall_map. eapply Forall_impl; [|exact Hr].
    intros row Hrow. now rewrite length_map.
Qed.

Lemma has_shape_field (t : tensor) (h w c : nat) :
  has_shape t h w c -> field_shape t h w.
Proof.
  intros [Hl Hr]. split; [exact Hl|].
  eapply Forall_impl; [|exact Hr]. now intros row [Hw _].
Qed.

Lemma value_map_shape (t : tensor) (shape : shape3) (h w c : nat) :
  has_shape t h w c -> field_shape (value_map t shape) h w.
Proof.
  intro Ht. unfold value_map, normalize. rewrite tmap_field.
  apply map_grid_field_shape. unfold reduce_sum_channels.
  apply map_grid_field_shape. exact (has_shape_field Ht).
Qed.

Lemma refract_reference_shape (t : tensor) (shape : shape3) (d : Qc)
      (h w c : nat) :
  has_shape t h w c -> field_shape (refract_reference t shape d) h w.
Proof.
  intro Ht. unfold refract_reference, scale. rewrite tmap_field.
  apply map_grid_field_shape. now apply value_map_shape with c.
Qed.

Section Refract.
Context {E : Env}.

  (** [refract] on a grid that is not empty: it succeeds, draws four
      random numbers, and copies to every cell the cell at
      [refract_source]. *)
Lemma refract_table (t : tensor) (h w c : nat) (d : Qc) (s : rng) :
    has_shape t h w c -> 0 < h -> 0 < w ->
    refract t (Z.of_nat h, Z.of_nat w, Z.of_nat c) d s
    = Ok (tabulate h w (fun y x =>
            cell_at [] t
              (refract_source t (Z.of_nat h, Z.of_nat w, Z.of_nat c) d s y x)),
          after_random 4 s).
  Proof.
    intros Ht Hh Hw.
    set (shape := (Z.of_nat h, Z.of_nat w, Z.of_nat c)).
    pose proof (refract_reference_shape shape d Ht) as Href.
    unfold refract. subst shape. cbv beta iota zeta.
    fold (refract_reference t (Z.of_nat h, Z.of_nat w, Z.of_nat c) d).
    set (shape := (Z.of_nat h, Z.of_nat w, Z.of_nat c)) in *.
    set (ref := refract_reference t shape d) in *.
    subst shape. rewrite row_index_table, column_index_table.
    unfold bind at 1. unfold lift at 1. unfold bind at 1. unfold lift at 1.
    unfold bind at 1.
    rewrite offset_index_table by lia.
    unfold bind at 1. unfold lift at 1.
    rewrite (gather_nd_in_grid 0%Qc (th := h) (tw := w)); [|exact Href|].
    2:{ intros y x _ _. apply offset_index_in_grid; lia. }
    unfold bind at 1. unfold lift at 1.
    rewrite zip_with2_tabulate.
    unfold bind at 1. unfold lift at 1.
    rewrite (grid_as_tabulate 0%Qc Href) at 1.
    rewrite zip_with2_tabulate.
    unfold bind at 1.
    rewrite offset_index_table by lia.
    unfold lift.
    rewrite (@gather_nd_in_grid pixel [] t h w h w _ (has_shape_field Ht)).
    2:{ intros y x _ _. apply offset_index_in_grid; lia. }
    unfold after_random. cbn [py_i uni_i nrm_i].
    f_equal. f_equal.
    apply tabulate_ext. intros y x Hy Hx.
    unfold refract_source, cell_at, after_random. cbn [fst snd].
    rewrite !Nat2Z.id. reflexivity.
  Qed.
End Refract.

Lemma zip_with_pair_Forall {A} (P Q : A -> Prop) (a b : list A)
      (r : list (A * A)) :
  Forall P a -> Forall Q b -> zip_with pair a b = Ok r ->
  Forall (fun p => P (fst p) /\ Q (snd p)) r.
Proof.
  intro Ha. revert b r. induction Ha as [|x a Hx Ha IH]; intros b r Hb Hz.
  - destruct b; simpl in Hz; inversion Hz. constructor.
  - destruct b as [|y b]; simpl in Hz; [discriminate|].
    inversion Hb as [|? ? Hy Hb']; subst.
    destruct (zip_with pair a b) as [r'|e] eqn:Hr; simpl in Hz; inversion Hz.
    constructor; [now split | now apply (IH b)].
Qed.

Lemma zip_with2_pair_Forall {A} (P Q : A -> Prop) (a b : list (list A))
      (r : list (list (A * A))) :
  Forall (Forall P) a -> Forall (Forall Q) b -> zip_with2 pair a b = Ok r ->
  Forall (Forall (fun p => P (fst p) /\ Q (snd p))) r.
Proof.
  intro Ha. revert b r. induction Ha as [|x a Hx Ha IH]; intros b r Hb Hz.
  - destruct b; simpl in Hz; inversion Hz. constructor.
  - destruct b as [|y b]; simpl in Hz; [discriminate|].
    inversion Hb as [|? ? Hy Hb']; subst.
    destruct (zip_with pair x y) as [row|e] eqn:Hrow; simpl in Hz;
      [|discriminate].
    destruct (zip_with2 pair a b) as [r'|e] eqn:Hr; simpl in Hz; inversion Hz.
    constructor.
    + exact (zip_with_pair_Forall Hx Hy Hrow).
    + now apply (IH b).
Qed.

Lemma map_grid_Forall {A B} (f : A -> B) (P : B -> Prop) (g : list (list A)) :
  (forall a, P (f a)) -> Forall (Forall P) (map_grid f g).
Proof.
  intro H. unfold map_grid. apply Forall_map. apply Forall_forall.
  intros row _. apply Forall_map. apply Forall_forall. intros a _. apply H.
Qed.

Section OffsetIndexBounds.
Context {E : Env}.

  (** Whatever the index grids hold, what [offset_index] returns lies in
      the grid. *)
Lemma offset_index_bounds (y_index x_index : list (list Z))
        (height width : Z) (s s' : rng) (index : list (list (Z * Z))) :
    (0 < height)%Z -> (0 < width)%Z ->
    offset_index y_index height x_index width s = Ok (index, s') ->
    Forall (Forall (in_grid height width)) index.
  Proof.
    intros Hh Hw. unfold offset_index, bind, lift, random_random, int_mod_grid.
    replace (height =? 0)%Z with false by (symmetry; apply Z.eqb_neq; lia).
    replace (width =? 0)%Z with false by (symmetry; apply Z.eqb_neq; lia).
    cbn [py_i]. unfold stack2.
    match goal with
    | |- context [zip_with2 pair ?a ?b] =>
        destruct (zip_with2 pair a b) as [r|e] eqn:Hz
    end; [|discriminate].
    intro Heq. inversion Heq; subst. unfold in_grid.
    refine (zip_with2_pair_Forall (P := fun z => (0 <= z < height)%Z)
                                  (Q := fun z => (0 <= z < width)%Z) _ _ Hz).
    - apply map_grid_Forall. intro a. now apply Z.mod_pos_bound.
    - apply map_grid_Forall. intro a. now apply Z.mod_pos_bound.
  Qed.

  (** On index grids of one shape it does return. *)
Lemma offset_index_total (y_index x_index : list (list Z)) (gh gw : nat)
        (height width : Z) (s : rng) :
    (0 < height)%Z -> (0 < width)%Z ->
    field_shape y_index gh gw -> field_shape x_index gh gw ->
    exists index,
      offset_index y_index height x_index width s
      = Ok (index, after_random 2 s) /\
      field_shape index gh gw.
  Proof.
    intros Hh Hw Hy Hx.
    rewrite (grid_as_tabulate 0%Z Hy), (grid_as_tabulate 0%Z Hx).
    rewrite offset_index_table by lia.
    eexists. split; [reflexivity|]. apply tabulate_field_shape.
  Qed.

Lemma cell_at_length (t : tensor) (h w c : nat) (p : Z * Z) :
    has_shape t h w c -> in_grid (Z.of_nat h) (Z.of_nat w) p ->
    length (cell_at [] t p) = c.
  Proof.
    intros Ht [Hy Hx]. unfold cell_at.
    eapply nth_pixel_length.
    - eapply nth_row_shape; [exact Ht|]. lia.
    - lia.
  Qed.

Lemma refract_source_in_grid (t : tensor) (h w : nat) (c : Z) (d : Qc)
        (s : rng) (y x : nat) :
    0 < h -> 0 < w ->
    in_grid (Z.of_nat h) (Z.of_nat w)
            (refract_source t (Z.of_nat h, Z.of_nat w, c) d s y x).
  Proof.
    intros Hh Hw. unfold refract_source. apply offset_index_in_grid; lia.
  Qed.

  (** [refract] returns, and what it returns has the shape of its input:
      both of its gathers are handed indices within the grid. *)
Lemma refract_total (t : tensor) (h w c : nat) (d : Qc) (s : rng) :
    has_shape t h w c -> 0 < h -> 0 < w ->
    exists out,
      refract t (Z.of_nat h, Z.of_nat w, Z.of_nat c) d s
      = Ok (out, after_random 4 s) /\
      has_shape out h w c.
  Proof.
    intros Ht Hh Hw. rewrite (refract_table d s Ht Hh Hw).
    eexists. split; [reflexivity|].
    apply tabulate_shape. intros y x.
    apply (cell_at_length Ht). now apply refract_source_in_grid.
  Qed.
End OffsetIndexBounds.

(** C10.  For positive [height] and [width], every pair [offset_index]
    returns lies in [0, height) x [0, width), whatever the index grids
    hold; on index grids of one shape it does return; and [refract], whose
    two gathers read through such pairs, returns a grid of the shape of
    its input. *)
Theorem offset_index_within_grid :
  forall (E : Env) (y_index x_index : list (list Z)) (gh gw : nat)
         (height width : Z) (s : rng)
         (t : tensor) (h w c : nat) (displacement : Qc),
    (0 < height)%Z -> (0 < width)%Z ->
    field_shape y_index gh gw -> field_shape x_index gh gw ->
    has_shape t h w c -> 0 < h -> 0 < w ->
    (forall (yi xi : list (list Z)) (s0 s' : rng) (index : list (list (Z * Z))),
        offset_index yi height xi width s0 = Ok (index, s') ->
        Forall (Forall (in_grid height width)) index) /\
    (exists index s',
        offset_index y_index height x_index width s = Ok (index, s') /\
        field_shape index gh gw /\
        Forall (Forall (in_grid height width)) index) /\
    (exists out s',
        refract t (Z.of_nat h, Z.of_nat w, Z.of_nat c) displacement s
        = Ok (out, s') /\
        has_shape out h w c).
Proof.
  intros E y_index x_index gh gw height width s t h w c displacement
         Hh Hw Hy Hx Ht Hth Htw.
  split; [|split].
  - intros yi xi s0 s' index Hok. exact (offset_index_bounds _ _ _ Hh Hw Hok).
  - destruct (offset_index_total s Hh Hw Hy Hx) as [index [Hok Hshape]].
    exists index, (after_random 2 s). split; [exact Hok|]. split; [exact Hshape|].
    exact (offset_index_bounds _ _ _ Hh Hw Hok).
  - destruct (refract_total displacement s Ht Hth Htw) as [out [Hok Hshape]].
    now exists out, (after_random 4 s).
Qed.

Lemma offset_index_within_grid_witness :
  (0 < 2)%Z /\ (0 < 3)%Z /\
  field_shape (tabulate 2 3 (fun y _ => Z.of_nat y)) 2 3 /\
  field_shape (tabulate 2 3 (fun _ x => Z.of_nat x)) 2 3 /\
  has_shape (ramp 2 3) 2 3 1 /\ 0 < 2 /\ 0 < 3 /\
  ((forall (yi xi : list (list Z)) (s0 s' : rng) (index : list (list (Z * Z))),
       offset_index (E := demo_env) yi 2%Z xi 3%Z s0 = Ok (index, s') ->
       Forall (Forall (in_grid 2 3)) index) /\
   (exists index s',
       offset_index (E := demo_env) (tabulate 2 3 (fun y _ => Z.of_nat y)) 2%Z
                    (tabulate 2 3 (fun _ x => Z.of_nat x)) 3%Z rng0
       = Ok (index, s') /\
       field_shape index 2 3 /\
       Forall (Forall (in_grid 2 3)) index) /\
   (exists out s',
       refract (E := demo_env) (ramp 2 3)
               (Z.of_nat 2, Z.of_nat 3, Z.of_nat 1) Num.half rng0
       = Ok (out, s') /\
       has_shape out 2 3 1)).
Proof.
  assert (Ht : has_shape (ramp 2 3) 2 3 1) by shape_of_closed.
  split; [reflexivity|]. split; [reflexivity|].
  split; [apply tabulate_field_shape|]. split; [apply tabulate_field_shape|].
  split; [exact Ht|].
  split; [exact (Nat.lt_0_succ 1)|]. split; [exact (Nat.lt_0_succ 2)|].
  exact (@offset_index_within_grid demo_env
           (tabulate 2 3 (fun y _ => Z.of_nat y))
           (tabulate 2 3 (fun _ x => Z.of_nat x)) 2 3 2%Z 3%Z rng0
           (ramp 2 3) 2 3 1 Num.half eq_refl eq_refl
           (tabulate_field_shape 2 3 _) (tabulate_field_shape 2 3 _)
           Ht (Nat.lt_0_succ 1) (Nat.lt_0_succ 2)).
Defined.

(** ** Samples as rationals *)

Lemma this_plus (x y : Qc) : (this (x + y)%Qc == this x + this y)%Q.
Proof. apply this_Q2Qc. Qed.

Lemma this_mult (x y : Qc) : (this (x * y)%Qc == this x * this y)%Q.
Proof. apply this_Q2Qc. Qed.

Lemma this_opp (x : Qc) : (this (- x)%Qc == - this x)%Q.
Proof. apply this_Q2Qc. Qed.

Lemma this_minus (x y : Qc) : (this (x - y)%Qc == this x - this y)%Q.
Proof. unfold Qcminus. rewrite this_plus, this_opp. reflexivity. Qed.

Lemma this_ofZ (z : Z) : (this (Num.ofZ z) == inject_Z z)%Q.
Proof. apply this_Q2Qc. Qed.

Lemma this_half : (this Num.half == 1 # 2)%Q.
Proof. apply this_Q2Qc. Qed.

Lemma this_zero : (this 0%Qc == 0)%Q.
Proof. apply this_Q2Qc. Qed.

Lemma this_one : (this 1%Qc == 1)%Q.
Proof. apply this_Q2Qc. Qed.

(** Turn a goal on samples into one on rationals. *)
Ltac to_Q :=
  unfold Qcle, Qclt in *;
  repeat (rewrite ?this_plus, ?this_minus, ?this_mult, ?this_opp, ?this_ofZ,
           ?this_half, ?this_zero, ?this_one in * ).

Lemma inject_Z_pos (z : Z) : (0 < z)%Z -> (0 < inject_Z z)%Q.
Proof. intro H. change 0%Q with (inject_Z 0). now rewrite <- Zlt_Qlt. Qed.

Lemma trunc_floor (q : Qc) : (0 <= q)%Qc -> Num.trunc q = Qfloor q.
Proof.
  unfold Qcle, Num.trunc. destruct (this q) as [n d]. unfold Qle. simpl.
  intro H. apply Z.quot_div_nonneg; lia.
Qed.

Lemma trunc_lower (q : Qc) (a : Z) :
  (0 <= a)%Z -> (inject_Z a <= q)%Q -> (a <= Num.trunc q)%Z.
Proof.
  intros Ha Hq. rewrite trunc_floor.
  - rewrite <- (Qfloor_Z a). now apply Qfloor_resp_le.
  - unfold Qcle. rewrite this_zero.
    apply Qle_trans with (inject_Z a); [|exact Hq].
    change 0%Q with (inject_Z 0). now rewrite <- Zle_Qle.
Qed.

Lemma trunc_le_self (q : Qc) : (0 <= q)%Qc -> (inject_Z (Num.trunc q) <= q)%Q.
Proof. intro H. rewrite (trunc_floor H). apply Qfloor_le. Qed.

Lemma trunc_upper (q : Qc) (b : Z) :
  (0 <= q)%Qc -> (q < inject_Z b)%Q -> (Num.trunc q < b)%Z.
Proof.
  intros H0 Hq. rewrite Zlt_Qlt.
  apply Qle_lt_trans with q; [now apply trunc_le_self | exact Hq].
Qed.

Section OffsetBounds.
Context {E : Env}.


End OffsetBounds.

(** ** [refract] with no displacement *)

Lemma wrap32_small (z : Z) : (- 2 ^ 31 <= z < 2 ^ 31)%Z -> wrap32 z = z.
Proof.
  intro H. unfold wrap32. rewrite Z.mod_small; lia.
Qed.





Section RefractZero.
Context {E : Env}.

End RefractZero.

(** ** [reindex] with no displacement *)

Lemma this_div (x y : Qc) : (this (x / y)%Qc == this x / this y)%Q.
Proof.
  unfold Qcdiv, Qcinv. rewrite this_mult, this_Q2Qc. reflexivity.
Qed.












(** ** Worm positions *)

Lemma fmod_range (x m : Qc) :
  (0 < m)%Qc -> (0 <= Num.fmod x m)%Qc /\ (Num.fmod x m < m)%Qc.
Proof.
  intro Hm. unfold Num.fmod, Num.floor.
  set (f := Qfloor (x / m)%Qc).
  assert (Hlo : (inject_Z f <= this (x / m)%Qc)%Q) by apply Qfloor_le.
  assert (Hhi : (this (x / m)%Qc < inject_Z (f + 1))%Q) by apply Qlt_floor.
  rewrite inject_Z_plus in Hhi. change (inject_Z 1) with 1%Q in Hhi.
  assert (Hq : (this m * this (x / m)%Qc == this x)%Q).
  { rewrite this_div. apply Qmult_div_r.
    unfold Qclt in Hm. rewrite this_zero in Hm. intro Hz. rewrite Hz in Hm.
    exact (Qlt_irrefl _ Hm). }
  unfold Qclt in Hm. rewrite this_zero in Hm.
  set (q := this (x / m)%Qc) in *.
  split; to_Q; nra.
Qed.

Lemma cast_int32_range (y : Qc) (h : Z) :
  (0 <= y)%Qc -> (y < Num.ofZ h)%Qc -> (h <= 2 ^ 31)%Z ->
  (0 <= cast_int32 y < h)%Z.
Proof.
  intros H0 H1 Hb.
  assert (Hlo : (0 <= Num.trunc y)%Z).
  { apply trunc_lower; [lia|]. unfold Qcle in H0. now rewrite this_zero in H0. }
  assert (Hhi : (Num.trunc y < h)%Z).
  { apply trunc_upper; [exact H0|]. unfold Qclt in H1.
    now rewrite this_ofZ in H1. }
  unfold cast_int32. rewrite wrap32_small; lia.
Qed.

(** ** Gather and scatter through positions within the grid *)

Lemma gather_list_in_grid {A} (d : A) (t : list (list A)) (h w : nat)
      (index : list (Z * Z)) :
  field_shape t h w ->
  Forall (in_grid (Z.of_nat h) (Z.of_nat w)) index ->
  gather_list t index = Ok (map (cell_at d t) index).
Proof.
  intros Ht Hin. unfold gather_list. apply rmapM_ok. intros [y x] Hp.
  rewrite Forall_forall in Hin. destruct (Hin _ Hp) as [Hy Hx].
  cbn [fst snd] in *. now apply (gather_point_in d Ht).
Qed.

Lemma update_nth_length {A} (n : nat) (f : A -> A) (l : list A) :
  length (update_nth n f l) = length l.
Proof.
  revert n. induction l as [|a l IH]; intros [|n]; simpl; auto.
Qed.

Lemma update_nth_Forall {A} (P : A -> Prop) (n : nat) (f : A -> A) (l : list A) :
  (forall a, P a -> P (f a)) -> Forall P l -> Forall P (update_nth n f l).
Proof.
  intros Hf Hl. revert n. induction Hl as [|a l Ha Hl IH]; intros [|n]; simpl;
    constructor; auto.
Qed.

Lemma map2_length {A B C} (f : A -> B -> C) (l : list A) (m : list B) :
  length (map2 f l m) = Nat.min (length l) (length m).
Proof.
  revert m. induction l as [|a l IH]; intros [|b m]; simpl; auto.
Qed.

Lemma zeros_shape (h w c : nat) : has_shape (zeros h w c) h w c.
Proof.
  unfold zeros. split; [apply repeat_length|].
  apply Forall_forall. intros row Hrow. apply repeat_spec in Hrow. subst row.
  split; [apply repeat_length|].
  apply Forall_forall. intros px Hpx. apply repeat_spec in Hpx. subst px.
  apply repeat_length.
Qed.

Lemma scatter_into_shape (h w c : nat) (index : list (Z * Z)) :
  forall (updates : list pixel) (acc : tensor),
    has_shape acc h w c ->
    Forall (in_grid (Z.of_nat h) (Z.of_nat w)) index ->
    Forall (fun u : pixel => length u = c) updates ->
    exists out, scatter_into acc h w index updates = Ok out /\
                has_shape out h w c.
Proof.
  induction index as [|[y x] index IH]; intros updates acc Hacc Hin Hup.
  - exists acc. now split.
  - destruct updates as [|u updates]; [exists acc; now split|].
    inversion Hin as [|? ? [Hy Hx] Hin']; subst.
    inversion Hup as [|? ? Hu Hup']; subst. cbn [fst snd] in Hy, Hx.
    cbn [scatter_into].
    replace (0 <=? y)%Z with true by (symmetry; apply Z.leb_le; lia).
    replace (y <? Z.of_nat h)%Z with true by (symmetry; apply Z.ltb_lt; lia).
    replace (0 <=? x)%Z with true by (symmetry; apply Z.leb_le; lia).
    replace (x <? Z.of_nat w)%Z with true by (symmetry; apply Z.ltb_lt; lia).
    cbn [andb]. apply IH; [|exact Hin'|exact Hup'].
    destruct Hacc as [Hl Hr]. split.
    + now rewrite update_nth_length.
    + apply update_nth_Forall; [|exact Hr]. intros row [Hw Hc]. split.
      * now rewrite update_nth_length.
      * apply update_nth_Forall; [|exact Hc]. intros px Hpx.
        unfold padd. rewrite map2_length, Hpx. lia.
Qed.

Lemma zip_with_length {A B C} (f : A -> B -> C) (l : list A) (m : list B) :
  length l = length m ->
  exists r, zip_with f l m = Ok r /\ length r = length l.
Proof.
  revert m. induction l as [|a l IH]; intros [|b m] H; simpl in H;
    try discriminate.
  - exists []. now split.
  - destruct (IH m) as [r [Hr Hlen]]; [lia|].
    exists (f a b :: r). simpl. rewrite Hr. simpl. split; [reflexivity | lia].
Qed.

Lemma zip_with3_shape (f : Qc -> Qc -> Qc) (a b : tensor) (h w c : nat) :
  has_shape a h w c -> has_shape b h w c ->
  exists r, zip_with3 f a b = Ok r /\ has_shape r h w c.
Proof.
  revert b h. induction a as [|ra a IH]; intros b h [Hla Hra] [Hlb Hrb].
  - destruct b; [|simpl in *; lia]. exists []. split; [reflexivity|].
    split; [exact Hla | constructor].
  - destruct b as [|rb b]; [simpl in *; lia|].
    inversion Hra as [|? ? [Hwa Hca] Hra']; subst.
    inversion Hrb as [|? ? [Hwb Hcb] Hrb']; subst.
    assert (Hrow : exists r, zip_with2 f ra rb = Ok r /\ row_shape (length ra) c r).
    { clear -Hwb Hca Hcb. revert rb Hwb Hcb.
      induction Hca as [|pa ra Hpa Hca IHr]; intros [|pb rb] Hwb Hcb;
        simpl in Hwb; try discriminate.
      - exists []. split; [reflexivity|]. split; [reflexivity | constructor].
      - inversion Hcb as [|? ? Hpb Hcb']; subst.
        destruct (IHr rb) as [r [Hr [Hlen Hpx]]]; [lia | exact Hcb'|].
        destruct (zip_with_length f pa pb) as [p [Hp Hplen]]; [congruence|].
        exists (p :: r). cbn [zip_with2]. rewrite Hp. cbn [rbind].
        rewrite Hr. cbn [rbind]. split; [reflexivity|]. split.
        + simpl. now rewrite Hlen.
        + constructor; [exact Hplen | exact Hpx]. }
    destruct Hrow as [r [Hr Hrs]].
    destruct (IH b (length a)) as [rs [Hrs' [Hl' Hr']]];
      [now split | split; [simpl in *; lia | exact Hrb']|].
    exists (r :: rs). cbn [zip_with3]. rewrite Hr. cbn [rbind].
    rewrite Hrs'. cbn [rbind]. split; [reflexivity|]. split.
    + simpl. now rewrite Hl'.
    + constructor; assumption.
Qed.

(** ** The worm loop *)

Lemma for_each_invariant {A S} (Inv : S -> Prop) (body : A -> S -> result S)
      (l : list A) (s : S) :
  (forall a s, Inv s -> exists s', body a s = Ok s' /\ Inv s') ->
  Inv s -> exists s', for_each l body s = Ok s' /\ Inv s'.
Proof.
  intro Hbody. revert s. induction l as [|a l IH]; intros s Hs.
  - exists s. now split.
  - destruct (Hbody a s Hs) as [s1 [H1 Hs1]]. simpl. rewrite H1. simpl.
    now apply IH.
Qed.

Lemma worm_positions_in_grid (h w : Z) (n : nat) (ys xs : list Qc) :
  (h <= 2 ^ 31)%Z -> (w <= 2 ^ 31)%Z -> agents_in h w n ys xs ->
  Forall (in_grid h w) (worm_positions ys xs) /\
  length (worm_positions ys xs) = n.
Proof.
  intros Hh Hw [Hly [Hlx [Hy Hx]]]. unfold worm_positions. split.
  - clear Hly Hlx. revert xs Hx.
    induction Hy as [|y ys [Hy0 Hy1] Hy IH]; intros xs Hx; [constructor|].
    destruct Hx as [|x xs [Hx0 Hx1] Hx]; [constructor|].
    simpl. constructor; [|now apply IH].
    split; cbn [fst snd]; now apply cast_int32_range.
  - rewrite map2_length. lia.
Qed.

Lemma Forall_map2 {A B C} (P : C -> Prop) (f : A -> B -> C)
      (l : list A) (m : list B) :
  (forall a b, P (f a b)) -> Forall P (map2 f l m).
Proof.
  intro H. revert m. induction l as [|a l IH]; intros [|b m]; simpl;
    constructor; auto.
Qed.

Lemma exposure_ok (i iterations : Z) :
  iterations <> 1%Z -> exists e, exposure i iterations = Ok e.
Proof.
  intro H. unfold exposure.
  replace (iterations - 1 =? 0)%Z with false by (symmetry; apply Z.eqb_neq; lia).
  eexists. reflexivity.
Qed.

Lemma exposure_one (i : Z) : exposure i 1 = Raise ZeroDivisionError.
Proof. reflexivity. Qed.

Section WormStep.
Context {E : Env}.

Variables (t : tensor) (h w c n : nat).
Hypothesis Ht : has_shape t h w c.
Hypothesis Hh : 0 < h.
Hypothesis Hw : 0 < w.
Hypothesis Hhb : (Z.of_nat h <= 2 ^ 31)%Z.
Hypothesis Hwb : (Z.of_nat w <= 2 ^ 31)%Z.

Lemma worms_step_keeps (iterations : Z) (colors : list pixel)
        (index : field) (rot stride : list Qc) (i : Z) (s : worm_state) :
    iterations <> 1%Z ->
    Forall (fun u : pixel => length u = c) colors ->
    field_shape index h w ->
    length rot = n -> length stride = n ->
    worm_invariant h w c n s ->
    exists s',
      worms_step (Z.of_nat h) (Z.of_nat w) iterations colors index rot stride
                 (dims t) i s = Ok s' /\
      worm_invariant h w c n s'.
  Proof.
    intros Hit Hcol Hidx Hrot Hstr [Hout Hag].
    destruct (worm_positions_in_grid Hhb Hwb Hag) as [Hpos Hplen].
    destruct (exposure_ok i Hit) as [e He].
    unfold worms_step. rewrite He. cbn [rbind].
    rewrite (dims_shape Ht Hh Hw). unfold scatter_nd.
    destruct (@scatter_into_shape h w c (worm_positions (ws_y s) (ws_x s))
                (map (scale e) colors) (zeros h w c) (zeros_shape h w c) Hpos)
      as [sc [Hsc Hscs]].
    { apply Forall_map. eapply Forall_impl; [|exact Hcol].
      intros u Hu. unfold scale. change (length (map (fun v => (v * e)%Qc) u) = c).
      now rewrite length_map. }
    rewrite Hsc. cbn [rbind].
    destruct (zip_with3_shape Qcplus Hout Hscs) as [out [Hz Hzs]].
    rewrite Hz. cbn [rbind].
    rewrite (gather_list_in_grid 0%Qc Hidx Hpos). cbn [rbind].
    eexists. split; [reflexivity|].
    destruct Hag as [Hly [Hlx _]].
    split; [exact Hzs|]. cbn [ws_out ws_y ws_x].
    assert (Hmh : (0 < Num.ofZ (Z.of_nat h))%Qc)
      by (unfold Qclt; rewrite this_zero, this_ofZ; apply inject_Z_pos; lia).
    assert (Hmw : (0 < Num.ofZ (Z.of_nat w))%Qc)
      by (unfold Qclt; rewrite this_zero, this_ofZ; apply inject_Z_pos; lia).
    repeat split.
    - rewrite !map2_length, length_map, map2_length, length_map. lia.
    - rewrite !map2_length, length_map, map2_length, length_map. lia.
    - apply Forall_map2. intros y d. now apply fmod_range.
    - apply Forall_map2. intros x d. now apply fmod_range.
  Qed.
End WormStep.

Lemma trunc_nonneg (q : Qc) : (0 <= q)%Qc -> (0 <= Num.trunc q)%Z.
Proof.
  intro H. apply trunc_lower; [lia|]. unfold Qcle in H.
  now rewrite this_zero in H.
Qed.

Section WormSetup.
Context {E : Env}.

Lemma uniform_agents (height : Z) (start n : nat) :
    uniform_unit E -> (0 < height)%Z ->
    Forall (fun y => (0 <= y)%Qc /\ (y < Num.ofZ height)%Qc)
           (map (fun v => (v * Num.ofZ height)%Qc)
                (map tf_uniform (seq start n))).
  Proof.
    intros Hu Hh. apply Forall_map. apply Forall_map. apply Forall_forall.
    intros i _. destruct (Hu i) as [H0 H1].
    pose proof (inject_Z_pos Hh) as HQ.
    split; to_Q; nra.
  Qed.

  (** [worms] up to its loop: on a grid that is not empty it draws its
      agents within the grid and reads their colours; what is left is the
      heading bias, the iteration count and the loop. *)
Lemma worms_setup (t : tensor) (h w c : nat) (behavior : behavior_arg)
        (density duration stride stride_deviation bg : Qc) (s : rng) :
    let shape := (Z.of_nat h, Z.of_nat w, Z.of_nat c) in
    let n := Z.to_nat (worm_count shape density) in
    has_shape t h w c -> 0 < h -> 0 < w ->
    (Z.of_nat h <= 2 ^ 31)%Z -> (Z.of_nat w <= 2 ^ 31)%Z ->
    uniform_unit E -> (0 <= worm_count shape density)%Z ->
    exists (wy wx strd : list Qc) (colors : list pixel) (s3 : rng),
      agents_in (Z.of_nat h) (Z.of_nat w) n wy wx /\
      length strd = n /\
      Forall (fun u : pixel => length u = c) colors /\
      worms t shape behavior density duration stride stride_deviation bg s
      = match worms_rot behavior (worm_count shape density) s3 with
        | Raise e => Raise e
        | Ok (rot, s4) =>
            match worm_iterations shape duration with
            | Raise e => Raise e
            | Ok iterations =>
                match for_each (range iterations)
                        (worms_step (Z.of_nat h) (Z.of_nat w) iterations colors
                           (scale radians1
                              (scale (Num.ofZ 360) (value_map t shape)))
                           rot strd (dims t))
                        {| ws_out := scale bg t; ws_y := wy; ws_x := wx |}
                with
                | Raise e => Raise e
                | Ok st => Ok (normalize (ws_out st), s4)
                end
            end
        end.
  Proof.
    intros shape n Ht Hh Hw Hhb Hwb Hu Hc.
    set (wy := map (fun v => (v * Num.ofZ (Z.of_nat h))%Qc)
                   (map tf_uniform (seq (uni_i s) n))).
    set (wx := map (fun v => (v * Num.ofZ (Z.of_nat w))%Qc)
                   (map tf_uniform (seq (uni_i s + n) n))).
    assert (Hag : agents_in (Z.of_nat h) (Z.of_nat w) n wy wx).
    { split; [|split; [|split]].
      - subst wy. now rewrite !length_map, length_seq.
      - subst wx. now rewrite !length_map, length_seq.
      - apply uniform_agents; [exact Hu | lia].
      - apply uniform_agents; [exact Hu | lia]. }
    destruct (worm_positions_in_grid Hhb Hwb Hag) as [Hpos Hplen].
    exists wy, wx,
      (map (fun i => (tf_normal i * stride_deviation + stride)%Qc)
           (seq (nrm_i s) n)),
      (map (cell_at [] t) (worm_positions wy wx)),
      {| py_i := py_i s; uni_i := uni_i s + n + n; nrm_i := nrm_i s + n |}.
    split; [exact Hag|]. split; [now rewrite length_map, length_seq|].
    split.
    { apply Forall_map. eapply Forall_impl; [|exact Hpos].
      intros p Hp. now apply (cell_at_length Ht). }
    unfold worms. subst shape. cbv beta iota zeta.
    unfold worm_count in Hc, n. cbv beta iota zeta in Hc, n.
    unfold bind at 1. unfold random_uniform at 1.
    replace (Num.trunc (round64 (Num.ofZ (Z.max (Z.of_nat w) (Z.of_nat h)) * density)) <? 0)%Z
      with false by (symmetry; apply Z.ltb_ge; exact Hc).
    fold n. unfold bind at 1. unfold random_uniform at 1.
    replace (Num.trunc (round64 (Num.ofZ (Z.max (Z.of_nat w) (Z.of_nat h)) * density)) <? 0)%Z
      with false by (symmetry; apply Z.ltb_ge; exact Hc).
    fold n. cbn [py_i uni_i nrm_i].
    unfold bind at 1. unfold random_normal at 1.
    replace (Num.trunc (round64 (Num.ofZ (Z.max (Z.of_nat w) (Z.of_nat h)) * density)) <? 0)%Z
      with false by (symmetry; apply Z.ltb_ge; exact Hc).
    fold n. cbn [py_i uni_i nrm_i].
    unfold bind at 1. unfold lift at 1.
    fold wy. fold wx.
    rewrite (gather_list_in_grid ([] : pixel) (has_shape_field Ht) Hpos).
    unfold bind at 1.
    unfold worm_count. cbv beta iota zeta.
    destruct (worms_rot behavior _ _) as [[rot s4]|e]; [|reflexivity].
    unfold bind at 1. unfold lift at 1.
    destruct (worm_iterations _ duration) as [iterations|e]; [|reflexivity].
    unfold bind at 1. unfold lift at 1.
    destruct (for_each _ _ _) as [st|e]; reflexivity.
  Qed.
End WormSetup.

Section WormBehaviors.
Context {E : Env}.

Lemma random_normal_ok (count : Z) (mean stddev : Qc) (s : rng) :
    (0 <= count)%Z ->
    exists r s', random_normal count mean stddev s = Ok (r, s') /\
                 length r = Z.to_nat count.
  Proof.
    intro Hc. unfold random_normal.
    replace (count <? 0)%Z with false by (symmetry; apply Z.ltb_ge; exact Hc).
    eexists. eexists. split; [reflexivity|].
    now rewrite length_map, length_seq.
  Qed.

  (** Anything that is no integer and no member takes the last branch of
      the dispatch, the one [unruly] takes: a normal sample per agent. *)
Lemma worms_rot_fallback (count : Z) (s : rng) :
    worms_rot BehaviorOther count s = random_normal count 0%Qc 1%Qc s /\
    worms_rot (BehaviorEnum unruly) count s = random_normal count 0%Qc 1%Qc s.
  Proof.
    unfold worms_rot, bind, lift. split; reflexivity.
  Qed.

  (** An integer that is the value of no member is refused. *)
Lemma worms_rot_unknown (z count : Z) (s : rng) :
    ~ (0 <= z <= 3)%Z -> worms_rot (BehaviorInt z) count s = Raise ValueError.
  Proof.
    intro Hz. unfold worms_rot, bind, lift, WormBehavior_of_int.
    replace (z =? 0)%Z with false by (symmetry; apply Z.eqb_neq; lia).
    replace (z =? 1)%Z with false by (symmetry; apply Z.eqb_neq; lia).
    replace (z =? 2)%Z with false by (symmetry; apply Z.eqb_neq; lia).
    replace (z =? 3)%Z with false by (symmetry; apply Z.eqb_neq; lia).
    reflexivity.
  Qed.

Lemma worms_rot_enum (b : WormBehavior) (count : Z) (s : rng) :
    (0 <= count)%Z ->
    exists rot s', worms_rot (BehaviorEnum b) count s = Ok (rot, s') /\
                   length rot = Z.to_nat count.
  Proof.
    intro Hc. unfold worms_rot. unfold bind at 1. unfold lift at 1.
    destruct b.
    - unfold lift, tf_zeros.
      replace (count <? 0)%Z with false by (symmetry; apply Z.ltb_ge; exact Hc).
      eexists. eexists. split; [reflexivity | apply repeat_length].
    - destruct (random_normal_ok 0%Qc 1%Qc s Hc) as [r [s' [Hr Hl]]].
      unfold bind. rewrite Hr. eexists. eexists. split; [reflexivity|].
      now rewrite length_map.
    - exact (random_normal_ok 0%Qc 1%Qc s Hc).
    - destruct (random_normal_ok 0%Qc 1%Qc s Hc) as [r [s' [Hr Hl]]].
      unfold bind. rewrite Hr. eexists. eexists. split; [reflexivity|].
      now rewrite length_map.
  Qed.

Lemma worms_rot_known (b : behavior_arg) (count : Z) (s : rng) :
    known_behavior b -> (0 <= count)%Z ->
    exists rot s', worms_rot b count s = Ok (rot, s') /\
                   length rot = Z.to_nat count.
  Proof.
    intros Hb Hc. destruct b as [z|b|].
    - simpl in Hb.
      assert (Hz : z = 0%Z \/ z = 1%Z \/ z = 2%Z \/ z = 3%Z) by lia.
      destruct Hz as [-> | [-> | [-> | ->]]].
      + exact (worms_rot_enum obedient s Hc).
      + exact (worms_rot_enum crosshatch s Hc).
      + exact (worms_rot_enum unruly s Hc).
      + exact (worms_rot_enum chaotic s Hc).
    - exact (worms_rot_enum b s Hc).
    - rewrite (proj1 (worms_rot_fallback count s)).
      exact (random_normal_ok 0%Qc 1%Qc s Hc).
  Qed.

Lemma worm_iterations_nat (h w : nat) (c : Z) (duration : Qc) :
    worm_iterations (Z.of_nat h, Z.of_nat w, c) duration
    = Ok (iteration_count (Z.of_nat h, Z.of_nat w, c) duration).
  Proof.
    unfold worm_iterations, iteration_count.
    replace (Z.min (Z.of_nat w) (Z.of_nat h) <? 0)%Z with false
      by (symmetry; apply Z.ltb_ge; lia).
    reflexivity.
  Qed.
End WormBehaviors.

Lemma scale_field_shape (k : Qc) (g : field) (h w : nat) :
  field_shape g h w -> field_shape (scale k g) h w.
Proof. intro H. unfold scale. rewrite tmap_field. now apply map_grid_field_shape. Qed.

Lemma zip_with_zeros (p : pixel) :
  zip_with Qcplus p (repeat 0%Qc (length p)) = Ok p.
Proof.
  induction p as [|v p IH]; simpl; [reflexivity|].
  rewrite IH. simpl. now rewrite Qcplus_0_r.
Qed.

Lemma zip_with2_zeros (row : list pixel) (c : nat) :
  Forall (fun px : pixel => length px = c) row ->
  zip_with2 Qcplus row (repeat (repeat 0%Qc c) (length row)) = Ok row.
Proof.
  induction 1 as [|px row Hpx Hrow IH]; simpl; [reflexivity|].
  pose proof (zip_with_zeros px) as Hz. unfold pixel in *. rewrite Hpx in Hz.
  rewrite Hz. simpl. rewrite IH. reflexivity.
Qed.

(** Adding the empty canvas changes nothing. *)
Lemma zip_with3_zeros (t : tensor) (h w c : nat) :
  has_shape t h w c -> zip_with3 Qcplus t (zeros h w c) = Ok t.
Proof.
  intros [Hl Hr]. subst h. unfold zeros.
  induction Hr as [|row t [Hw Hc] Hr IH]; simpl; [reflexivity|].
  pose proof (zip_with2_zeros Hc) as Hz. unfold pixel in *. rewrite Hw in Hz.
  rewrite Hz. simpl. rewrite IH. reflexivity.
Qed.

Section WormRuns.
Context {E : Env}.

Variables (t : tensor) (h w c : nat).
Variables (behavior : behavior_arg).
Variables (density duration stride stride_deviation bg : Qc).
Variable (s : rng).

Local Abbreviation shape := (Z.of_nat h, Z.of_nat w, Z.of_nat c).

Hypothesis Ht : has_shape t h w c.
Hypothesis Hh : 0 < h.
Hypothesis Hw : 0 < w.
Hypothesis Hhb : (Z.of_nat h <= 2 ^ 31)%Z.
Hypothesis Hwb : (Z.of_nat w <= 2 ^ 31)%Z.
Hypothesis Hu : uniform_unit E.
Hypothesis Hc : (0 <= worm_count shape density)%Z.

  (** With an iteration count of exactly 1 the first turn divides by
      zero. *)
Lemma worms_one_iteration :
    known_behavior behavior ->
    iteration_count shape duration = 1%Z ->
    worms t shape behavior density duration stride stride_deviation bg s
    = Raise ZeroDivisionError.
  Proof.
    intros Hb Hit.
    destruct (worms_setup behavior density duration stride stride_deviation
                bg s Ht Hh Hw Hhb Hwb Hu Hc)
      as [wy [wx [strd [colors [s3 [Hag [Hstr [Hcol Heq]]]]]]]].
    rewrite Heq.
    destruct (@worms_rot_known E behavior _ s3 Hb Hc) as [rot [s4 [Hrot Hrl]]].
    rewrite Hrot. rewrite worm_iterations_nat.
    rewrite Hit. reflexivity.
  Qed.

  (** With any other iteration count every turn keeps the agents within
      the grid, and [worms] returns a grid of the shape of its input. *)
Lemma worms_returns :
    known_behavior behavior ->
    iteration_count shape duration <> 1%Z ->
    exists out s',
      worms t shape behavior density duration stride stride_deviation bg s
      = Ok (out, s') /\
      has_shape out h w c.
  Proof.
    intros Hb Hit.
    destruct (worms_setup behavior density duration stride stride_deviation
                bg s Ht Hh Hw Hhb Hwb Hu Hc)
      as [wy [wx [strd [colors [s3 [Hag [Hstr [Hcol Heq]]]]]]]].
    rewrite Heq.
    destruct (@worms_rot_known E behavior _ s3 Hb Hc) as [rot [s4 [Hrot Hrl]]].
    rewrite Hrot. rewrite worm_iterations_nat.
    set (n := Z.to_nat (worm_count shape density)) in *.
    destruct (for_each_invariant (worm_invariant h w c n)
                (worms_step (Z.of_nat h) (Z.of_nat w)
                   (iteration_count shape duration) colors
                   (scale radians1 (scale (Num.ofZ 360) (value_map t shape)))
                   rot strd (dims t))
                (range (iteration_count shape duration))
                {| ws_out := scale bg t; ws_y := wy; ws_x := wx |})
      as [st [Hst [Hout _]]].
    - intros i st Hinv.
      eapply worms_step_keeps; try eassumption.
      apply scale_field_shape. apply scale_field_shape.
      now apply value_map_shape with c.
    - split; [|exact Hag]. cbn [ws_out]. now apply tmap_shape.
    - rewrite Hst. exists (normalize (ws_out st)), s4.
      split; [reflexivity|]. now apply normalize_shape.
  Qed.

  (** With no agent every turn leaves the canvas as it is: the result is
      the dimmed background, converted and normalized. *)
Lemma worms_no_agents :
    known_behavior behavior ->
    worm_count shape density = 0%Z ->
    iteration_count shape duration <> 1%Z ->
    exists s',
      worms t shape behavior density duration stride stride_deviation bg s
      = Ok (normalize (convert_image_dtype_float32 (scale bg t)), s').
  Proof.
    intros Hb Hz Hit.
    destruct (worms_setup behavior density duration stride stride_deviation
                bg s Ht Hh Hw Hhb Hwb Hu Hc)
      as [wy [wx [strd [colors [s3 [Hag [Hstr [Hcol Heq]]]]]]]].
    rewrite Heq.
    destruct (@worms_rot_known E behavior _ s3 Hb Hc) as [rot [s4 [Hrot Hrl]]].
    rewrite Hrot. rewrite worm_iterations_nat.
    rewrite Hz in Hag. destruct Hag as [Hly [Hlx _]].
    cbn in Hly, Hlx.
    apply length_zero_iff_nil in Hly, Hlx. subst wy wx.
    rewrite (dims_shape Ht Hh Hw).
    assert (Hs : has_shape (scale bg t) h w c) by (apply tmap_shape; exact Ht).
    assert (Hloop : forall l,
               for_each l
                 (worms_step (Z.of_nat h) (Z.of_nat w)
                    (iteration_count shape duration) colors
                    (scale radians1 (scale (Num.ofZ 360) (value_map t shape)))
                    rot strd (h, w, c))
                 {| ws_out := scale bg t; ws_y := []; ws_x := [] |}
               = Ok {| ws_out := scale bg t; ws_y := []; ws_x := [] |}).
    { induction l as [|i l IH]; [reflexivity|]. cbn [for_each].
      unfold worms_step at 1. cbn [ws_y ws_x ws_out worm_positions map2].
      destruct (exposure_ok i Hit) as [e ->]. cbn [rbind].
      cbn [scatter_nd scatter_into rbind].
      rewrite (zip_with3_zeros Hs).
      cbn [rbind gather_list rmapM map map2]. exact IH. }
    rewrite Hloop. exists s4. reflexivity.
  Qed.
End WormRuns.

Lemma demo_uniform_unit : uniform_unit demo_env.
Proof.
  intro n. cbn [tf_uniform demo_env]. unfold Qcle, Qclt.
  rewrite !this_Q2Qc. unfold Qle, Qlt. simpl. lia.
Qed.

Lemma sample_grid_shape : has_shape sample_grid 2 2 1.
Proof. shape_of_closed. Qed.

(** ** The exposure envelope *)

Section WormTurns.
Context {E : Env}.

Variables (t : tensor) (h w c : nat).
Variables (behavior : behavior_arg).
Variables (density duration stride stride_deviation bg : Qc).
Variable (s : rng).

Local Abbreviation shape := (Z.of_nat h, Z.of_nat w, Z.of_nat c).

Hypothesis Ht : has_shape t h w c.
Hypothesis Hh : 0 < h.
Hypothesis Hw : 0 < w.
Hypothesis Hhb : (Z.of_nat h <= 2 ^ 31)%Z.
Hypothesis Hwb : (Z.of_nat w <= 2 ^ 31)%Z.
Hypothesis Hu : uniform_unit E.
Hypothesis Hc : (0 <= worm_count shape density)%Z.

(** With an iteration count of 0 (or below) the loop has no turn: the
    result is the dimmed background, converted and normalized. *)
Lemma worms_no_turns :
  known_behavior behavior ->
  (iteration_count shape duration <= 0)%Z ->
  exists s',
    worms t shape behavior density duration stride stride_deviation bg s
    = Ok (normalize (convert_image_dtype_float32 (scale bg t)), s').
Proof.
  intros Hb Hit.
  destruct (worms_setup behavior density duration stride stride_deviation
              bg s Ht Hh Hw Hhb Hwb Hu Hc)
    as [wy [wx [strd [colors [s3 [Hag [Hstr [Hcol Heq]]]]]]]].
  rewrite Heq.
  destruct (@worms_rot_known E behavior _ s3 Hb Hc) as [rot [s4 [Hrot Hrl]]].
  rewrite Hrot. rewrite worm_iterations_nat.
  unfold range. replace (Z.to_nat (iteration_count shape duration)) with 0 by lia.
  cbn [seq map for_each]. exists s4. reflexivity.
Qed.
End WormTurns.

(** C9.  On a grid that is not empty, with a non-negative number of agents
    and a behavior the dispatch accepts, [worms] raises
    [ZeroDivisionError] whenever the iteration count
    [int(sqrt(min(width, height)) * duration)] is exactly 1: the envelope
    of the only turn divides the index by [iterations - 1].  With a count
    of 0 the loop has no turn and [worms] returns the dimmed background,
    normalized. *)
Theorem worms_exposure_division :
  forall (E : Env) (t : tensor) (h w c : nat) (behavior : behavior_arg)
         (density duration stride stride_deviation bg : Qc) (s : rng),
    has_shape t h w c -> 0 < h -> 0 < w ->
    (Z.of_nat h <= 2 ^ 31)%Z -> (Z.of_nat w <= 2 ^ 31)%Z ->
    uniform_unit E ->
    (0 <= worm_count (Z.of_nat h, Z.of_nat w, Z.of_nat c) density)%Z ->
    known_behavior behavior ->
    (iteration_count (Z.of_nat h, Z.of_nat w, Z.of_nat c) duration = 1%Z ->
     worms t (Z.of_nat h, Z.of_nat w, Z.of_nat c) behavior density duration
           stride stride_deviation bg s
     = Raise ZeroDivisionError) /\
    (iteration_count (Z.of_nat h, Z.of_nat w, Z.of_nat c) duration = 0%Z ->
     exists s',
       worms t (Z.of_nat h, Z.of_nat w, Z.of_nat c) behavior density duration
             stride stride_deviation bg s
       = Ok (normalize (convert_image_dtype_float32 (scale bg t)), s')).
Proof.
  intros E t h w c behavior density duration stride stride_deviation bg s
         Ht Hh Hw Hhb Hwb Hu Hc Hb.
  split.
  - intro Hit.
    exact (worms_one_iteration behavior density duration stride
             stride_deviation bg s Ht Hh Hw Hhb Hwb Hu Hc Hb Hit).
  - intro Hit.
    apply (worms_no_turns behavior density duration stride
             stride_deviation bg s Ht Hh Hw Hhb Hwb Hu Hc Hb).
    lia.
Qed.

Lemma worms_exposure_division_witness :
  has_shape sample_grid 2 2 1 /\ 0 < 2 /\
  (Z.of_nat 2 <= 2 ^ 31)%Z /\
  uniform_unit demo_env /\
  (0 <= worm_count (E := demo_env) (Z.of_nat 2, Z.of_nat 2, Z.of_nat 1) 1%Qc)%Z /\
  known_behavior (BehaviorInt 0) /\
  iteration_count (E := demo_env) (Z.of_nat 2, Z.of_nat 2, Z.of_nat 1) 1%Qc = 1%Z /\
  worms (E := demo_env) sample_grid (Z.of_nat 2, Z.of_nat 2, Z.of_nat 1)
        (BehaviorInt 0) 1%Qc 1%Qc 1%Qc (Q2Qc (5 # 100)) Num.half rng0
  = Raise ZeroDivisionError.
Proof.
  split; [exact sample_grid_shape|].
  split; [exact (Nat.lt_0_succ 1)|].
  split; [vm_compute; discriminate|].
  split; [exact demo_uniform_unit|].
  split; [vm_compute; discriminate|].
  split; [simpl; lia|].
  split; [vm_compute; reflexivity|].
  refine (proj1 (@worms_exposure_division demo_env sample_grid 2 2 1
                   (BehaviorInt 0) 1%Qc 1%Qc 1%Qc (Q2Qc (5 # 100)) Num.half rng0
                   sample_grid_shape (Nat.lt_0_succ 1) (Nat.lt_0_succ 1)
                   _ _ demo_uniform_unit _ _) _).
  - vm_compute; discriminate.
  - vm_compute; discriminate.
  - vm_compute; discriminate.
  - simpl; lia.
  - vm_compute; reflexivity.
Defined.

(** ** Crease and blend *)

Lemma this_two : (this Num.two == 2)%Q.
Proof. unfold Num.two. rewrite this_ofZ. reflexivity. Qed.

Lemma abs_cases (x : Qc) :
  ((0 <= x)%Qc /\ Num.abs x = x) \/ ((x < 0)%Qc /\ Num.abs x = (- x)%Qc).
Proof.
  unfold Num.abs. destruct (Num.leb 0%Qc x) eqn:L.
  - left. split; [now apply leb_le | reflexivity].
  - right. split; [now apply leb_gt | reflexivity].
Qed.

Lemma crease_sample_unit (v : Qc) :
  unit_sample v -> unit_sample (1 - Num.abs (v * Num.two - 1))%Qc.
Proof.
  intros [H0 H1]. unfold unit_sample.
  destruct (abs_cases (v * Num.two - 1)%Qc) as [[Hs ->]|[Hs ->]];
    split; to_Q; rewrite ?this_two in *; lra.
Qed.

(** X1.  [crease] keeps the unit interval: a grid with samples in [0,1]
    is sent to a grid with samples in [0,1]; the midpoint 1/2 is sent to
    1, the top of the ridge, and the two ends 0 and 1 are sent to 0. *)
Theorem crease_folds_unit_interval :
  forall (T : Type) (HT : Tensorial T) (t : T),
    (Forall unit_sample (flat t) -> Forall unit_sample (flat (crease t))) /\
    crease Num.half = 1%Qc /\
    crease 0%Qc = 0%Qc /\ crease 1%Qc = 0%Qc.
Proof.
  intros T HT t. split; [|split; [|split]].
  - intro H. unfold crease. rewrite flat_tmap. apply Forall_map.
    revert H. apply Forall_impl. intros v Hv. now apply crease_sample_unit.
  - apply Qc_is_canon. vm_compute. reflexivity.
  - apply Qc_is_canon. vm_compute. reflexivity.
  - apply Qc_is_canon. vm_compute. reflexivity.
Qed.

Lemma zip_with_nth {A B C} (f : A -> B -> C) (da : A) (db : B) (dc : C)
      (l : list A) (m : list B) (r : list C) (i : nat) :
  zip_with f l m = Ok r -> i < length l ->
  nth i r dc = f (nth i l da) (nth i m db).
Proof.
  revert m r i. induction l as [|a l IH]; intros [|b m] r i H Hi;
    simpl in *; try discriminate; try lia.
  destruct (zip_with f l m) as [r'|e] eqn:Hz; simpl in H; [|discriminate].
  inversion H; subst. destruct i as [|i]; [reflexivity|].
  simpl. apply (IH m r' i Hz). lia.
Qed.

Lemma zip_with2_nth {A B C} (f : A -> B -> C) (da : A) (db : B) (dc : C)
      (l : list (list A)) (m : list (list B)) (r : list (list C)) (y x : nat) :
  zip_with2 f l m = Ok r -> y < length l -> x < length (nth y l []) ->
  nth x (nth y r []) dc = f (nth x (nth y l []) da) (nth x (nth y m []) db).
Proof.
  revert m r y. induction l as [|a l IH]; intros [|b m] r y H Hy Hx;
    simpl in *; try discriminate; try lia.
  destruct (zip_with f a b) as [r0|e] eqn:Hz0; simpl in H; [|discriminate].
  destruct (zip_with2 f l m) as [r'|e] eqn:Hz; simpl in H; [|discriminate].
  inversion H; subst. destruct y as [|y].
  - simpl. now apply (zip_with_nth f da db dc a b).
  - simpl. apply (IH m r' y Hz); [lia | exact Hx].
Qed.

Lemma zip_with3_sample (f : Qc -> Qc -> Qc) (a b r : tensor) (h w c : nat)
      (y x ch : nat) :
  has_shape a h w c -> zip_with3 f a b = Ok r ->
  y < h -> x < w -> ch < c ->
  sample r y x ch = f (sample a y x ch) (sample b y x ch).
Proof.
  intros [Hl Hr]. subst h. revert b r y Hr.
  induction a as [|ra a IH]; intros [|rb b] r y Hr H Hy Hx Hc;
    simpl in *; try discriminate; try lia.
  destruct (zip_with2 f ra rb) as [r0|e] eqn:Hz0; simpl in H; [|discriminate].
  destruct (zip_with3 f a b) as [r'|e] eqn:Hz; simpl in H; [|discriminate].
  inversion H; subst. inversion Hr as [|? ? [Hw Hpx] Hrest]; subst.
  destruct y as [|y].
  - unfold sample. simpl.
    eapply zip_with2_nth; [exact Hz0 | lia |].
    rewrite Forall_forall in Hpx.
    specialize (Hpx (nth x ra []) (nth_In _ _ Hx)).
    unfold pixel in *. lia.
  - unfold sample in *. simpl. apply (IH b r' y Hrest Hz); lia.
Qed.

Lemma tmap_sample (f : Qc -> Qc) (t : tensor) (h w c : nat) (y x ch : nat) :
  has_shape t h w c -> y < h -> x < w -> ch < c ->
  sample (tmap f t) y x ch = f (sample t y x ch).
Proof.
  intros [Hl Hr] Hy Hx Hc. unfold sample. rewrite tmap_tensor.
  unfold tensor, pixel in *.
  rewrite Forall_forall in Hr.
  assert (Hrow : In (nth y t []) t) by (apply nth_In; lia).
  destruct (Hr _ Hrow) as [Hw Hpx]. rewrite Forall_forall in Hpx.
  assert (Hin : In (nth x (nth y t []) []) (nth y t []))
    by (apply nth_In; lia).
  specialize (Hpx _ Hin).
  rewrite (nth_indep (map (map (map f)) t) [] (map (map f) []))
    by (rewrite length_map; lia).
  rewrite map_nth.
  rewrite (nth_indep (map (map f) (nth y t [])) [] (map f []))
    by (rewrite length_map; lia).
  rewrite map_nth.
  rewrite (nth_indep (map f (nth x (nth y t []) [])) 0%Qc (f 0%Qc))
    by (rewrite length_map; unfold pixel in *; lia).
  now rewrite map_nth.
Qed.

(** X2.  On three grids of one shape [blend a b g] returns a grid of that
    shape, which holds [a]'s sample wherever the sample of [g] is 0 and
    [b]'s sample wherever the sample of [g] is 1. *)
Theorem blend_interpolates :
  forall (a b g : tensor) (h w c : nat),
    has_shape a h w c -> has_shape b h w c -> has_shape g h w c ->
    exists r,
      blend a b g = Ok r /\ has_shape r h w c /\
      forall y x ch, y < h -> x < w -> ch < c ->
        (sample g y x ch = 0%Qc -> sample r y x ch = sample a y x ch) /\
        (sample g y x ch = 1%Qc -> sample r y x ch = sample b y x ch).
Proof.
  intros a b g h w c Ha Hb Hg. unfold blend.
  assert (Hg' : has_shape (tmap (fun k => (1 - k)%Qc) g) h w c)
    by now apply tmap_shape.
  destruct (zip_with3_shape Qcmult Ha Hg') as [ag [Hag Sag]].
  destruct (zip_with3_shape Qcmult Hb Hg) as [bg [Hbg Sbg]].
  destruct (zip_with3_shape Qcplus Sag Sbg) as [r [Hr Sr]].
  rewrite Hag, Hbg. cbn [rbind]. rewrite Hr.
  exists r. split; [reflexivity|]. split; [exact Sr|].
  intros y x ch Hy Hx Hc.
  assert (Heq : sample r y x ch
                = (sample a y x ch * (1 - sample g y x ch)
                   + sample b y x ch * sample g y x ch)%Qc).
  { rewrite (@zip_with3_sample Qcplus ag bg r h w c y x ch Sag Hr Hy Hx Hc).
    rewrite (@zip_with3_sample Qcmult a _ ag h w c y x ch Ha Hag Hy Hx Hc).
    rewrite (@zip_with3_sample Qcmult b g bg h w c y x ch Hb Hbg Hy Hx Hc).
    now rewrite (@tmap_sample _ g h w c y x ch Hg Hy Hx Hc). }
  rewrite Heq. split.
  - intros ->. ring.
  - intros ->. ring.
Qed.

Lemma blend_interpolates_witness :
  has_shape (ramp 2 2) 2 2 1 /\ has_shape sample_grid 2 2 1 /\
  exists r,
    blend (ramp 2 2) sample_grid sample_grid = Ok r /\ has_shape r 2 2 1 /\
    forall y x ch, y < 2 -> x < 2 -> ch < 1 ->
      (sample sample_grid y x ch = 0%Qc ->
       sample r y x ch = sample (ramp 2 2) y x ch) /\
      (sample sample_grid y x ch = 1%Qc ->
       sample r y x ch = sample sample_grid y x ch).
Proof.
  assert (Ha : has_shape (ramp 2 2) 2 2 1) by shape_of_closed.
  split; [exact Ha|]. split; [exact sample_grid_shape|].
  exact (@blend_interpolates (ramp 2 2) sample_grid sample_grid 2 2 1
           Ha sample_grid_shape sample_grid_shape).
Defined.

(** ** Wavelet *)

Lemma trunc_half (n : Z) : Num.trunc (Num.ofZ n * Num.half)%Qc = Z.quot n 2.
Proof.
  unfold Qcmult. rewrite trunc_Q2Qc.
  rewrite (quot_Qeq (q := n # 2)).
  - reflexivity.
  - unfold Num.ofZ, Num.half.
    rewrite !this_Q2Qc. unfold Qeq, inject_Z. simpl. ring.
Qed.

(** X3.  Where resizing succeeds on grids that are not empty, [wavelet]
    returns a grid of the shape of its input whenever both spatial extents
    are at least 2, so that the half-size intermediate grid has at least
    one row and one column. *)
Theorem wavelet_keeps_shape :
  forall (E : Env) (t : tensor) (h w c : nat),
    resize_total E -> has_shape t h w c -> 2 <= h -> 2 <= w ->
    exists out,
      wavelet t (Z.of_nat h, Z.of_nat w, Z.of_nat c) = Ok out /\
      has_shape out h w c.
Proof.
  intros E t h w c HE Ht Hh Hw. unfold wavelet. rewrite !trunc_half.
  assert (Hh2 : (0 < Z.quot (Z.of_nat h) 2)%Z).
  { rewrite Z.quot_div_nonneg by lia. Z.div_mod_to_equations. lia. }
  assert (Hw2 : (0 < Z.quot (Z.of_nat w) 2)%Z).
  { rewrite Z.quot_div_nonneg by lia. Z.div_mod_to_equations. lia. }
  destruct (@resample_shape E t h w c (Z.quot (Z.of_nat h) 2)
              (Z.quot (Z.of_nat w) 2) 3%Z HE Ht) as [small [-> Hs]];
    [lia | lia | exact Hh2 | exact Hw2 |].
  cbn [rbind].
  destruct (@resample_shape E small _ _ c (Z.of_nat h) (Z.of_nat w) 3%Z HE Hs)
    as [back [-> Hb]]; [lia | lia | lia | lia |].
  cbn [rbind]. rewrite !Nat2Z.id in Hb.
  destruct (zip_with3_shape Qcminus Ht Hb) as [d [-> Hd]].
  cbn [rbind]. eexists. split; [reflexivity|]. now apply normalize_shape.
Qed.

Lemma wavelet_keeps_shape_witness :
  resize_total demo_env /\ has_shape (ramp 2 3) 2 3 1 /\ 2 <= 2 /\ 2 <= 3 /\
  exists out,
    wavelet (E := demo_env) (ramp 2 3) (Z.of_nat 2, Z.of_nat 3, Z.of_nat 1)
    = Ok out /\
    has_shape out 2 3 1.
Proof.
  assert (Ht : has_shape (ramp 2 3) 2 3 1) by shape_of_closed.
  assert (H2 : 2 <= 2) by lia.
  assert (H3 : 2 <= 3) by lia.
  split; [exact resize_nearest_total|]. split; [exact Ht|].
  split; [exact H2|]. split; [exact H3|].
  exact (@wavelet_keeps_shape demo_env (ramp 2 3) 2 3 1
           resize_nearest_total Ht H2 H3).
Defined.

(** ** Index grids *)


(** ** Reindex *)








(** ** More on [normalize] *)

Lemma fold_min_in (vs : list Qc) (v : Qc) :
  fold_left Num.min vs v = v \/ In (fold_left Num.min vs v) vs.
Proof.
  revert v. induction vs as [|a vs IH]; intro v; simpl; [now left|].
  destruct (IH (Num.min v a)) as [H|H].
  - rewrite H. unfold Num.min. destruct (Num.leb v a); [now left | right; now left].
  - right. now right.
Qed.

Lemma fold_max_in (vs : list Qc) (v : Qc) :
  fold_left Num.max vs v = v \/ In (fold_left Num.max vs v) vs.
Proof.
  revert v. induction vs as [|a vs IH]; intro v; simpl; [now left|].
  destruct (IH (Num.max v a)) as [H|H].
  - rewrite H. unfold Num.max. destruct (Num.leb v a); [right; now left | now left].
  - right. now right.
Qed.

Lemma Qcminus_eq0 (x y : Qc) : (x - y)%Qc = 0%Qc -> x = y.
Proof.
  intro H. replace x with ((x - y) + y)%Qc by ring. rewrite H. ring.
Qed.

Section NormalizeFacts.
Context {T : Type} `{Tensorial T}.

Lemma reduce_min_in (t : T) : flat t <> [] -> In (reduce_min t) (flat t).
Proof.
  unfold reduce_min. destruct (flat t) as [|a vs]; [congruence|]. intros _.
  destruct (fold_min_in vs a) as [-> | Hin]; [now left | now right].
Qed.

Lemma reduce_max_in (t : T) : flat t <> [] -> In (reduce_max t) (flat t).
Proof.
  unfold reduce_max. destruct (flat t) as [|a vs]; [congruence|]. intros _.
  destruct (fold_max_in vs a) as [-> | Hin]; [now left | now right].
Qed.

Lemma varied_not_empty (t : T) : reduce_min t <> reduce_max t -> flat t <> [].
Proof.
  intros Hne Hnil. apply Hne. unfold reduce_min, reduce_max. now rewrite Hnil.
Qed.

End NormalizeFacts.

(** ** The exposure envelope of the worms *)

Lemma ofZ_ratio (i m : Z) :
  (0 < m)%Z -> (Num.ofZ i / Num.ofZ m * Num.ofZ m)%Qc = Num.ofZ i.
Proof.
  intro Hm. field. intro Hz.
  assert (HQ : (this (Num.ofZ m) == this 0%Qc)%Q) by (rewrite Hz; reflexivity).
  rewrite this_ofZ, this_zero in HQ. pose proof (inject_Z_pos Hm) as Hp. lra.
Qed.

Lemma inject_Z_eq (a b : Z) : (inject_Z a == inject_Z b)%Q <-> a = b.
Proof. unfold Qeq. simpl. lia. Qed.

Lemma envelope_facts (i m : Z) :
  (0 < m)%Z -> (0 <= i <= m)%Z ->
  let e := (1 - Num.abs (1 - Num.ofZ i / Num.ofZ m * Num.two))%Qc in
  unit_sample e /\
  (1 - Num.abs (1 - Num.ofZ (m - i) / Num.ofZ m * Num.two))%Qc = e /\
  (e = 0%Qc <-> i = 0%Z \/ i = m) /\
  (e = 1%Qc <-> (2 * i)%Z = m).
Proof.
  intros Hm Hi e. subst e.
  pose proof (ofZ_ratio i Hm) as Hq. pose proof (ofZ_ratio (m - i) Hm) as Hq'.
  set (q := (Num.ofZ i / Num.ofZ m)%Qc) in *.
  set (q' := (Num.ofZ (m - i) / Num.ofZ m)%Qc) in *.
  assert (HQ : (this q * inject_Z m == inject_Z i)%Q).
  { rewrite <- (this_ofZ m), <- this_mult, Hq. apply this_ofZ. }
  assert (HQ0 : (this q' * inject_Z m == inject_Z (m - i))%Q).
  { rewrite <- (this_ofZ m), <- this_mult, Hq'. apply this_ofZ. }
  assert (HQ' : (this q' * inject_Z m == inject_Z m - inject_Z i)%Q).
  { rewrite HQ0. unfold Z.sub. rewrite inject_Z_plus, inject_Z_opp. ring. }
  pose proof (inject_Z_pos Hm) as Hmp.
  assert (Hi0 : (0 <= inject_Z i)%Q)
    by (change 0%Q with (inject_Z 0); rewrite <- Zle_Qle; lia).
  assert (Him : (inject_Z i <= inject_Z m)%Q) by (rewrite <- Zle_Qle; lia).
  assert (Hq01 : (0 <= this q <= 1)%Q) by (split; nra).
  assert (Hsum : (this q' == 1 - this q)%Q) by nra.
  split; [|split; [|split]].
  - unfold unit_sample.
    destruct (abs_cases (1 - q * Num.two)%Qc) as [[Hs ->]|[Hs ->]];
      split; to_Q; rewrite ?this_two in *; lra.
  - apply Qc_is_canon.
    destruct (abs_cases (1 - q * Num.two)%Qc) as [[Hs ->]|[Hs ->]];
      destruct (abs_cases (1 - q' * Num.two)%Qc) as [[Hr ->]|[Hr ->]];
      to_Q; rewrite ?this_two in *; lra.
  - split.
    + intro He.
      assert (HE : (this (1 - Num.abs (1 - q * Num.two))%Qc == this 0%Qc)%Q)
        by (rewrite He; reflexivity).
      destruct (abs_cases (1 - q * Num.two)%Qc) as [[Hs Ha]|[Hs Ha]];
        rewrite Ha in HE; to_Q; rewrite ?this_two in *.
      * left. apply inject_Z_eq. change (inject_Z 0) with 0%Q. nra.
      * right. apply inject_Z_eq. nra.
    + intros [Hz|Hz]; apply Qc_is_canon.
      * assert (H0 : (this q == 0)%Q).
        { rewrite Hz in HQ. change (inject_Z 0) with 0%Q in HQ. nra. }
        destruct (abs_cases (1 - q * Num.two)%Qc) as [[Hs ->]|[Hs ->]];
          to_Q; rewrite ?this_two in *; lra.
      * assert (H1 : (this q == 1)%Q).
        { rewrite Hz in HQ. nra. }
        destruct (abs_cases (1 - q * Num.two)%Qc) as [[Hs ->]|[Hs ->]];
          to_Q; rewrite ?this_two in *; lra.
  - split.
    + intro He.
      assert (HE : (this (1 - Num.abs (1 - q * Num.two))%Qc == this 1%Qc)%Q)
        by (rewrite He; reflexivity).
      apply inject_Z_eq. rewrite inject_Z_mult. change (inject_Z 2) with 2%Q.
      destruct (abs_cases (1 - q * Num.two)%Qc) as [[Hs Ha]|[Hs Ha]];
        rewrite Ha in HE; to_Q; rewrite ?this_two in *; nra.
    + intro Hz. apply Qc_is_canon.
      assert (Hh : (2 * this q == 1)%Q).
      { rewrite <- Hz in HQ. rewrite inject_Z_mult in HQ.
        change (inject_Z 2) with 2%Q in HQ.
        assert (Hip : (0 < inject_Z i)%Q)
          by (apply inject_Z_pos; lia).
        nra. }
      destruct (abs_cases (1 - q * Num.two)%Qc) as [[Hs ->]|[Hs ->]];
        to_Q; rewrite ?this_two in *; lra.
Qed.

(** X7.  The exposure envelope of [worms], [1 - abs(1 - i / (iterations -
    1) * 2)], over the turns [0 <= i < iterations] of a run of at least two
    turns: it is defined and lies in [0,1]; it is 0 at the first and at the
    last turn, and 1 at the middle turn of an odd number of turns. *)
Theorem worm_exposure_envelope :
  forall (iterations i : Z),
    (2 <= iterations)%Z -> (0 <= i < iterations)%Z ->
    (exists e, exposure i iterations = Ok e /\ unit_sample e) /\
    exposure 0 iterations = Ok 0%Qc /\
    exposure (iterations - 1) iterations = Ok 0%Qc /\
    ((2 * i)%Z = (iterations - 1)%Z -> exposure i iterations = Ok 1%Qc).
Proof.
  intros n i Hn Hi. unfold exposure.
  replace (n - 1 =? 0)%Z with false by (symmetry; apply Z.eqb_neq; lia).
  split; [|split; [|split]].
  - destruct (@envelope_facts i (n - 1)%Z) as [Hu _]; [lia | lia |].
    eexists. split; [reflexivity | exact Hu].
  - destruct (@envelope_facts 0%Z (n - 1)%Z) as [_ [_ [H0 _]]]; [lia | lia |].
    apply f_equal. apply (proj2 H0). now left.
  - destruct (@envelope_facts (n - 1)%Z (n - 1)%Z) as [_ [_ [H0 _]]];
      [lia | lia |].
    apply f_equal. apply (proj2 H0). now right.
  - intro Hmid.
    destruct (@envelope_facts i (n - 1)%Z) as [_ [_ [_ H1]]]; [lia | lia |].
    apply f_equal. now apply (proj2 H1).
Qed.

Lemma worm_exposure_envelope_witness :
  (2 <= 5)%Z /\ (0 <= 2 < 5)%Z /\
  (exists e, exposure 2 5 = Ok e /\ unit_sample e) /\
  exposure 0 5 = Ok 0%Qc /\
  exposure (5 - 1) 5 = Ok 0%Qc /\
  ((2 * 2)%Z = (5 - 1)%Z -> exposure 2 5 = Ok 1%Qc).
Proof.
  assert (H5 : (2 <= 5)%Z) by lia.
  assert (H2 : (0 <= 2 < 5)%Z) by lia.
  split; [exact H5|]. split; [exact H2|].
  exact (@worm_exposure_envelope 5%Z 2%Z H5 H2).
Defined.

(* ================================================================== *)
(** * [normalize] under rounding *)
(* ================================================================== *)

Section NormalizeRounded.
Context {T : Type} `{Tensorial T}.
Variable rnd : Qc -> Qc.
Hypothesis Hrnd : rounding rnd.

Lemma rescale_rounded_unit (lo hi v : Qc) :
  (lo <= v)%Qc -> (v <= hi)%Qc -> rnd (hi - lo)%Qc <> 0%Qc ->
  (0 <= rnd (rnd (v - lo) / rnd (hi - lo)))%Qc /\
  (rnd (rnd (v - lo) / rnd (hi - lo)) <= 1)%Qc.
Proof.
  intros Hlo Hhi Hd.
  assert (Hn0 : (0 <= rnd (v - lo))%Qc).
  { rewrite <- (rnd_zero Hrnd). apply (rnd_monotone Hrnd).
    unfold Qcle in *. rewrite this_minus, this_zero. lra. }
  assert (Hnd : (rnd (v - lo) <= rnd (hi - lo))%Qc).
  { apply (rnd_monotone Hrnd). unfold Qcle in *. rewrite !this_minus. lra. }
  assert (Hdpos : (0 < rnd (hi - lo))%Qc).
  { destruct (Qcle_lt_or_eq _ _ (Qcle_trans _ _ _ Hn0 Hnd)) as [Hlt|Heq];
      [exact Hlt | congruence]. }
  set (n := rnd (v - lo)%Qc) in *. set (d := rnd (hi - lo)%Qc) in *.
  assert (Hmul : (n / d * d)%Qc = n) by (field; exact Hd).
  assert (Hq0 : (0 <= n / d)%Qc).
  { apply Qcmult_lt_0_le_reg_r with d; [exact Hdpos|].
    now rewrite Hmul, Qcmult_0_l. }
  assert (Hq1 : (n / d <= 1)%Qc).
  { apply Qcmult_lt_0_le_reg_r with d; [exact Hdpos|].
    now rewrite Hmul, Qcmult_1_l. }
  split.
  - rewrite <- (rnd_zero Hrnd). now apply (rnd_monotone Hrnd).
  - rewrite <- (rnd_one Hrnd). now apply (rnd_monotone Hrnd).
Qed.

Lemma normalize_with_unit (t : T) :
  rnd (reduce_max t - reduce_min t)%Qc <> 0%Qc ->
  Forall unit_sample (flat (normalize_with rnd t)).
Proof.
  intro Hd. unfold normalize_with. rewrite flat_tmap.
  apply Forall_forall. intros v Hv. apply in_map_iff in Hv.
  destruct Hv as [u [<- Hu]].
  apply rescale_rounded_unit;
    [ now apply reduce_min_le | now apply reduce_max_ge | exact Hd ].
Qed.

Lemma normalize_with_has_zero (t : T) :
  rnd (reduce_max t - reduce_min t)%Qc <> 0%Qc ->
  In 0%Qc (flat (normalize_with rnd t)).
Proof.
  intro Hd. unfold normalize_with. rewrite flat_tmap. apply in_map_iff.
  exists (reduce_min t). split.
  - unfold Qcminus at 1. rewrite Qcplus_opp_r, (rnd_zero Hrnd).
    unfold Qcdiv. rewrite Qcmult_0_l. apply (rnd_zero Hrnd).
  - apply reduce_min_in. intro Hnil. apply Hd.
    unfold reduce_min, reduce_max. rewrite Hnil.
    unfold Qcminus. rewrite Qcplus_opp_r. apply (rnd_zero Hrnd).
Qed.

Lemma normalize_with_has_one (t : T) :
  rnd (reduce_max t - reduce_min t)%Qc <> 0%Qc ->
  In 1%Qc (flat (normalize_with rnd t)).
Proof.
  intro Hd. unfold normalize_with. rewrite flat_tmap. apply in_map_iff.
  exists (reduce_max t). split.
  - unfold Qcdiv. rewrite Qcmult_inv_r by exact Hd. apply (rnd_one Hrnd).
  - apply reduce_max_in. intro Hnil. apply Hd.
    unfold reduce_min, reduce_max. rewrite Hnil.
    unfold Qcminus. rewrite Qcplus_opp_r. apply (rnd_zero Hrnd).
Qed.

Lemma normalize_with_min_zero (t : T) :
  rnd (reduce_max t - reduce_min t)%Qc <> 0%Qc ->
  reduce_min (normalize_with rnd t) = 0%Qc.
Proof.
  intro Hd. apply Qcle_antisym.
  - apply reduce_min_le. now apply normalize_with_has_zero.
  - pose proof (normalize_with_unit t Hd) as Hu. rewrite Forall_forall in Hu.
    apply Hu. apply reduce_min_in. intro Hnil.
    pose proof (normalize_with_has_zero t Hd) as Hin.
    rewrite Hnil in Hin. exact Hin.
Qed.

Lemma normalize_with_max_one (t : T) :
  rnd (reduce_max t - reduce_min t)%Qc <> 0%Qc ->
  reduce_max (normalize_with rnd t) = 1%Qc.
Proof.
  intro Hd. apply Qcle_antisym.
  - pose proof (normalize_with_unit t Hd) as Hu. rewrite Forall_forall in Hu.
    apply Hu. apply reduce_max_in. intro Hnil.
    pose proof (normalize_with_has_zero t Hd) as Hin.
    rewrite Hnil in Hin. exact Hin.
  - apply reduce_max_ge. now apply normalize_with_has_one.
Qed.

Lemma normalize_with_idempotent (t : T) :
  (forall q : Qc, rnd (rnd q) = rnd q) ->
  rnd (reduce_max t - reduce_min t)%Qc <> 0%Qc ->
  normalize_with rnd (normalize_with rnd t) = normalize_with rnd t.
Proof.
  intros Hid Hd. unfold normalize_with at 1.
  rewrite (normalize_with_min_zero t Hd), (normalize_with_max_one t Hd).
  unfold normalize_with. rewrite tmap_tmap. apply tmap_ext_in. intros v _.
  replace (1 - 0)%Qc with 1%Qc by ring. rewrite (rnd_one Hrnd).
  set (u := rnd (rnd (v - reduce_min t) / rnd (reduce_max t - reduce_min t))%Qc).
  replace (u - 0)%Qc with u by ring.
  replace (rnd u / 1)%Qc with (rnd u) by (field; discriminate).
  unfold u. now rewrite !Hid.
Qed.

Lemma normalize_with_exact_shift (t : T) (c : Qc) :
  (forall v, In v (flat t) -> rnd (v + c)%Qc = (v + c)%Qc) ->
  normalize_with rnd (shift_with rnd c t) = normalize_with rnd t.
Proof.
  intro Hex. unfold shift_with.
  rewrite (tmap_ext_in (fun v => rnd (v + c)%Qc) (fun v => (v + c)%Qc) t Hex).
  destruct (flat t) as [|a vs] eqn:F.
  - unfold normalize_with. rewrite tmap_tmap. apply tmap_ext_in.
    intros v Hv. rewrite F in Hv. contradiction.
  - assert (Hne : flat t <> []) by (rewrite F; discriminate).
    unfold normalize_with.
    rewrite (reduce_min_shift t c Hne), (reduce_max_shift t c Hne).
    rewrite tmap_tmap. apply tmap_ext_in. intros v _.
    replace (v + c - (reduce_min t + c))%Qc with (v - reduce_min t)%Qc by ring.
    replace (reduce_max t + c - (reduce_min t + c))%Qc
      with (reduce_max t - reduce_min t)%Qc by ring.
    reflexivity.
Qed.
End NormalizeRounded.

Lemma normalize_with_identity {T} `{Tensorial T} (t : T) :
  normalize_with (fun v => v) t = normalize t.
Proof. reflexivity. Qed.

Lemma round_to_bits_monotone (k : N) (x y : Qc) :
  (x <= y)%Qc -> (round_to_bits k x <= round_to_bits k y)%Qc.
Proof.
  intro Hxy. unfold round_to_bits, Qcle. rewrite !this_Q2Qc.
  assert (Hp : (0 < 2 ^ Z.of_N k)%Z) by (apply Z.pow_pos_nonneg; lia).
  pose proof (inject_Z_pos Hp) as HK.
  assert (Hf : (Qfloor (x * inject_Z (2 ^ Z.of_N k) + (1 # 2))
                <= Qfloor (y * inject_Z (2 ^ Z.of_N k) + (1 # 2)))%Z).
  { apply Qfloor_resp_le. unfold Qcle in Hxy. nra. }
  unfold Qle. simpl. apply Z.mul_le_mono_nonneg_r; [lia | exact Hf].
Qed.

Lemma round_to_8_bits : rounding (round_to_bits 8).
Proof.
  split.
  - apply round_to_bits_monotone.
  - apply Qc_is_canon. vm_compute. reflexivity.
  - apply Qc_is_canon. vm_compute. reflexivity.
Qed.

Lemma round_to_bits_idempotent (k : N) (q : Qc) :
  round_to_bits k (round_to_bits k q) = round_to_bits k q.
Proof.
  unfold round_to_bits at 1 3.
  set (n := Qfloor (this q * inject_Z (2 ^ Z.of_N k) + (1 # 2))).
  assert (Hp : (0 < 2 ^ Z.of_N k)%Z) by (apply Z.pow_pos_nonneg; lia).
  apply Qc_is_canon. rewrite !this_Q2Qc.
  assert (Hf : Qfloor (this (round_to_bits k q) * inject_Z (2 ^ Z.of_N k)
                       + (1 # 2)) = n).
  { assert (He : (this (round_to_bits k q) * inject_Z (2 ^ Z.of_N k) + (1 # 2)
                  == (2 * n + 1) # 2)%Q).
    { unfold round_to_bits. rewrite this_Q2Qc. fold n.
      unfold Qeq, Qmult, Qplus, inject_Z. cbn [Qnum Qden].
      rewrite !Pos2Z.inj_mul, Z2Pos.id by exact Hp. ring. }
    rewrite (Qfloor_comp _ _ He). unfold Qfloor.
    Z.div_mod_to_equations. lia. }
  rewrite Hf. reflexivity.
Qed.

(** X6.  On a grid whose rounded spread [max - min] is not 0,
    [normalize], with every subtraction and division rounded, sends the
    darkest sample to 0 and the brightest to 1: both values occur in its
    result and are its minimum and its maximum, and normalizing a second
    time changes nothing.  With no rounding at all this is [normalize] on
    the rationals. *)
Theorem normalize_extremes_idempotent :
  forall (T : Type) (HT : Tensorial T) (rnd : Qc -> Qc) (t : T),
    rounding rnd -> (forall q : Qc, rnd (rnd q) = rnd q) ->
    rnd (reduce_max t - reduce_min t)%Qc <> 0%Qc ->
    In 0%Qc (flat (normalize_with rnd t)) /\
    In 1%Qc (flat (normalize_with rnd t)) /\
    reduce_min (normalize_with rnd t) = 0%Qc /\
    reduce_max (normalize_with rnd t) = 1%Qc /\
    normalize_with rnd (normalize_with rnd t) = normalize_with rnd t.
Proof.
  intros T HT rnd t Hrnd Hid Hd.
  split; [now apply normalize_with_has_zero|].
  split; [now apply normalize_with_has_one|].
  split; [now apply normalize_with_min_zero|].
  split; [now apply normalize_with_max_one|].
  now apply normalize_with_idempotent.
Qed.

Lemma normalize_extremes_idempotent_witness :
  rounding (round_to_bits 8) /\
  (forall q : Qc, round_to_bits 8 (round_to_bits 8 q) = round_to_bits 8 q) /\
  round_to_bits 8 (reduce_max sample_field - reduce_min sample_field)%Qc
  <> 0%Qc /\
  In 0%Qc (flat (normalize_with (round_to_bits 8) sample_field)) /\
  In 1%Qc (flat (normalize_with (round_to_bits 8) sample_field)) /\
  reduce_min (normalize_with (round_to_bits 8) sample_field) = 0%Qc /\
  reduce_max (normalize_with (round_to_bits 8) sample_field) = 1%Qc /\
  normalize_with (round_to_bits 8)
                 (normalize_with (round_to_bits 8) sample_field)
  = normalize_with (round_to_bits 8) sample_field.
Proof.
  assert (Hd : round_to_bits 8 (reduce_max sample_field
                                - reduce_min sample_field)%Qc <> 0%Qc).
  { apply eqb_neq. vm_compute. reflexivity. }
  split; [exact round_to_8_bits|].
  split; [exact (round_to_bits_idempotent 8)|].
  split; [exact Hd|].
  exact (@normalize_extremes_idempotent _ _ (round_to_bits 8) sample_field
           round_to_8_bits (round_to_bits_idempotent 8) Hd).
Defined.

(** C4, as the code has it.  Every subtraction and division of
    [normalize] is rounded.  Whatever the rounding, as long as it is
    monotone and leaves 0 and 1 as they are (as rounding to nearest does)
    and the rounded difference of maximum and minimum is not 0, every
    sample of [normalize grid] lies in [0,1].  Adding a constant [c] to
    the grid leaves [normalize grid] unchanged when every sum [v + c] is
    exact, not otherwise. *)
Theorem normalize_rounded_unit_interval :
  forall (T : Type) (HT : Tensorial T) (rnd : Qc -> Qc) (t : T),
    rounding rnd ->
    reduce_min t <> reduce_max t ->
    rnd (reduce_max t - reduce_min t)%Qc <> 0%Qc ->
    Forall unit_sample (flat (normalize_with rnd t)) /\
    (forall c : Qc,
        (forall v, In v (flat t) -> rnd (v + c)%Qc = (v + c)%Qc) ->
        normalize_with rnd (shift_with rnd c t) = normalize_with rnd t).
Proof.
  intros T HT rnd t Hrnd Hne Hd.
  split; [now apply normalize_with_unit|].
  intros c Hex. now apply normalize_with_exact_shift.
Qed.

Lemma normalize_rounded_unit_interval_witness :
  rounding (round_to_bits 8) /\
  reduce_min sample_field <> reduce_max sample_field /\
  round_to_bits 8 (reduce_max sample_field - reduce_min sample_field)%Qc
  <> 0%Qc /\
  Forall unit_sample (flat (normalize_with (round_to_bits 8) sample_field)) /\
  (forall c : Qc,
      (forall v, In v (flat sample_field) ->
                 round_to_bits 8 (v + c)%Qc = (v + c)%Qc) ->
      normalize_with (round_to_bits 8)
                     (shift_with (round_to_bits 8) c sample_field)
      = normalize_with (round_to_bits 8) sample_field).
Proof.
  assert (Hne : reduce_min sample_field <> reduce_max sample_field).
  { apply eqb_neq. vm_compute. reflexivity. }
  assert (Hd : round_to_bits 8 (reduce_max sample_field
                                - reduce_min sample_field)%Qc <> 0%Qc).
  { apply eqb_neq. vm_compute. reflexivity. }
  split; [exact round_to_8_bits|]. split; [exact Hne|]. split; [exact Hd|].
  exact (@normalize_rounded_unit_interval _ _ (round_to_bits 8) sample_field
           round_to_8_bits Hne Hd).
Defined.

(** The statement as first put fails on 32-bit floats.  On the grid
    [[0, 1/2], [1, 1/4]] [normalize] returns the grid itself; after
    [2^22] is added to every sample, where the floats are [1/2] apart and
    [1/4 + 2^22] is rounded to [2^22], it returns [[0, 1/2], [1, 0]]. *)
Lemma normalize_float32_shift_changes_result :
  F32.normalize F32.sample_field = F32.sample_field /\
  F32.normalize (F32.add_scalar (F32.of_dyadic 1 22) F32.sample_field)
  = [[F32.of_dyadic 0 0; F32.of_dyadic 1 (-1)];
     [F32.of_dyadic 1 0; F32.of_dyadic 0 0]] /\
  F32.normalize (F32.add_scalar (F32.of_dyadic 1 22) F32.sample_field)
  <> F32.normalize F32.sample_field.
Proof.
  split; [vm_compute; reflexivity|]. split; [vm_compute; reflexivity|].
  vm_compute. intro Heq. discriminate Heq.
Qed.

(** ** The heading bias *)

Lemma worms_fallback_unruly {E : Env} (t : tensor) (shape : shape3)
      (density duration stride stride_deviation bg : Qc) :
  worms t shape BehaviorOther density duration stride stride_deviation bg
  = worms t shape (BehaviorEnum unruly) density duration stride
          stride_deviation bg.
Proof. destruct shape as [[height width] channels]. reflexivity. Qed.

(** C7.  A behavior that is no integer and no member of the enumeration
    (such as [None]) takes the last branch of the dispatch, the one
    [unruly] takes: its heading bias is a standard-normal sample per
    agent, not the zeros of [obedient] nor the scaled samples of
    [crosshatch] and [chaotic], the dispatch does not fail, and [worms]
    then runs exactly as it does for [unruly].  An integer outside 0..3 is
    the value of no member, and [worms] raises [ValueError]. *)
Theorem worms_behavior_fallback :
  forall (E : Env) (t : tensor) (h w c : nat)
         (density duration stride stride_deviation bg : Qc) (s : rng),
    has_shape t h w c -> 0 < h -> 0 < w ->
    (Z.of_nat h <= 2 ^ 31)%Z -> (Z.of_nat w <= 2 ^ 31)%Z ->
    uniform_unit E ->
    (0 <= worm_count (Z.of_nat h, Z.of_nat w, Z.of_nat c) density)%Z ->
    (forall (count : Z) (s0 : rng),
        (0 <= count)%Z ->
        worms_rot BehaviorOther count s0
        = worms_rot (BehaviorEnum unruly) count s0 /\
        worms_rot BehaviorOther count s0
        = Ok (map (fun i => (tf_normal i * 1 + 0)%Qc)
                  (seq (nrm_i s0) (Z.to_nat count)),
              {| py_i := py_i s0; uni_i := uni_i s0;
                 nrm_i := nrm_i s0 + Z.to_nat count |})) /\
    worms t (Z.of_nat h, Z.of_nat w, Z.of_nat c) BehaviorOther density
          duration stride stride_deviation bg s
    = worms t (Z.of_nat h, Z.of_nat w, Z.of_nat c) (BehaviorEnum unruly)
            density duration stride stride_deviation bg s /\
    (forall z : Z,
        ~ (0 <= z <= 3)%Z ->
        worms t (Z.of_nat h, Z.of_nat w, Z.of_nat c) (BehaviorInt z) density
              duration stride stride_deviation bg s = Raise ValueError).
Proof.
  intros E t h w c density duration stride stride_deviation bg s
         Ht Hh Hw Hhb Hwb Hu Hc.
  split; [|split].
  - intros count s0 Hcount. split; [reflexivity|].
    rewrite (proj1 (worms_rot_fallback count s0)). unfold random_normal.
    replace (count <? 0)%Z with false
      by (symmetry; apply Z.ltb_ge; exact Hcount).
    reflexivity.
  - now rewrite worms_fallback_unruly.
  - intros z Hz.
    destruct (worms_setup (BehaviorInt z) density duration stride
                stride_deviation bg s Ht Hh Hw Hhb Hwb Hu Hc)
      as [wy [wx [strd [colors [s3 [_ [_ [_ Heq]]]]]]]].
    rewrite Heq. rewrite (worms_rot_unknown _ s3 Hz).
    reflexivity.
Qed.

Lemma worms_behavior_fallback_witness :
  has_shape sample_grid 2 2 1 /\ 0 < 2 /\
  (Z.of_nat 2 <= 2 ^ 31)%Z /\
  uniform_unit demo_env /\
  (0 <= worm_count (E := demo_env) (Z.of_nat 2, Z.of_nat 2, Z.of_nat 1) 1%Qc)%Z /\
  ~ (0 <= 7 <= 3)%Z /\
  worms (E := demo_env) sample_grid (Z.of_nat 2, Z.of_nat 2, Z.of_nat 1)
        BehaviorOther 1%Qc (Num.ofZ 2) 1%Qc (Q2Qc (5 # 100)) Num.half rng0
  = worms (E := demo_env) sample_grid (Z.of_nat 2, Z.of_nat 2, Z.of_nat 1)
          (BehaviorEnum unruly) 1%Qc (Num.ofZ 2) 1%Qc (Q2Qc (5 # 100))
          Num.half rng0 /\
  worms (E := demo_env) sample_grid (Z.of_nat 2, Z.of_nat 2, Z.of_nat 1)
        (BehaviorInt 7) 1%Qc (Num.ofZ 2) 1%Qc (Q2Qc (5 # 100)) Num.half rng0
  = Raise ValueError.
Proof.
  assert (Hb : (Z.of_nat 2 <= 2 ^ 31)%Z) by (vm_compute; discriminate).
  assert (Hc : (0 <= worm_count (E := demo_env)
                      (Z.of_nat 2, Z.of_nat 2, Z.of_nat 1) 1%Qc)%Z)
    by (vm_compute; discriminate).
  assert (Hz : ~ (0 <= 7 <= 3)%Z) by lia.
  pose proof (@worms_behavior_fallback demo_env sample_grid 2 2 1
                1%Qc (Num.ofZ 2) 1%Qc (Q2Qc (5 # 100)) Num.half rng0
                sample_grid_shape (Nat.lt_0_succ 1) (Nat.lt_0_succ 1)
                Hb Hb demo_uniform_unit Hc) as [_ [Hsame Hint]].
  split; [exact sample_grid_shape|].
  split; [exact (Nat.lt_0_succ 1)|].
  split; [exact Hb|].
  split; [exact demo_uniform_unit|].
  split; [exact Hc|].
  split; [exact Hz|].
  split; [exact Hsame | exact (Hint 7%Z Hz)].
Defined.

(** ** Zero agents *)

(** C8, at an input where the code breaks it.  On the [2x2] grid with
    [duration=1] the iteration count is 1, and [worms] raises
    [ZeroDivisionError] whatever the density: with [density=0], where no
    agent is drawn and the result should be the dimmed background, and
    with [density=1] alike, so there is no output to have a shape. *)
Theorem worms_single_turn_no_output :
  has_shape sample_grid 2 2 1 /\
  iteration_count (E := demo_env) (2, 2, 1)%Z 1%Qc = 1%Z /\
  worm_count (E := demo_env) (2, 2, 1)%Z 0%Qc = 0%Z /\
  worms (E := demo_env) sample_grid (2, 2, 1)%Z (BehaviorInt 0)
        0%Qc 1%Qc 1%Qc (Q2Qc (5 # 100)) Num.half rng0
  = Raise ZeroDivisionError /\
  worms (E := demo_env) sample_grid (2, 2, 1)%Z (BehaviorInt 0)
        1%Qc 1%Qc 1%Qc (Q2Qc (5 # 100)) Num.half rng0
  = Raise ZeroDivisionError.
Proof.
  split; [exact sample_grid_shape|].
  repeat split; vm_compute; reflexivity.
Qed.

(* ================================================================== *)
(** * The pipeline *)
(* ================================================================== *)

Lemma bind_ext {A B} (m : M A) (k k' : A -> M B) (s : rng) :
  (forall a s', k a s' = k' a s') -> bind m k s = bind m k' s.
Proof.
  intro Hk. unfold bind. destruct (m s) as [[a s']|e]; [apply Hk | reflexivity].
Qed.

Section PipelineStages.
Context {E : Env}.

(** An optional stage in front of the rest of the plan. *)
Lemma spec_run_optional (shape : shape3) (o : options) (c : bool) (st : stage)
      (rest : list stage) (k : tensor -> M tensor) (t : tensor) (s : rng) :
  (forall t' s', spec_run_stages shape o rest t' s' = k t' s') ->
  spec_run_stages shape o ((if c then [st] else []) ++ rest) t s
  = bind (if c then spec_run_stage shape o st t else ret t) k s.
Proof.
  intro Hk. destruct c; simpl.
  - now apply bind_ext.
  - apply Hk.
Qed.

Lemma post_process_as_plan (t : tensor) (shape : shape3) (o : options) (s : rng) :
  post_process t shape o s = spec_post_process t shape o s.
Proof.
  unfold spec_post_process, spec_stage_plan, post_process. symmetry.
  revert t s.
  assert (H7 : forall t s,
             spec_run_stages shape o
               (if with_normal_map o then [StageNormalMap] else []) t s
             = bind (if with_normal_map o then lift (normal_map t shape) else ret t)
                    (fun t => ret t) s).
  { intros t s. rewrite <- (app_nil_r (if with_normal_map o then _ else _)).
    now apply (spec_run_optional shape o (with_normal_map o) StageNormalMap). }
  assert (H6 : forall t s,
             spec_run_stages shape o
               ((if with_sobel o then [StageSobel] else [])
                ++ (if with_normal_map o then [StageNormalMap] else [])) t s
             = bind (if with_sobel o then lift (sobel t shape) else ret t)
                    (fun t => bind (if with_normal_map o
                                    then lift (normal_map t shape) else ret t)
                                   (fun t => ret t)) s).
  { intros t s.
    now apply (spec_run_optional shape o (with_sobel o) StageSobel). }
  assert (H5 : forall t s,
             spec_run_stages shape o
               ((if deriv o then [StageDerivative] else [])
                ++ (if with_sobel o then [StageSobel] else [])
                ++ (if with_normal_map o then [StageNormalMap] else [])) t s
             = bind (if deriv o then lift (derivative t) else ret t)
                    (fun t =>
                     bind (if with_sobel o then lift (sobel t shape) else ret t)
                    (fun t => bind (if with_normal_map o
                                    then lift (normal_map t shape) else ret t)
                                   (fun t => ret t))) s).
  { intros t s.
    now apply (spec_run_optional shape o (deriv o) StageDerivative). }
  assert (H4 : forall t s,
             spec_run_stages shape o
               ((if with_worms o then [StageWorms] else [])
                ++ (if deriv o then [StageDerivative] else [])
                ++ (if with_sobel o then [StageSobel] else [])
                ++ (if with_normal_map o then [StageNormalMap] else [])) t s
             = bind (if with_worms o
                     then worms t shape (worm_behavior o) (worm_density o)
                                (worm_duration o) (worm_stride o)
                                (worm_stride_deviation o) (worm_bg o)
                     else ret t)
                    (fun t =>
                     bind (if deriv o then lift (derivative t) else ret t)
                    (fun t =>
                     bind (if with_sobel o then lift (sobel t shape) else ret t)
                    (fun t => bind (if with_normal_map o
                                    then lift (normal_map t shape) else ret t)
                                   (fun t => ret t)))) s).
  { intros t s.
    now apply (spec_run_optional shape o (with_worms o) StageWorms). }
  intros t s.
  rewrite (spec_run_optional shape o (negb (Num.eqb (refract_range o) 0%Qc))
             StageRefract _
             (fun t =>
                bind (if negb (Num.eqb (reindex_range o) 0%Qc)
                      then lift (reindex t shape (reindex_range o)) else ret t)
               (fun t =>
                bind (match clut_given (clut o) with
                      | Some name =>
                          lift (color_map t (ClutFile name) shape
                                          (clut_horizontal o) (clut_range o))
                      | None => ret (normalize t)
                      end)
               (fun t =>
                bind (if with_worms o
                      then worms t shape (worm_behavior o) (worm_density o)
                                 (worm_duration o) (worm_stride o)
                                 (worm_stride_deviation o) (worm_bg o)
                      else ret t)
               (fun t =>
                bind (if deriv o then lift (derivative t) else ret t)
               (fun t =>
                bind (if with_sobel o then lift (sobel t shape) else ret t)
               (fun t => bind (if with_normal_map o
                               then lift (normal_map t shape) else ret t)
                              (fun t => ret t)))))))).
  - reflexivity.
  - intros t1 s1.
    apply (spec_run_optional shape o (negb (Num.eqb (reindex_range o) 0%Qc))
             StageReindex).
    intros t2 s2. cbn [app spec_run_stages].
    destruct (clut_given (clut o)) as [name|]; cbn [spec_run_stage];
      apply bind_ext; exact H4.
Qed.

Lemma spec_stage_plan_sorted (o : options) :
  StronglySorted (fun a b => stage_rank a < stage_rank b) (spec_stage_plan o).
Proof.
  unfold spec_stage_plan.
  destruct (negb (Num.eqb (refract_range o) 0%Qc)),
           (negb (Num.eqb (reindex_range o) 0%Qc)),
           (clut_given (clut o)), (with_worms o), (deriv o), (with_sobel o),
           (with_normal_map o);
    cbn [app];
    repeat (constructor; [| repeat (constructor; [cbn [stage_rank]; lia|]);
                            try constructor]);
    try constructor.
Qed.
End PipelineStages.

Ltac stage_membership o :=
  unfold spec_stage_plan; rewrite !in_app_iff;
  destruct (Num.eqb (refract_range o) 0%Qc) eqn:?Hrefract;
  destruct (Num.eqb (reindex_range o) 0%Qc) eqn:?Hreindex;
  destruct (clut_given (clut o)) eqn:?Hclut;
  destruct (with_worms o) eqn:?Hworms;
  destruct (deriv o) eqn:?Hderiv;
  destruct (with_sobel o) eqn:?Hsobel;
  destruct (with_normal_map o) eqn:?Hnormal;
  cbn [negb In];
  repeat match goal with
         | H : Num.eqb _ _ = true |- _ => apply eqb_eq in H
         | H : Num.eqb _ _ = false |- _ => apply eqb_neq in H
         end;
  intuition (try discriminate; try congruence).

(** C5.  [post_process] is the run of the stages of its plan, each on the
    result of the one before: the plan lists them in the fixed order
    refract, reindex, color map or plain normalize, worms, derivative,
    sobel, normal map; refract and reindex are in it exactly when their
    range is not 0, the color map exactly when a clut is given (a file
    name that is not empty) and plain normalize exactly when none is, and
    worms, derivative, sobel and normal map exactly when their option is
    set. *)
Theorem post_process_stage_order :
  forall (E : Env) (t : tensor) (shape : shape3) (o : options) (s : rng),
    post_process t shape o s = spec_post_process t shape o s /\
    StronglySorted (fun a b => stage_rank a < stage_rank b) (spec_stage_plan o) /\
    (In StageRefract (spec_stage_plan o) <-> refract_range o <> 0%Qc) /\
    (In StageReindex (spec_stage_plan o) <-> reindex_range o <> 0%Qc) /\
    (forall name,
        In (StageColorMap name) (spec_stage_plan o)
        <-> clut_given (clut o) = Some name) /\
    (In StageNormalize (spec_stage_plan o) <-> clut_given (clut o) = None) /\
    (In StageWorms (spec_stage_plan o) <-> with_worms o = true) /\
    (In StageDerivative (spec_stage_plan o) <-> deriv o = true) /\
    (In StageSobel (spec_stage_plan o) <-> with_sobel o = true) /\
    (In StageNormalMap (spec_stage_plan o) <-> with_normal_map o = true).
Proof.
  intros E t shape o s.
  split; [apply post_process_as_plan|].
  split; [apply spec_stage_plan_sorted|].
  split; [stage_membership o|].
  split; [stage_membership o|].
  split; [intro name; stage_membership o|].
  split; [stage_membership o|].
  split; [stage_membership o|].
  split; [stage_membership o|].
  split; stage_membership o.
Qed.

(* ================================================================== *)
(** * Shapes that are not valid *)
(* ================================================================== *)





Section InvalidShapes.
Context {E : Env}.



End InvalidShapes.




(* ================================================================== *)
(** * Further properties of the worms and of the point cloud *)
(* ================================================================== *)

(** X9.  With no agent (a count [int(max(width, height) * density)] of 0,
    as for [density=0]) and an iteration count other than 1, every turn
    of [worms] leaves the canvas as it is, and the result is the dimmed
    background [tensor * bg], normalized. *)
Theorem worms_without_agents :
  forall (E : Env) (t : tensor) (h w c : nat) (behavior : behavior_arg)
         (density duration stride stride_deviation bg : Qc) (s : rng),
    has_shape t h w c -> 0 < h -> 0 < w ->
    (Z.of_nat h <= 2 ^ 31)%Z -> (Z.of_nat w <= 2 ^ 31)%Z ->
    uniform_unit E ->
    known_behavior behavior ->
    worm_count (Z.of_nat h, Z.of_nat w, Z.of_nat c) density = 0%Z ->
    iteration_count (Z.of_nat h, Z.of_nat w, Z.of_nat c) duration <> 1%Z ->
    exists s',
      worms t (Z.of_nat h, Z.of_nat w, Z.of_nat c) behavior density duration
            stride stride_deviation bg s
      = Ok (normalize (scale bg t), s').
Proof.
  intros E t h w c behavior density duration stride stride_deviation bg s
         Ht Hh Hw Hhb Hwb Hu Hb Hz Hit.
  assert (Hc : (0 <= worm_count (Z.of_nat h, Z.of_nat w, Z.of_nat c) density)%Z)
    by (rewrite Hz; lia).
  exact (worms_no_agents behavior density duration stride stride_deviation
           bg s Ht Hh Hw Hhb Hwb Hu Hc Hb Hz Hit).
Qed.

Lemma worms_without_agents_witness :
  has_shape sample_grid 2 2 1 /\ 0 < 2 /\ (Z.of_nat 2 <= 2 ^ 31)%Z /\
  uniform_unit demo_env /\ known_behavior (BehaviorInt 0) /\
  worm_count (E := demo_env) (Z.of_nat 2, Z.of_nat 2, Z.of_nat 1) 0%Qc = 0%Z /\
  iteration_count (E := demo_env) (Z.of_nat 2, Z.of_nat 2, Z.of_nat 1)
                  (Num.ofZ 4) <> 1%Z /\
  exists s',
    worms (E := demo_env) sample_grid (Z.of_nat 2, Z.of_nat 2, Z.of_nat 1)
          (BehaviorInt 0) 0%Qc (Num.ofZ 4) 1%Qc (Q2Qc (5 # 100)) Num.half rng0
    = Ok (normalize (scale Num.half sample_grid), s').
Proof.
  assert (Hb : (Z.of_nat 2 <= 2 ^ 31)%Z) by (vm_compute; discriminate).
  assert (Hk : known_behavior (BehaviorInt 0)) by (simpl; lia).
  assert (Hz : worm_count (E := demo_env)
                 (Z.of_nat 2, Z.of_nat 2, Z.of_nat 1) 0%Qc = 0%Z)
    by (vm_compute; reflexivity).
  assert (Hit : iteration_count (E := demo_env)
                  (Z.of_nat 2, Z.of_nat 2, Z.of_nat 1) (Num.ofZ 4) <> 1%Z)
    by (vm_compute; discriminate).
  split; [exact sample_grid_shape|]. split; [exact (Nat.lt_0_succ 1)|].
  split; [exact Hb|]. split; [exact demo_uniform_unit|]. split; [exact Hk|].
  split; [exact Hz|]. split; [exact Hit|].
  exact (@worms_without_agents demo_env sample_grid 2 2 1 (BehaviorInt 0)
           0%Qc (Num.ofZ 4) 1%Qc (Q2Qc (5 # 100)) Num.half rng0
           sample_grid_shape (Nat.lt_0_succ 1) (Nat.lt_0_succ 1) Hb Hb
           demo_uniform_unit Hk Hz Hit).
Defined.

Lemma of_int_unknown (z : Z) :
  ~ In z [0; 1; 2; 3; 10; 11; 50; 100; 101]%Z ->
  PointDistribution.of_int z = Raise ValueError.
Proof.
  intro Hz. unfold PointDistribution.of_int.
  repeat match goal with
         | |- context [(z =? ?k)%Z] =>
             destruct (Z.eqb_spec z k) as [->|_];
             [exfalso; apply Hz; cbn [In]; tauto|]
         end.
  reflexivity.
Qed.

Lemma of_name_unknown (name : string) :
  ~ In name ["random"; "square"; "waffle"; "chess"; "h_hex"; "v_hex";
             "spiral"; "circular"; "concentric"]%string ->
  PointDistribution.of_name name = Raise KeyError.
Proof.
  intro Hn. unfold PointDistribution.of_name.
  repeat match goal with
         | |- context [String.eqb name ?k] =>
             destruct (String.eqb_spec name k) as [->|_];
             [exfalso; apply Hn; cbn [In]; tauto|]
         end.
  reflexivity.
Qed.

(** X10.  [point_cloud] returns [None] as soon as [freq] is 0, before it
    looks at the distribution, so even for a distribution that does not
    exist.  For another [freq], an integer that is the value of no
    member of [PointDistribution] raises [ValueError], and a string that
    is the name of no member raises [KeyError]. *)
Theorem point_cloud_unknown_distribution :
  forall (E : Env) (fuel : nat) (freq : Z) (distrib : distrib_arg)
         (shape : option (Z * Z)) (center : bool) (generations : Z)
         (z : Z) (name : string) (s : rng),
    point_cloud fuel 0 distrib shape center generations s
    = Ok (ReturnsNone, s) /\
    (freq <> 0%Z ->
     ~ In z [0; 1; 2; 3; 10; 11; 50; 100; 101]%Z ->
     point_cloud fuel freq (DistribInt z) shape center generations s
     = Raise ValueError) /\
    (freq <> 0%Z ->
     ~ In name ["random"; "square"; "waffle"; "chess"; "h_hex"; "v_hex";
                "spiral"; "circular"; "concentric"]%string ->
     point_cloud fuel freq (DistribName name) shape center generations s
     = Raise KeyError).
Proof.
  intros E fuel freq distrib shape center generations z name s.
  split; [reflexivity|]. split.
  - intros Hf Hz. unfold point_cloud.
    replace (freq =? 0)%Z with false by (symmetry; apply Z.eqb_neq; exact Hf).
    rewrite (of_int_unknown Hz).
    destruct shape as [[hh ww]|]; reflexivity.
  - intros Hf Hn. unfold point_cloud.
    replace (freq =? 0)%Z with false by (symmetry; apply Z.eqb_neq; exact Hf).
    rewrite (of_name_unknown Hn).
    destruct shape as [[hh ww]|]; reflexivity.
Qed.
